(** * Two-phase simplex solver (saport.simplex.solver)

    A shallow embedding of [saport/simplex/solver.py] and of the two example
    models shipped with it, together with the properties of the solver that
    the design document states.

    Numbers.  The program computes with numpy floats.  Here every number is a
    canonical rational ([Qc]): the development describes the algorithm in
    exact arithmetic and says nothing about rounding.

    Objects.  [Model], [Expression], [Constraint], [Objective], [Tableau]
    and [Solution] live in sibling modules of the package that are not part
    of the solver file; they are modelled from the design document.  The
    methods of [Tableau] are in addition kept abstract (class [TableauOps]),
    so that what is proved about the solver holds for every implementation of
    the tableau; one instance follows the design document and is used for the
    concrete runs. *)

From stdpp Require Import gmap strings list fin_maps numbers pretty.
From Stdlib Require Import QArith Qcanon.

Close Scope Qc_scope.
Close Scope Q_scope.

Set Default Proof Using "Type".

(** ** Numbers *)

Abbreviation num := Qc (only parsing).

Definition num_of_Z (z : Z) : num := Qc_of_Z z.

(** Python's [x < 0], [x > 0] and [x == y] on numbers, as booleans. *)
Definition ltb (x y : num) : bool := bool_decide (x < y)%Qc.
Definition leb (x y : num) : bool := bool_decide (x ≤ y)%Qc.
Definition eqb (x y : num) : bool := bool_decide (x = y).

(** ** The model classes *)

Module Var.
(** Modelled from the spec: class [Variable] ([Var] here) of
    [saport.simplex.expressions.expression] is missing; the design document
    gives it an index and a name. *)
Record t := mk { name : string; index : nat }.
End Var.

Module Expression.
(** Modelled from the spec: class [Expression] is missing.  The design
    document describes it as an immutable mapping from variable to
    coefficient plus a constant term, an absent variable having coefficient
    0; variables are identified by their index. *)
Record t := mk { factors : gmap nat num; constant : num }.

Definition coefficient (e : t) (i : nat) : num :=
  default 0%Qc (factors e !! i).

(** A bare variable used as an expression: coefficient 1. *)
Definition var (v : Var.t) : t :=
  mk {[ Var.index v := 1%Qc ]} 0%Qc.

(** Modelled from the spec: addition unions the variable sets, summing
    coefficients and constants. *)
Definition add (e1 e2 : t) : t :=
  mk (union_with (λ a b, Some (a + b)%Qc) (factors e1) (factors e2))
     (constant e1 + constant e2)%Qc.

(** Modelled from the spec: scaling multiplies every coefficient and the
    constant. *)
Definition scale (k : num) (e : t) : t :=
  mk (Qcmult k <$> factors e) (k * constant e)%Qc.

Definition sub (e1 e2 : t) : t := add e1 (scale (-1)%Qc e2).

(** Value of the expression at a dense assignment (missing entries count
    as 0). *)
Definition evaluate (e : t) (assignment : list num) : num :=
  (map_fold (λ i k acc, acc + k * default 0%Qc (assignment !! i))%Qc 0%Qc (factors e)
   + constant e)%Qc.
End Expression.

Module ConstraintType.
Inductive t := LE | GE | EQ.
#[global] Instance eq_dec : EqDecision t.
Proof. solve_decision. Defined.
End ConstraintType.

Module Constraint.
(** Modelled from the spec: class [Constraint] is missing; it holds an
    expression, a relation, a bound and a stable index. *)
Record t := mk {
  expression : Expression.t;
  type : ConstraintType.t;
  bound : num;
  index : nat
}.

Definition with_expression (c : t) (e : Expression.t) : t :=
  mk e (type c) (bound c) (index c).
Definition with_type (c : t) (ty : ConstraintType.t) : t :=
  mk (expression c) ty (bound c) (index c).

(** Modelled from the spec: [invert] negates the expression and the bound
    and swaps the two inequality kinds. *)
Definition invert (c : t) : t :=
  mk (Expression.scale (-1)%Qc (expression c))
     (match type c with
      | ConstraintType.LE => ConstraintType.GE
      | ConstraintType.GE => ConstraintType.LE
      | ConstraintType.EQ => ConstraintType.EQ
      end)
     (- bound c)%Qc
     (index c).

(** Modelled from the spec: canonical form of a constraint, the constant
    of the expression moved into the bound on the opposite side. *)
Definition simplify (c : t) : t :=
  mk (Expression.mk (Expression.factors (expression c)) 0%Qc)
     (type c)
     (bound c - Expression.constant (expression c))%Qc
     (index c).
End Constraint.

Module ObjectiveType.
Inductive t := MAX | MIN.
#[global] Instance eq_dec : EqDecision t.
Proof. solve_decision. Defined.
End ObjectiveType.

Module Objective.
(** Modelled from the spec: class [Objective] is missing; an expression
    and a direction. *)
Record t := mk { expression : Expression.t; type : ObjectiveType.t }.

Definition with_expression (o : t) (e : Expression.t) : t := mk e (type o).

(** Modelled from the spec: a minimised objective is negated and from then
    on treated as a maximised one. *)
Definition invert (o : t) : t :=
  mk (Expression.scale (-1)%Qc (expression o))
     (match type o with
      | ObjectiveType.MAX => ObjectiveType.MIN
      | ObjectiveType.MIN => ObjectiveType.MAX
      end).
End Objective.

Module Model.
(** Modelled from the spec: class [Model] is missing; a name, the ordered
    variables, the ordered constraints and one objective. *)
Record t := mk {
  name : string;
  variables : list Var.t;
  constraints : list Constraint.t;
  objective : Objective.t
}.

Definition with_variables (m : t) (vs : list Var.t) : t :=
  mk (name m) vs (constraints m) (objective m).
Definition with_constraints (m : t) (cs : list Constraint.t) : t :=
  mk (name m) (variables m) cs (objective m).
Definition with_objective (m : t) (o : Objective.t) : t :=
  mk (name m) (variables m) (constraints m) o.

(** Modelled from the spec: [create_variable] appends a variable carrying
    the next sequential index and returns it. *)
Definition create_variable (m : t) (nm : string) : Var.t * t :=
  let v := Var.mk nm (length (variables m)) in
  (v, with_variables m (variables m ++ [v])).

(** Modelled from the spec: [add_constraint] normalises the expression and
    appends the constraint with the next sequential constraint index. *)
Definition add_constraint (m : t) (e : Expression.t)
    (ty : ConstraintType.t) (b : num) : t :=
  with_constraints m
    (constraints m ++
     [Constraint.simplify (Constraint.mk e ty b (length (constraints m)))]).

Definition maximize (m : t) (e : Expression.t) : t :=
  with_objective m (Objective.mk e ObjectiveType.MAX).
Definition minimize (m : t) (e : Expression.t) : t :=
  with_objective m (Objective.mk e ObjectiveType.MIN).

(** Modelled from the spec: [simplify] canonicalises every constraint. *)
Definition simplify (m : t) : t :=
  with_constraints m (Constraint.simplify <$> constraints m).

(** [deepcopy] of a model: models are values here, the copy is the value
    itself and shares nothing with the original. *)
Definition deepcopy (m : t) : t := m.
End Model.

(** Modelled from the spec: [Expression.coefficients(model)] renders the
    expression as a dense vector ordered by the model's variable indices. *)
Definition coefficients (e : Expression.t) (model : Model.t) : list num :=
  Expression.coefficient e <$> seq 0 (length (Model.variables model)).

(** ** numpy arrays *)

(** A two-dimensional array is the list of its rows.  Every operation below
    is the numpy operation the solver uses; [None] stands for the exception
    numpy raises (index out of bounds, nothing to stack). *)
Abbreviation Matrix := (list (list num)) (only parsing).

Module np.
(** [table[i] = x]: every entry of row [i] becomes the scalar [x]. *)
Definition fill_row (a : Matrix) (i : nat) (x : num) : option Matrix :=
  r ← a !! i; Some (<[i := const x <$> r]> a).

(** [table[i] = row]: the row is overwritten; a one-element [row] is
    broadcast, any other length mismatch is an error. *)
Definition set_row (a : Matrix) (i : nat) (row : list num) : option Matrix :=
  r ← a !! i;
  if decide (length row = length r) then Some (<[i := row]> a)
  else match row with
       | [x] => Some (<[i := const x <$> r]> a)
       | _ => None
       end.

(** [table[i, j] = x]. *)
Definition set_item (a : Matrix) (i j : nat) (x : num) : option Matrix :=
  r ← a !! i;
  if decide (j < length r) then Some (<[i := <[j := x]> r]> a) else None.

(** [table[i, j]]. *)
Definition item (a : Matrix) (i j : nat) : option num :=
  r ← a !! i; r !! j.

(** [k * row] and [row1 - row2] on one-dimensional arrays. *)
Definition scale_row (k : num) (row : list num) : list num :=
  Qcmult k <$> row.
Definition sub_row (row1 row2 : list num) : list num :=
  zip_with Qcminus row1 row2.

(** [table[i] -= row]. *)
Definition isub_row (a : Matrix) (i : nat) (row : list num) : option Matrix :=
  r ← a !! i; Some (<[i := sub_row r row]> a).

(** Number of columns of a rectangular array. *)
Definition ncols (a : Matrix) : nat := length (default [] (head a)).

(** One row without the entries whose position is listed in [cols]. *)
Definition delete_entries (cols : list nat) (row : list num) : list num :=
  (filter (λ p, p.1 ∉ cols) (imap pair row)).*2.

(** [np.delete(table, cols, axis=1)]: a new array without the listed
    columns; an index outside the array is an error. *)
Definition delete (a : Matrix) (cols : list nat) : option Matrix :=
  if decide (Forall (λ j, j < ncols a) cols)
  then Some (delete_entries cols <$> a)
  else None.

(** [np.column_stack(rows)]: the one-dimensional arrays become the columns
    of the result, so the result lists the columns of [rows]; an empty
    sequence is an error. *)
Definition column_stack (rows : Matrix) : option Matrix :=
  match rows with
  | [] => None
  | r :: _ => Some ((λ j, (λ row, default 0%Qc (row !! j)) <$> rows)
                    <$> seq 0 (length r))
  end.

Definition maxq (x y : num) : num := if ltb x y then y else x.
Definition minq (x y : num) : num := if ltb y x then y else x.

(** [np.amax], [np.amin] of a non-empty one-dimensional array. *)
Definition amax (col : list num) : num :=
  match col with [] => 0%Qc | x :: xs => foldl maxq x xs end.
Definition amin (col : list num) : num :=
  match col with [] => 0%Qc | x :: xs => foldl minq x xs end.

(** Position of the first entry equal to [x]. *)
Fixpoint first_index (x : num) (col : list num) : nat :=
  match col with
  | [] => 0
  | y :: ys => if eqb y x then 0 else S (first_index x ys)
  end.

(** [np.argmax]: the first position of the maximum. *)
Definition argmax (col : list num) : nat := first_index (amax col) col.
End np.

(** ** Tableau *)

(** Arrays are objects in a store and are named by their position in it. *)
Definition loc := nat.

Module Tableau.
(** Modelled from the spec: class [Tableau] is missing; a reference to the
    model and the matrix.  The matrix is a numpy array that [pivot] updates
    in place, so the object holds the location of the array. *)
Record t := mk { model : Model.t; table : loc }.
End Tableau.

(** The methods of [Tableau] the solver calls, as functions of the tableau's
    model and of the current content of its array.  [pivot] returns the new
    content of the array. *)
Class TableauOps := {
  is_optimal : Model.t → Matrix → bool;
  choose_entering_variable : Model.t → Matrix → nat;
  is_unbounded : Model.t → Matrix → nat → bool;
  choose_leaving_variable : Model.t → Matrix → nat → nat;
  pivot : Model.t → Matrix → nat → nat → Matrix;
  extract_assignment : Model.t → Matrix → list num
}.

(** ** Solution *)

Module Status.
Inductive t := OPTIMAL | INFEASIBLE | UNBOUNDED.
#[global] Instance eq_dec : EqDecision t.
Proof. solve_decision. Defined.
End Status.

Module Solution.
(** Modelled from the spec: class [Solution] is missing; the status, the
    assignment indexed like the augmented model, and the initial and final
    tableau objects handed to its constructors. *)
Record t := mk {
  model : Model.t;
  status : Status.t;
  raw_assignment : list num;
  initial_tableau : Tableau.t;
  tableau : Tableau.t
}.

Definition infeasible (model : Model.t) (initial_tableau tableau : Tableau.t) : t :=
  mk model Status.INFEASIBLE [] initial_tableau tableau.
Definition unbounded (model : Model.t) (initial_tableau tableau : Tableau.t) : t :=
  mk model Status.UNBOUNDED [] initial_tableau tableau.
Definition with_assignment (model : Model.t) (assignment : list num)
    (initial_tableau tableau : Tableau.t) : t :=
  mk model Status.OPTIMAL assignment initial_tableau tableau.

(** Modelled from the spec: [assignment(model)] projects the raw assignment
    onto the caller's variables, by index, dropping the auxiliary columns. *)
Definition assignment (s : t) (model : Model.t) : list num :=
  take (length (Model.variables model)) (raw_assignment s).

(** Modelled from the spec: the objective value is the original model's
    objective expression evaluated at the returned assignment. *)
Definition objective_value (s : t) : num :=
  Expression.evaluate (Objective.expression (Model.objective (model s)))
                      (assignment s (model s)).
End Solution.

(** ** The solver's state and the monad of its methods *)

(** A [Dict[Variable, Constraint]] in insertion order.  The keys the solver
    inserts are freshly created variables, so insertion always appends. *)
Abbreviation Dict := (list (Var.t * Constraint.t)) (only parsing).

(** The attributes of a [Solver] instance; [None] is an attribute that has
    not been assigned yet. *)
Record Solver := mkSolver {
  _slacks : option Dict;
  _surpluses : option Dict;
  _artificial : option Dict
}.

Record World := mkWorld { self : Solver; arrays : list Matrix }.

Inductive Exn := IndexError | ValueError | AttributeError.

(** Outcome of running a method: a value and the new state, a raised
    exception, or a loop that used up its fuel. *)
Inductive Res (A : Type) :=
  | Ok (a : A) (w : World)
  | Raise (e : Exn)
  | Timeout.
Arguments Ok {A} a w.
Arguments Raise {A} e.
Arguments Timeout {A}.

Definition M (A : Type) : Type := World → Res A.

#[global] Instance M_ret : MRet M := λ A a w, Ok a w.
#[global] Instance M_bind : MBind M := λ A B f m w,
  match m w with
  | Ok a w' => f a w'
  | Raise e => Raise e
  | Timeout => Timeout
  end.

Definition raise {A} (e : Exn) : M A := λ _, Raise e.
Definition timeout {A} : M A := λ _, Timeout.

(** Run a partial operation, raising [e] when it fails. *)
Definition try {A} (e : Exn) (o : option A) : M A :=
  match o with Some a => mret a | None => raise e end.

Definition get_self : M Solver := λ w, Ok (self w) w.
Definition set_slacks (d : Dict) : M unit := λ w,
  Ok () (mkWorld (mkSolver (Some d) (_surpluses (self w)) (_artificial (self w)))
                 (arrays w)).
Definition set_surpluses (d : Dict) : M unit := λ w,
  Ok () (mkWorld (mkSolver (_slacks (self w)) (Some d) (_artificial (self w)))
                 (arrays w)).
Definition set_artificial (d : Dict) : M unit := λ w,
  Ok () (mkWorld (mkSolver (_slacks (self w)) (_surpluses (self w)) (Some d))
                 (arrays w)).

(** Allocation of a new array, and reading and overwriting the content of an
    existing one. *)
Definition new_array (a : Matrix) : M loc := λ w,
  Ok (length (arrays w)) (mkWorld (self w) (arrays w ++ [a])).
Definition load (l : loc) : M Matrix := λ w,
  match arrays w !! l with
  | Some a => Ok a w
  | None => Raise AttributeError
  end.
Definition store (l : loc) (a : Matrix) : M unit := λ w,
  Ok () (mkWorld (self w) (<[l := a]> (arrays w))).

(** [deepcopy(tableau)]: a new tableau object with an array of its own. *)
Definition deepcopy_tableau (t : Tableau.t) : M Tableau.t :=
  a ← load (Tableau.table t);
  l ← new_array a;
  mret (Tableau.mk (Model.deepcopy (Tableau.model t)) l).

(** ** The solver *)

Module Solver.
Section solver.
Context `{ops : TableauOps}.

Definition _change_objective_to_max (model : Model.t) : Model.t :=
  if decide (Objective.type (Model.objective model) = ObjectiveType.MIN)
  then Model.with_objective model (Objective.invert (Model.objective model))
  else model.

Definition _change_constraints_bounds_to_nonnegative (model : Model.t) : Model.t :=
  Model.with_constraints model
    ((λ constraint,
        if ltb (Constraint.bound constraint) 0%Qc
        then Constraint.invert constraint
        else constraint) <$> Model.constraints model).

(** The loop of [_add_slack_variables] over the constraints that are still
    to be visited: [model] is the model as mutated so far, the result is
    the model after the loop, the visited constraints as the loop left
    them and the dictionary entries added. *)
Fixpoint add_slack_loop (model : Model.t) (todo : list Constraint.t)
    : Model.t * list Constraint.t * Dict :=
  match todo with
  | [] => (model, [], [])
  | constraint :: rest =>
      if decide (Constraint.type constraint = ConstraintType.LE) then
        let '(slack_var, model) :=
          Model.create_variable model ("s" +:+ pretty (Constraint.index constraint)) in
        let constraint :=
          Constraint.with_expression constraint
            (Expression.add (Constraint.expression constraint)
                            (Expression.var slack_var)) in
        let constraint := Constraint.with_type constraint ConstraintType.EQ in
        let '(model, done, slacks) := add_slack_loop model rest in
        (model, constraint :: done, (slack_var, constraint) :: slacks)
      else
        let '(model, done, slacks) := add_slack_loop model rest in
        (model, constraint :: done, slacks)
  end.

Definition _add_slack_variables (model : Model.t) : Model.t * Dict :=
  let '(model, constraints, slacks) :=
    add_slack_loop model (Model.constraints model) in
  (Model.with_constraints model constraints, slacks).

Fixpoint add_surplus_loop (model : Model.t) (todo : list Constraint.t)
    : Model.t * list Constraint.t * Dict :=
  match todo with
  | [] => (model, [], [])
  | constraint :: rest =>
      if decide (Constraint.type constraint = ConstraintType.GE) then
        let '(surplus_var, model) :=
          Model.create_variable model ("s" +:+ pretty (Constraint.index constraint)) in
        let constraint :=
          Constraint.with_expression constraint
            (Expression.sub (Constraint.expression constraint)
                            (Expression.var surplus_var)) in
        let constraint := Constraint.with_type constraint ConstraintType.EQ in
        let '(model, done, surpluses) := add_surplus_loop model rest in
        (model, constraint :: done, (surplus_var, constraint) :: surpluses)
      else
        let '(model, done, surpluses) := add_surplus_loop model rest in
        (model, constraint :: done, surpluses)
  end.

Definition _add_surplus_variables (model : Model.t) : Model.t * Dict :=
  let '(model, constraints, surpluses) :=
    add_surplus_loop model (Model.constraints model) in
  (Model.with_constraints model constraints, surpluses).

Definition _augment_model (original_model : Model.t) : M Model.t :=
  let model := Model.deepcopy original_model in
  let model := Model.simplify model in
  let model := _change_objective_to_max model in
  let model := _change_constraints_bounds_to_nonnegative model in
  let '(model, slacks) := _add_slack_variables model in
  set_slacks slacks;;
  let '(model, surpluses) := _add_surplus_variables model in
  set_surpluses surpluses;;
  mret model.

(** The loop of [_add_artificial_variables]; besides the visited
    constraint it rebinds the expression of the model's objective. *)
Fixpoint add_artificial_loop (with_slack : list nat) (model : Model.t)
    (todo : list Constraint.t) : Model.t * list Constraint.t * Dict :=
  match todo with
  | [] => (model, [], [])
  | constraint :: rest =>
      if decide (Constraint.index constraint ∉ with_slack) then
        let '(artificial_var, model) :=
          Model.create_variable model ("R" +:+ pretty (Constraint.index constraint)) in
        let constraint :=
          Constraint.with_expression constraint
            (Expression.add (Constraint.expression constraint)
                            (Expression.var artificial_var)) in
        let model :=
          Model.with_objective model
            (Objective.with_expression (Model.objective model)
               (Expression.add (Objective.expression (Model.objective model))
                               (Expression.var artificial_var))) in
        let '(model, done, artificial_variables) :=
          add_artificial_loop with_slack model rest in
        (model, constraint :: done, (artificial_var, constraint) :: artificial_variables)
      else
        let '(model, done, artificial_variables) :=
          add_artificial_loop with_slack model rest in
        (model, constraint :: done, artificial_variables)
  end.

Definition _add_artificial_variables (model : Model.t) : M (Model.t * Dict) :=
  self ← get_self;
  slacks ← try AttributeError (_slacks self);
  let with_slack := (λ p, Constraint.index p.2) <$> slacks in
  let '(model, constraints, artificial_variables) :=
    add_artificial_loop with_slack model (Model.constraints model) in
  mret (Model.with_constraints model constraints, artificial_variables).

Definition _create_presolve_model (augmented_model : Model.t) : M Model.t :=
  let presolve_model := Model.deepcopy augmented_model in
  '(presolve_model, artificial) ← _add_artificial_variables presolve_model;
  set_artificial artificial;;
  mret presolve_model.

(** The array [_basic_initial_tableau] builds. *)
Definition basic_table (model : Model.t) : Matrix :=
  let objective_row :=
    coefficients (Expression.scale (-1)%Qc
                    (Objective.expression (Model.objective model))) model
    ++ [0%Qc] in
  objective_row ::
    ((λ c, coefficients (Constraint.expression c) model ++ [Constraint.bound c])
       <$> Model.constraints model).

Definition _basic_initial_tableau (model : Model.t) : M Tableau.t :=
  table ← new_array (basic_table model);
  mret (Tableau.mk model table).

(** Step 2 of [_presolve_initial_tableau]:
    [for variable in self._artificial: table[0, variable.index] = 1]. *)
Fixpoint set_artificial_ones (table : Matrix) (artificial : Dict) : option Matrix :=
  match artificial with
  | [] => Some table
  | (variable, _) :: rest =>
      table ← np.set_item table 0 (Var.index variable) 1%Qc;
      set_artificial_ones table rest
  end.

(** Step 3: [for c in self._artificial.values(): table[0] -= table[c.index + 1]]. *)
Fixpoint subtract_artificial_rows (table : Matrix) (artificial : Dict) : option Matrix :=
  match artificial with
  | [] => Some table
  | (_, constraint_with_artificial) :: rest =>
      row ← table !! (Constraint.index constraint_with_artificial + 1);
      table ← np.isub_row table 0 row;
      subtract_artificial_rows table rest
  end.

Definition _presolve_initial_tableau (model : Model.t) : M Tableau.t :=
  tableau ← _basic_initial_tableau model;
  let table := Tableau.table tableau in
  a ← load table;
  a ← try IndexError (np.fill_row a 0 0%Qc);
  self ← get_self;
  artificial ← try AttributeError (_artificial self);
  a ← try IndexError (set_artificial_ones a artificial);
  a ← try IndexError (subtract_artificial_rows a artificial);
  store table a;;
  mret (Tableau.mk model table).

(** The loop of [_artifical_variables_are_positive]. *)
Fixpoint any_positive (assignment : list num) (artificial : Dict) : option bool :=
  match artificial with
  | [] => Some false
  | (var, _) :: rest =>
      x ← assignment !! Var.index var;
      if ltb 0%Qc x then Some true else any_positive assignment rest
  end.

Definition _artifical_variables_are_positive (tableau : Tableau.t) : M bool :=
  a ← load (Tableau.table tableau);
  let assignment := extract_assignment (Tableau.model tableau) a in
  self ← get_self;
  artificial ← try AttributeError (_artificial self);
  try IndexError (any_positive assignment artificial).

(** Step 3 of [_restore_initial_tableau]: the loop over the enumerated
    columns of the constraint rows, [i] being the number of the first
    column still to be visited. *)
Fixpoint restore_loop (new_table : Matrix) (i : nat) (columns : Matrix)
    : option Matrix :=
  match columns with
  | [] => Some new_table
  | col :: rest =>
      if eqb (np.amax col) 1%Qc && eqb (np.amin col) 0%Qc then
        k ← np.item new_table 0 i;
        row ← new_table !! (np.argmax col + 1);
        new_table ← np.isub_row new_table 0 (np.scale_row k row);
        restore_loop new_table (S i) rest
      else restore_loop new_table (S i) rest
  end.

Definition _restore_initial_tableau (tableau : Tableau.t) (model : Model.t)
    : M Tableau.t :=
  self ← get_self;
  artificial ← try AttributeError (_artificial self);
  let artificial_var_columns := (λ p, Var.index p.1) <$> artificial in
  a ← load (Tableau.table tableau);
  new_table ← try IndexError (np.delete a artificial_var_columns);
  new_table ← try ValueError
    (np.set_row new_table 0
       (coefficients (Expression.scale (-1)%Qc
                        (Objective.expression (Model.objective model))) model
        ++ [0%Qc]));
  columns ← try ValueError (np.column_stack (drop 1 new_table));
  new_table ← try IndexError (restore_loop new_table 0 columns);
  l ← new_array new_table;
  mret (Tableau.mk (Tableau.model tableau) l).

(** The [while] loop of [_optimize]; [fuel] bounds the number of passes
    through the loop head. *)
Fixpoint _optimize (fuel : nat) (tableau : Tableau.t) : M bool :=
  match fuel with
  | O => timeout
  | S fuel =>
      a ← load (Tableau.table tableau);
      let model := Tableau.model tableau in
      if is_optimal model a then mret true
      else
        let pivot_col := choose_entering_variable model a in
        if is_unbounded model a pivot_col then mret false
        else
          let pivot_row := choose_leaving_variable model a pivot_col in
          store (Tableau.table tableau) (pivot model a pivot_row pivot_col);;
          _optimize fuel tableau
  end.

Definition _presolve (fuel : nat) (model : Model.t) : M (Tableau.t * bool) :=
  presolve_model ← _create_presolve_model model;
  tableau ← _presolve_initial_tableau presolve_model;
  _optimize fuel tableau;;
  infeasible ← _artifical_variables_are_positive tableau;
  if (infeasible : bool) then mret (tableau, false)
  else
    tableau ← _restore_initial_tableau tableau model;
    mret (tableau, true).

Definition _create_solution (assignment : list num) (model : Model.t)
    (initial_tableau tableau : Tableau.t) : Solution.t :=
  Solution.with_assignment model assignment initial_tableau tableau.

(** Lines 45 to 50 of [solve]: what follows once the starting tableau of
    the second phase is at hand. *)
Definition solve_from (fuel : nat) (model : Model.t) (tableau : Tableau.t)
    : M Solution.t :=
  initial_tableau ← deepcopy_tableau tableau;
  optimal ← _optimize fuel tableau;
  if negb optimal then mret (Solution.unbounded model initial_tableau tableau)
  else
    a ← load (Tableau.table tableau);
    let assignment := extract_assignment (Tableau.model tableau) a in
    mret (_create_solution assignment model initial_tableau tableau).

(** The test of line 38, on the state [_augment_model] leaves. *)
Definition needs_presolve (slacks : Dict) (normal_model : Model.t) : bool :=
  bool_decide (length slacks < length (Model.constraints normal_model)).

(** The two branches of [solve]: through the presolve (lines 39 to 41),
    or straight from the slack-only tableau (line 43). *)
Definition presolve_path (fuel : nat) (model normal_model : Model.t)
    : M Solution.t :=
  '(tableau, success) ← _presolve fuel normal_model;
  if negb success then mret (Solution.infeasible model tableau tableau)
  else solve_from fuel model tableau.

Definition slack_only_path (fuel : nat) (model normal_model : Model.t)
    : M Solution.t :=
  tableau ← _basic_initial_tableau normal_model;
  solve_from fuel model tableau.

Definition solve (fuel : nat) (model : Model.t) : M Solution.t :=
  normal_model ← _augment_model model;
  self ← get_self;
  slacks ← try AttributeError (_slacks self);
  if needs_presolve slacks normal_model
  then presolve_path fuel model normal_model
  else slack_only_path fuel model normal_model.

End solver.
End Solver.

(** ** The tableau of the design document *)

Module SpecTableau.
Section tolerance.
(** The numeric tolerance of every comparison against 0. *)
Variable eps : num.

Definition entry (a : Matrix) (i j : nat) : num :=
  default 0%Qc (np.item a i j).

Definition is_zero (x : num) : bool := leb (- eps)%Qc x && leb x eps.
Definition is_one (x : num) : bool := is_zero (x - 1)%Qc.

(** The objective row without the right-hand side. *)
Definition costs (a : Matrix) : list num :=
  take (np.ncols a - 1) (default [] (head a)).

(** Modelled from the spec: [is_optimal] is missing.  True iff every entry
    of the objective row, right-hand side excluded, is >= 0 within the
    tolerance. *)
Definition is_optimal (a : Matrix) : bool :=
  forallb (λ x, leb (- eps)%Qc x) (costs a).

(** Position of the first minimum of a list. *)
Definition argmin (l : list num) : nat := np.first_index (np.amin l) l.

(** Modelled from the spec: [choose_entering_variable] is missing.  The
    column of the most negative entry of the objective row, the lowest
    such column on ties. *)
Definition choose_entering_variable (a : Matrix) : nat := argmin (costs a).

(** Modelled from the spec: [is_unbounded] is missing.  True iff every
    entry of the column in the constraint rows is <= 0 within the
    tolerance. *)
Definition is_unbounded (a : Matrix) (col : nat) : bool :=
  forallb (λ row, leb (default 0%Qc (row !! col)) eps) (drop 1 a).

(** The ratio test over the constraint rows still to be visited; [i] is
    the number of the first of them and [best] the best row so far with
    its ratio.  A later row replaces the best one only when its ratio is
    strictly smaller. *)
Fixpoint min_ratio (col i : nat) (rows : Matrix) (best : option (nat * num))
    : option (nat * num) :=
  match rows with
  | [] => best
  | row :: rest =>
      let x := default 0%Qc (row !! col) in
      let rhs := default 0%Qc (last row) in
      let best :=
        if ltb eps x then
          match best with
          | Some (_, r) => if ltb (rhs / x)%Qc r then Some (i, (rhs / x)%Qc) else best
          | None => Some (i, (rhs / x)%Qc)
          end
        else best in
      min_ratio col (S i) rest best
  end.

(** Modelled from the spec: [choose_leaving_variable] is missing.  Among
    the constraint rows with a strictly positive entry in the column, the
    row of the least ratio of right-hand side to entry, the lowest such
    row on ties.  Rows are numbered as in the matrix, from 1. *)
Definition choose_leaving_variable (a : Matrix) (col : nat) : nat :=
  match min_ratio col 1 (drop 1 a) None with
  | Some (i, _) => i
  | None => 0
  end.

(** Modelled from the spec: [pivot] is missing.  The pivot row is divided
    by the pivot entry and the right multiple of it is subtracted from
    every other row, the objective row included. *)
Definition pivot (a : Matrix) (row col : nat) : Matrix :=
  match a !! row with
  | None => a
  | Some r =>
      let pivot_row := (λ x, x / default 0%Qc (r !! col))%Qc <$> r in
      imap (λ i other,
              if decide (i = row) then pivot_row
              else np.sub_row other
                     (np.scale_row (default 0%Qc (other !! col)) pivot_row))
           a
  end.

(** A column is a unit basic column when all its entries are zero except a
    single one, which is 1 and stands in a constraint row. *)
Definition basic_row (a : Matrix) (j : nat) : option nat :=
  let col := (λ row, default 0%Qc (row !! j)) <$> a in
  match filter (λ p, negb (is_zero p.2)) (imap pair col) with
  | [(i, x)] => if is_one x && bool_decide (1 ≤ i) then Some i else None
  | _ => None
  end.

(** Modelled from the spec: [extract_assignment] is missing.  For each
    column, the right-hand side of its row if the column is a unit basic
    column, else 0. *)
Definition extract_assignment (a : Matrix) : list num :=
  (λ j, match basic_row a j with
        | Some i => entry a i (np.ncols a - 1)
        | None => 0%Qc
        end) <$> seq 0 (np.ncols a - 1).

End tolerance.

(** The tolerance the design document recommends. *)
Definition epsilon : num := Q2Qc (1 # 1000000000).
End SpecTableau.

(** The tableau of the design document as an implementation of the methods
    the solver calls; none of them reads the tableau's model. *)
Definition spec_tableau (eps : num) : TableauOps := {|
  is_optimal := λ _, SpecTableau.is_optimal eps;
  choose_entering_variable := λ _, SpecTableau.choose_entering_variable;
  is_unbounded := λ _, SpecTableau.is_unbounded eps;
  choose_leaving_variable := λ _, SpecTableau.choose_leaving_variable eps;
  pivot := λ _, SpecTableau.pivot;
  extract_assignment := λ _, SpecTableau.extract_assignment eps
|}.

(** ** The example models *)

(** A solver that has just been constructed: no attribute assigned, and no
    array allocated yet. *)
Definition fresh : World := mkWorld (mkSolver None None None) [].

Definition empty_model (name : string) : Model.t :=
  Model.mk name [] [] (Objective.mk (Expression.mk ∅ 0%Qc) ObjectiveType.MAX).

Module example_04.
(** [create_model] of [example_04_solvable_artificial_vars.py]. *)
Definition create_model : Model.t :=
  let model := empty_model "example_04_solvable_artificial" in
  let '(x1, model) := Model.create_variable model "x1" in
  let '(x2, model) := Model.create_variable model "x2" in
  let model :=
    Model.add_constraint model
      (Expression.add (Expression.var x1)
                      (Expression.scale (num_of_Z 2) (Expression.var x2)))
      ConstraintType.LE (num_of_Z 20) in
  let model :=
    Model.add_constraint model
      (Expression.add (Expression.var x1) (Expression.var x2))
      ConstraintType.EQ (num_of_Z 10) in
  Model.maximize model
    (Expression.add (Expression.scale (num_of_Z 2) (Expression.var x1))
                    (Expression.var x2)).
End example_04.

Module example_05.
(** [create_model] of [example_05_infeasible.py]. *)
Definition create_model : Model.t :=
  let model := empty_model "example_05_infeasible" in
  let '(x1, model) := Model.create_variable model "x1" in
  let '(x2, model) := Model.create_variable model "x2" in
  let '(x3, model) := Model.create_variable model "x3" in
  let model :=
    Model.add_constraint model
      (Expression.add
         (Expression.sub (Expression.var x1)
                         (Expression.scale (num_of_Z 3) (Expression.var x2)))
         (Expression.var x3))
      ConstraintType.GE (num_of_Z 10) in
  let model :=
    Model.add_constraint model
      (Expression.sub
         (Expression.add (Expression.var x1)
                         (Expression.scale (num_of_Z 2) (Expression.var x2)))
         (Expression.var x3))
      ConstraintType.LE (num_of_Z (-10)) in
  Model.maximize model
    (Expression.add (Expression.scale (num_of_Z 5) (Expression.var x1))
                    (Expression.scale (num_of_Z 8) (Expression.var x2))).
End example_05.

(** ** The common shape of the three auxiliary-variable loops *)

(** [_add_slack_variables], [_add_surplus_variables] and
    [_add_artificial_variables] run the same loop: a constraint picked by
    [sel] gets a newly created variable named [prefix] followed by the
    constraint's index, [upd_c] rebinds the constraint's fields and [upd_o]
    the objective. *)
Fixpoint aux_loop (sel : Constraint.t → bool) (prefix : string)
    (upd_c : Constraint.t → Var.t → Constraint.t)
    (upd_o : Objective.t → Var.t → Objective.t)
    (model : Model.t) (todo : list Constraint.t)
    : Model.t * list Constraint.t * Dict :=
  match todo with
  | [] => (model, [], [])
  | c :: rest =>
      if sel c then
        let '(v, model) :=
          Model.create_variable model (prefix +:+ pretty (Constraint.index c)) in
        let c := upd_c c v in
        let model := Model.with_objective model (upd_o (Model.objective model) v) in
        let '(model, done, d) := aux_loop sel prefix upd_c upd_o model rest in
        (model, c :: done, (v, c) :: d)
      else
        let '(model, done, d) := aux_loop sel prefix upd_c upd_o model rest in
        (model, c :: done, d)
  end.

(** The variable created for a picked constraint [c] when [n] variables
    existed before the loop and [j] picked constraints precede [c]. *)
Definition aux_var (prefix : string) (n j : nat) (c : Constraint.t) : Var.t :=
  Var.mk (prefix +:+ pretty (Constraint.index c)) (n + j).

(** Number of constraints picked by [sel] among the first [k]. *)
Definition picked_before (sel : Constraint.t → bool) (cs : list Constraint.t)
    (k : nat) : nat :=
  length (filter (λ c, sel c) (take k cs)).

Definition is_LE (c : Constraint.t) : bool :=
  bool_decide (Constraint.type c = ConstraintType.LE).
Definition is_GE (c : Constraint.t) : bool :=
  bool_decide (Constraint.type c = ConstraintType.GE).
Definition lacks_slack (with_slack : list nat) (c : Constraint.t) : bool :=
  bool_decide (Constraint.index c ∉ with_slack).

(** What the three loops do to a picked constraint. *)
Definition add_slack (c : Constraint.t) (v : Var.t) : Constraint.t :=
  Constraint.mk (Expression.add (Constraint.expression c) (Expression.var v))
                ConstraintType.EQ (Constraint.bound c) (Constraint.index c).
Definition add_surplus (c : Constraint.t) (v : Var.t) : Constraint.t :=
  Constraint.mk (Expression.sub (Constraint.expression c) (Expression.var v))
                ConstraintType.EQ (Constraint.bound c) (Constraint.index c).
Definition add_artificial (c : Constraint.t) (v : Var.t) : Constraint.t :=
  Constraint.mk (Expression.add (Constraint.expression c) (Expression.var v))
                (Constraint.type c) (Constraint.bound c) (Constraint.index c).
Definition add_to_objective (o : Objective.t) (v : Var.t) : Objective.t :=
  Objective.mk (Expression.add (Objective.expression o) (Expression.var v))
               (Objective.type o).

(** One pass of the common loop over a picked constraint, on the model. *)
Definition step_model (prefix : string)
    (upd_o : Objective.t → Var.t → Objective.t)
    (model : Model.t) (c : Constraint.t) : Model.t :=
  let v := aux_var prefix (length (Model.variables model)) 0 c in
  Model.with_objective
    (Model.with_variables model (Model.variables model ++ [v]))
    (upd_o (Model.objective model) v).

Definition keep_objective (o : Objective.t) (_ : Var.t) : Objective.t := o.

(** ** Descriptions used in the statements *)

(** A constraint after the bounds have been made non-negative. *)
Definition normalize_bound (c : Constraint.t) : Constraint.t :=
  if ltb (Constraint.bound c) 0%Qc then Constraint.invert c else c.

(** The constraints of a model after [simplify] and the inversion of those
    with a negative bound, that is, as the slack loop finds them. *)
Definition normalized_constraints (model : Model.t) : list Constraint.t :=
  normalize_bound <$> Model.constraints (Model.simplify model).

(** A constraint of the simplified model that ends up without a slack
    variable: an equality, a [>=] whose bound is not negative, or a [<=]
    whose bound is negative (it is inverted into a [>=]). *)
Definition ends_without_slack (c : Constraint.t) : bool :=
  match Constraint.type c with
  | ConstraintType.EQ => true
  | ConstraintType.GE => negb (ltb (Constraint.bound c) 0%Qc)
  | ConstraintType.LE => ltb (Constraint.bound c) 0%Qc
  end.

(** The stages of [_augment_model]: the model on which the slack loop
    starts, the outcome of the slack loop, the model on which the surplus
    loop starts, the outcome of the surplus loop and the model returned. *)
Definition before_slacks (model : Model.t) : Model.t :=
  Solver._change_constraints_bounds_to_nonnegative
    (Solver._change_objective_to_max (Model.simplify (Model.deepcopy model))).
Definition slack_pass (model : Model.t) : Model.t * list Constraint.t * Dict :=
  aux_loop is_LE "s" add_slack keep_objective (before_slacks model)
           (normalized_constraints model).
Definition after_slacks (model : Model.t) : Model.t :=
  Model.with_constraints (slack_pass model).1.1 (slack_pass model).1.2.
Definition surplus_pass (model : Model.t) : Model.t * list Constraint.t * Dict :=
  aux_loop is_GE "s" add_surplus keep_objective (after_slacks model)
           (slack_pass model).1.2.
Definition augmented (model : Model.t) : Model.t :=
  Model.with_constraints (surplus_pass model).1.1 (surplus_pass model).1.2.

(** The loop of [_add_artificial_variables] on an augmented model, given the
    constraint indices found in [self._slacks]. *)
Definition artificial_pass (with_slack : list nat) (model : Model.t)
    : Model.t * list Constraint.t * Dict :=
  aux_loop (lacks_slack with_slack) "R" add_artificial add_to_objective
           model (Model.constraints model).

(** The constraint indices recorded in a dictionary. *)
Definition constraint_indices (d : Dict) : list nat :=
  (λ p, Constraint.index p.2) <$> d.

(** A constraint has an auxiliary variable when the solver recorded a slack
    or a surplus variable for it. *)
Definition has_auxiliary (s : Solver) (c : Constraint.t) : bool :=
  bool_decide (Constraint.index c ∈ constraint_indices (default [] (_slacks s))
               ∨ Constraint.index c ∈ constraint_indices (default [] (_surpluses s))).

(** The row of a constraint in the standard tableau layout of a model. *)
Definition constraint_row (model : Model.t) (c : Constraint.t) : list num :=
  coefficients (Constraint.expression c) model ++ [Constraint.bound c].

Definition sum_list (l : list num) : num := foldr Qcplus 0%Qc l.

(** Entry [j] of a row, 0 outside the row. *)
Definition at_col (row : list num) (j : nat) : num := default 0%Qc (row !! j).

(** The constraints of a model carry their position as index. *)
Definition indexed_by_position (cs : list Constraint.t) : Prop :=
  Constraint.index <$> cs = seq 0 (length cs).

(** No constraint of the model mentions a variable the model does not have. *)
Definition constraints_in_scope (model : Model.t) : Prop :=
  Forall (λ c, map_Forall (λ i _, i < length (Model.variables model))
                          (Expression.factors (Constraint.expression c)))
         (Model.constraints model).

(** The constraint rows of the standard tableau layout. *)
Definition constraint_rows (model : Model.t) : Matrix :=
  constraint_row model <$> Model.constraints model.

(** The three steps of [_presolve_initial_tableau] on the objective row. *)
Definition zeroed_row (model : Model.t) : list num :=
  replicate (S (length (Model.variables model))) 0%Qc.
Definition with_artificial_ones (row : list num) (artificial : Dict) : list num :=
  foldl (λ r p, <[Var.index p.1 := 1%Qc]> r) row artificial.
Definition minus_artificial_rows (model : Model.t) (row : list num)
    (artificial : Dict) : list num :=
  foldl np.sub_row row
    ((λ p, default [] (constraint_rows model !! Constraint.index p.2)) <$> artificial).
Definition phase_one_objective_row (model : Model.t) (artificial : Dict) : list num :=
  minus_artificial_rows model
    (with_artificial_ones (zeroed_row model) artificial) artificial.

(** ** The two phases *)

(** The first half of [_presolve] (lines 67 to 70): the presolve model, its
    tableau and the optimization loop on it, whose result is dropped. *)
Definition phase_one `{ops : TableauOps} (fuel : nat) (model : Model.t)
    : M Tableau.t :=
  presolve_model ← Solver._create_presolve_model model;
  tableau ← Solver._presolve_initial_tableau presolve_model;
  Solver._optimize fuel tableau;;
  mret tableau.

(** The second half of [_presolve] (lines 72 to 76). *)
Definition presolve_finish `{ops : TableauOps} (model : Model.t)
    (tableau : Tableau.t) : M (Tableau.t * bool) :=
  infeasible ← Solver._artifical_variables_are_positive tableau;
  if (infeasible : bool) then mret (tableau, false)
  else
    tableau ← Solver._restore_initial_tableau tableau model;
    mret (tableau, true).

(** [pivots model k a a']: from the array content [a] the loop of
    [_optimize] passes [k] times through its body, each time finding the
    tableau neither optimal nor unbounded in the entering column and
    pivoting, and the content is then [a']. *)
Inductive pivots `{ops : TableauOps} (model : Model.t)
    : nat → Matrix → Matrix → Prop :=
  | pivots_O a : pivots model 0 a a
  | pivots_S k a a' :
      is_optimal model a = false →
      is_unbounded model a (choose_entering_variable model a) = false →
      pivots model k
        (pivot model a
           (choose_leaving_variable model a (choose_entering_variable model a))
           (choose_entering_variable model a))
        a' →
      pivots model (S k) a a'.

(** The loop selects an entering column in which no positive entry is
    available for the ratio test. *)
Definition stuck_unbounded `{ops : TableauOps} (model : Model.t) (a : Matrix)
    : Prop :=
  is_optimal model a = false
  ∧ is_unbounded model a (choose_entering_variable model a) = true.

(** The world with the content of one array replaced. *)
Definition with_array (w : World) (l : loc) (a : Matrix) : World :=
  mkWorld (self w) (<[l := a]> (arrays w)).

(** [solve] reaches line 45 with the tableau [tableau] in the world [w']:
    either the slack-only tableau, or the tableau restored by a successful
    presolve. *)
Definition starts_phase_two `{ops : TableauOps} (fuel : nat) (model : Model.t)
    (w : World) (tableau : Tableau.t) (w' : World) : Prop :=
  ∃ normal_model w0 slacks,
    Solver._augment_model model w = Ok normal_model w0 ∧
    _slacks (self w0) = Some slacks ∧
    if Solver.needs_presolve slacks normal_model
    then Solver._presolve fuel normal_model w0 = Ok (tableau, true) w'
    else Solver._basic_initial_tableau normal_model w0 = Ok tableau w'.

(** The tableau object [deepcopy(tableau)] makes in the world [w]: the same
    model and a new array. *)
Definition copy_of (t : Tableau.t) (w : World) : Tableau.t :=
  Tableau.mk (Tableau.model t) (length (arrays w)).

(** Some artificial variable is strictly positive in the assignment. *)
Definition some_artificial_positive (assignment : list num) (artificial : Dict)
    : Prop :=
  Exists (λ p, (0 < at_col assignment (Var.index p.1))%Qc) artificial.

(** Some artificial variable exceeds the tolerance in the assignment. *)
Definition some_artificial_exceeds (eps : num) (assignment : list num)
    (artificial : Dict) : Prop :=
  Exists (λ p, (eps < at_col assignment (Var.index p.1))%Qc) artificial.

(** ** Further models *)

Module models.
Definition x1 : Var.t := Var.mk "x1" 0.
Definition x2 : Var.t := Var.mk "x2" 1.
Definition x3 : Var.t := Var.mk "x3" 2.

Definition times (k : Z) (v : Var.t) : Expression.t :=
  Expression.scale (num_of_Z k) (Expression.var v).

(** A model with [count] variables and no constraint yet. *)
Fixpoint with_variables (model : Model.t) (names : list string) : Model.t :=
  match names with
  | [] => model
  | name :: names => with_variables (Model.create_variable model name).2 names
  end.

(** maximize x1 subject to x1 <= -1 *)
Definition negative_bound : Model.t :=
  let model := with_variables (empty_model "negative_bound") ["x1"] in
  let model :=
    Model.add_constraint model (Expression.var x1) ConstraintType.LE (num_of_Z (-1)) in
  Model.maximize model (Expression.var x1).

(** maximize x1 subject to x1 >= -5 *)
Definition negative_lower_bound : Model.t :=
  let model := with_variables (empty_model "negative_lower_bound") ["x1"] in
  let model :=
    Model.add_constraint model (Expression.var x1) ConstraintType.GE (num_of_Z (-5)) in
  Model.maximize model (Expression.var x1).

(** maximize x1 subject to x1 <= 1, x1 = 2 *)
Definition infeasible : Model.t :=
  let model := with_variables (empty_model "infeasible") ["x1"] in
  let model :=
    Model.add_constraint model (Expression.var x1) ConstraintType.LE (num_of_Z 1) in
  let model :=
    Model.add_constraint model (Expression.var x1) ConstraintType.EQ (num_of_Z 2) in
  Model.maximize model (Expression.var x1).

(** maximize x1 subject to x1 + x2 = 1, x1 + x2 = 1 + 5e-10 *)
Definition nearly_feasible : Model.t :=
  let model := with_variables (empty_model "nearly_feasible") ["x1"; "x2"] in
  let model :=
    Model.add_constraint model
      (Expression.add (Expression.var x1) (Expression.var x2))
      ConstraintType.EQ (num_of_Z 1) in
  let model :=
    Model.add_constraint model
      (Expression.add (Expression.var x1) (Expression.var x2))
      ConstraintType.EQ (Q2Qc (2000000001 # 2000000000)) in
  Model.maximize model (Expression.var x1).

(** maximize x1 subject to 1e-9 x1 = 1, 1e-9 x1 = 1 *)
Definition tiny_coefficients : Model.t :=
  let model := with_variables (empty_model "tiny_coefficients") ["x1"] in
  let model :=
    Model.add_constraint model
      (Expression.scale (Q2Qc (1 # 1000000000)) (Expression.var x1))
      ConstraintType.EQ (num_of_Z 1) in
  let model :=
    Model.add_constraint model
      (Expression.scale (Q2Qc (1 # 1000000000)) (Expression.var x1))
      ConstraintType.EQ (num_of_Z 1) in
  Model.maximize model (Expression.var x1).

(** maximize x1 subject to x1 - x2 <= 1 *)
Definition unbounded : Model.t :=
  let model := with_variables (empty_model "unbounded") ["x1"; "x2"] in
  let model :=
    Model.add_constraint model
      (Expression.sub (Expression.var x1) (Expression.var x2))
      ConstraintType.LE (num_of_Z 1) in
  Model.maximize model (Expression.var x1).

(** maximize x1 + 3 x2 subject to x1 + x2 = 2, x2 <= 5, 2 x3 <= 1 *)
Definition mistaken_unit_column : Model.t :=
  let model := with_variables (empty_model "mistaken_unit_column") ["x1"; "x2"; "x3"] in
  let model :=
    Model.add_constraint model
      (Expression.add (Expression.var x1) (Expression.var x2))
      ConstraintType.EQ (num_of_Z 2) in
  let model :=
    Model.add_constraint model (Expression.var x2) ConstraintType.LE (num_of_Z 5) in
  let model :=
    Model.add_constraint model (times 2 x3) ConstraintType.LE (num_of_Z 1) in
  Model.maximize model (Expression.add (Expression.var x1) (times 3 x2)).

(** maximize x1 subject to x1 + x2 = 2, 2 x1 + 2 x2 = 4 *)
Definition redundant : Model.t :=
  let model := with_variables (empty_model "redundant") ["x1"; "x2"] in
  let model :=
    Model.add_constraint model
      (Expression.add (Expression.var x1) (Expression.var x2))
      ConstraintType.EQ (num_of_Z 2) in
  let model :=
    Model.add_constraint model
      (Expression.add (times 2 x1) (times 2 x2))
      ConstraintType.EQ (num_of_Z 4) in
  Model.maximize model (Expression.var x1).
End models.

(** The solver with the tableau of the design document at the recommended
    tolerance. *)
Definition reference_ops : TableauOps := spec_tableau SpecTableau.epsilon.

(** ** The restoration step as the design document describes it *)

(** A basic unit column: all zero except a single 1. *)
Definition is_unit_column (col : list num) : bool :=
  bool_decide (filter (λ x, x ≠ 0%Qc) col = [1%Qc]).

(** For every column that is a basic unit column, the multiple of the row of
    its 1 that cancels the column's entry is subtracted from the objective
    row. *)
Fixpoint described_loop (table : Matrix) (i : nat) (columns : Matrix)
    : option Matrix :=
  match columns with
  | [] => Some table
  | col :: rest =>
      if is_unit_column col then
        k ← np.item table 0 i;
        row ← table !! (np.first_index 1%Qc col + 1);
        table ← np.isub_row table 0 (np.scale_row k row);
        described_loop table (S i) rest
      else described_loop table (S i) rest
  end.

(** Delete the artificial columns, overwrite the objective row, then
    eliminate over the variable columns that are basic unit columns. *)
Definition restore_as_described (a : Matrix) (artificial_var_columns : list nat)
    (objective_row : list num) : option Matrix :=
  new_table ← np.delete a artificial_var_columns;
  new_table ← np.set_row new_table 0 objective_row;
  columns ← np.column_stack (drop 1 new_table);
  described_loop new_table 0 (take (np.ncols new_table - 1) columns).

(** The objective row [_restore_initial_tableau] writes in its step 2. *)
Definition restored_objective (model : Model.t) : list num :=
  coefficients (Expression.scale (-1)%Qc
                  (Objective.expression (Model.objective model))) model
  ++ [0%Qc].

(** The presolve model made from an augmented model and the artificial
    variables recorded for it, given the dictionary of slack variables. *)
Definition presolve_of (slacks : Dict) (augmented_model : Model.t) : Model.t :=
  Model.with_constraints
    (artificial_pass (constraint_indices slacks) augmented_model).1.1
    (artificial_pass (constraint_indices slacks) augmented_model).1.2.
Definition artificial_of (slacks : Dict) (augmented_model : Model.t) : Dict :=
  (artificial_pass (constraint_indices slacks) augmented_model).2.

(** ** Model invariants *)

(** The variables of a model carry their position as index. *)
Definition variables_indexed (vs : list Var.t) : Prop :=
  Var.index <$> vs = seq 0 (length vs).

(** The objective mentions only variables the model has. *)
Definition objective_in_scope (model : Model.t) : Prop :=
  map_Forall (λ i _, i < length (Model.variables model))
             (Expression.factors (Objective.expression (Model.objective model))).

(** The invariants the solver relies on when it uses indices as rows and
    columns of a tableau. *)
Definition well_formed (model : Model.t) : Prop :=
  variables_indexed (Model.variables model)
  ∧ indexed_by_position (Model.constraints model)
  ∧ constraints_in_scope model
  ∧ objective_in_scope model.

(** The outcome of the loop of [_artifical_variables_are_positive] on a
    list of artificial variables: the first of them that is positive or
    outside the assignment decides. *)
Definition nonpositive_at (assignment : list num) (p : Var.t * Constraint.t) : Prop :=
  ∃ x, assignment !! Var.index p.1 = Some x ∧ (x ≤ 0)%Qc.
Definition positive_at (assignment : list num) (p : Var.t * Constraint.t) : Prop :=
  ∃ x, assignment !! Var.index p.1 = Some x ∧ (0 < x)%Qc.
Definition missing_at (assignment : list num) (p : Var.t * Constraint.t) : Prop :=
  assignment !! Var.index p.1 = None.

(** The test of step 3 of [_restore_initial_tableau] on a column. *)
Definition passes_unit_test (col : list num) : bool :=
  eqb (np.amax col) 1%Qc && eqb (np.amin col) 0%Qc.

(** Column [j] of a list of rows. *)
Definition column (rows : Matrix) (j : nat) : list num :=
  (λ row, default 0%Qc (row !! j)) <$> rows.

(** ** Outcomes up to the solver's attributes *)

(** Two runs end alike: with the same exception, or with the same value, the
    same arrays and the same dictionaries of slack and surplus variables. *)
Definition same_outcome {A} (r1 r2 : Res A) : Prop :=
  match r1, r2 with
  | Ok a1 w1, Ok a2 w2 =>
      a1 = a2 ∧ arrays w1 = arrays w2
      ∧ _slacks (self w1) = _slacks (self w2)
      ∧ _surpluses (self w1) = _surpluses (self w2)
  | Raise e1, Raise e2 => e1 = e2
  | Timeout, Timeout => True
  | _, _ => False
  end.

(** The outcome of a run with the solver's attributes replaced at the end. *)
Definition keep_self {A} (s : Solver) (r : Res A) : Res A :=
  match r with
  | Ok a w => Ok a (mkWorld s (arrays w))
  | Raise e => Raise e
  | Timeout => Timeout
  end.

(** The value of a row at a column vector: the sum of the products of the
    entries that face each other. *)
Definition dot (row y : list num) : num := sum_list (zip_with Qcmult row y).

(** ** Shapes and exceptions *)

(** An array of [rows] rows of [cols] entries each. *)
Definition rectangular (rows cols : nat) (a : Matrix) : Prop :=
  length a = rows ∧ Forall (λ r, length r = cols) a.

(** What the solver needs of a tableau to index its table safely: a pivot
    keeps the shape of the table, and the assignment extracted from a table
    has one value for every column but the last. *)
Definition keeps_shape (ops : TableauOps) : Prop :=
  (∀ model a row col rows cols,
     rectangular rows cols a → rectangular rows cols (pivot model a row col))
  ∧ (∀ model a rows cols,
       rectangular rows cols a → 0 < rows →
       length (extract_assignment model a) = cols - 1).

(** A run that ends without an exception: with a value, or not at all. *)
Definition no_exception {A} (r : Res A) : Prop :=
  match r with Raise _ => False | _ => True end.

(** A model whose first phase ends with the bounds 1 and 0: maximise
    x2 - x1 subject to x1 = 1 and x1 + x2 <= 1.  Its only feasible point is
    x1 = 1, x2 = 0. *)
Definition unit_bounds_model : Model.t :=
  let model := models.with_variables (empty_model "unit_bounds") ["x1"; "x2"] in
  let model :=
    Model.add_constraint model (Expression.var models.x1)
      ConstraintType.EQ (num_of_Z 1) in
  let model :=
    Model.add_constraint model
      (Expression.add (Expression.var models.x1) (Expression.var models.x2))
      ConstraintType.LE (num_of_Z 1) in
  Model.maximize model
    (Expression.sub (Expression.var models.x2) (Expression.var models.x1)).

(** A constraint holds at a dense assignment. *)
Definition holds_at (x : list num) (c : Constraint.t) : Prop :=
  let value := Expression.evaluate (Constraint.expression c) x in
  match Constraint.type c with
  | ConstraintType.LE => (value ≤ Constraint.bound c)%Qc
  | ConstraintType.GE => (Constraint.bound c ≤ value)%Qc
  | ConstraintType.EQ => value = Constraint.bound c
  end.
#[global] Instance holds_at_dec (x : list num) (c : Constraint.t) :
  Decision (holds_at x c).
Proof. unfold holds_at. destruct (Constraint.type c); apply _. Defined.

(** * Properties *)

(** ** The monad *)

Lemma bind_Ok {A B} (m : M A) (f : A → M B) w b w' :
  (m ≫= f) w = Ok b w' ↔ ∃ a w1, m w = Ok a w1 ∧ f a w1 = Ok b w'.
Proof.
  unfold mbind, M_bind. destruct (m w) as [a w1| |]; split.
  - eauto.
  - by intros (? & ? & [= -> ->] & ?).
  - done.
  - by intros (? & ? & ? & ?).
  - done.
  - by intros (? & ? & ? & ?).
Qed.

Lemma bind_run {A B} (m : M A) (f : A → M B) w a w1 :
  m w = Ok a w1 → (m ≫= f) w = f a w1.
Proof. unfold mbind, M_bind. by intros ->. Qed.

Lemma try_Ok {A} e (o : option A) w a w' :
  try e o w = Ok a w' ↔ o = Some a ∧ w' = w.
Proof.
  destruct o; simpl; unfold mret, M_ret, raise; split;
    first [by intros [= -> ->] | by intros [[= ->] ->] | by intros [? ?] | done].
Qed.

(** ** The three loops that add auxiliary variables *)

Section aux_loop.
Variable sel : Constraint.t → bool.
Variable prefix : string.
Variable upd_c : Constraint.t → Var.t → Constraint.t.
Variable upd_o : Objective.t → Var.t → Objective.t.

Local Abbreviation loop := (aux_loop sel prefix upd_c upd_o).
Local Abbreviation entry n := (λ j c, (aux_var prefix n j c, upd_c c (aux_var prefix n j c))).

Local Abbreviation step_model := (step_model prefix upd_o).

Lemma aux_loop_cons model c rest :
  loop model (c :: rest)
  = if sel c then
      let v := aux_var prefix (length (Model.variables model)) 0 c in
      let r := loop (step_model model c) rest in
      (r.1.1, upd_c c v :: r.1.2, (v, upd_c c v) :: r.2)
    else
      let r := loop model rest in (r.1.1, c :: r.1.2, r.2).
Proof.
  simpl. unfold step_model, aux_var. rewrite Nat.add_0_r.
  destruct (sel c); simpl; by destruct (aux_loop _ _ _ _ _ rest) as [[??]?].
Qed.

Lemma step_model_length model c :
  length (Model.variables (step_model model c)) = S (length (Model.variables model)).
Proof. unfold step_model. simpl. rewrite length_app. simpl. lia. Qed.

Lemma aux_loop_dict model todo :
  (loop model todo).2
  = imap (entry (length (Model.variables model))) (filter (λ c, sel c) todo).
Proof.
  revert model. induction todo as [|c rest IH]; intros model; [done|].
  rewrite aux_loop_cons, filter_cons. destruct (sel c) eqn:Hc; simpl; [|done].
  f_equal. rewrite IH, step_model_length. apply imap_ext. intros j x _. simpl.
  unfold aux_var. by replace (S (length (Model.variables model)) + j)
    with (length (Model.variables model) + S j) by lia.
Qed.

Lemma aux_loop_done_length model todo :
  length (loop model todo).1.2 = length todo.
Proof.
  revert model. induction todo as [|c rest IH]; intros model; [done|].
  rewrite aux_loop_cons. destruct (sel c); simpl; by rewrite IH.
Qed.

Lemma aux_loop_done model todo k c :
  todo !! k = Some c →
  (loop model todo).1.2 !! k
  = Some (if sel c
          then upd_c c (aux_var prefix (length (Model.variables model))
                                (picked_before sel todo k) c)
          else c).
Proof.
  revert model k. induction todo as [|c0 rest IH]; intros model k Hk; [done|].
  rewrite aux_loop_cons. destruct k as [|k]; simpl in Hk.
  - injection Hk as ->. unfold picked_before. simpl. by destruct (sel c).
  - unfold picked_before. simpl. rewrite filter_cons.
    destruct (sel c0) eqn:Hc0; simpl; rewrite (IH _ _ Hk); [|done].
    rewrite step_model_length. unfold aux_var, picked_before. do 4 f_equal.
    destruct (sel c); [|done]. do 2 f_equal. lia.
Qed.

Lemma aux_loop_variables model todo :
  Model.variables (loop model todo).1.1
  = Model.variables model ++ (loop model todo).2.*1.
Proof.
  revert model. induction todo as [|c rest IH]; intros model.
  - simpl. by rewrite app_nil_r.
  - rewrite aux_loop_cons. destruct (sel c); simpl; rewrite IH; [|done].
    unfold step_model. simpl. by rewrite <-app_assoc.
Qed.

Lemma aux_loop_constraints model todo :
  Model.constraints (loop model todo).1.1 = Model.constraints model.
Proof.
  revert model. induction todo as [|c rest IH]; intros model; [done|].
  rewrite aux_loop_cons. destruct (sel c); simpl; by rewrite IH.
Qed.

Lemma aux_loop_name model todo :
  Model.name (loop model todo).1.1 = Model.name model.
Proof.
  revert model. induction todo as [|c rest IH]; intros model; [done|].
  rewrite aux_loop_cons. destruct (sel c); simpl; by rewrite IH.
Qed.

Lemma aux_loop_objective model todo :
  Model.objective (loop model todo).1.1
  = foldl upd_o (Model.objective model) (loop model todo).2.*1.
Proof.
  revert model. induction todo as [|c rest IH]; intros model; [done|].
  rewrite aux_loop_cons. destruct (sel c); simpl; by rewrite IH.
Qed.
End aux_loop.

(** ** The solver's loops are instances of the common loop *)


Lemma with_objective_same model :
  Model.with_objective model (Model.objective model) = model.
Proof. by destruct model. Qed.

Lemma add_slack_loop_aux model todo :
  Solver.add_slack_loop model todo
  = aux_loop is_LE "s" add_slack keep_objective model todo.
Proof.
  revert model. induction todo as [|c rest IH]; intros model; [done|].
  simpl. unfold is_LE. case_decide as Hc.
  - rewrite bool_decide_eq_true_2 by done. simpl. by rewrite IH.
  - rewrite bool_decide_eq_false_2 by done. by rewrite IH.
Qed.

Lemma add_surplus_loop_aux model todo :
  Solver.add_surplus_loop model todo
  = aux_loop is_GE "s" add_surplus keep_objective model todo.
Proof.
  revert model. induction todo as [|c rest IH]; intros model; [done|].
  simpl. unfold is_GE. case_decide as Hc.
  - rewrite bool_decide_eq_true_2 by done. simpl. by rewrite IH.
  - rewrite bool_decide_eq_false_2 by done. by rewrite IH.
Qed.

Lemma add_artificial_loop_aux with_slack model todo :
  Solver.add_artificial_loop with_slack model todo
  = aux_loop (lacks_slack with_slack) "R" add_artificial add_to_objective model todo.
Proof.
  revert model. induction todo as [|c rest IH]; intros model; [done|].
  cbn [Solver.add_artificial_loop aux_loop]. unfold lacks_slack at 1.
  destruct (decide (Constraint.index c ∉ with_slack)) as [Hc|Hc].
  - rewrite (bool_decide_eq_true_2 _ Hc). simpl. by rewrite IH.
  - rewrite (bool_decide_eq_false_2 _ Hc). by rewrite IH.
Qed.

(** ** Augmentation *)

Lemma _add_slack_variables_eq model :
  Solver._add_slack_variables model
  = let r := aux_loop is_LE "s" add_slack keep_objective model (Model.constraints model) in
    (Model.with_constraints r.1.1 r.1.2, r.2).
Proof.
  unfold Solver._add_slack_variables. rewrite add_slack_loop_aux.
  by destruct (aux_loop _ _ _ _ _ _) as [[??]?].
Qed.

Lemma _add_surplus_variables_eq model :
  Solver._add_surplus_variables model
  = let r := aux_loop is_GE "s" add_surplus keep_objective model (Model.constraints model) in
    (Model.with_constraints r.1.1 r.1.2, r.2).
Proof.
  unfold Solver._add_surplus_variables. rewrite add_surplus_loop_aux.
  by destruct (aux_loop _ _ _ _ _ _) as [[??]?].
Qed.

Lemma before_slacks_constraints model :
  Model.constraints (before_slacks model) = normalized_constraints model.
Proof.
  unfold before_slacks, Solver._change_constraints_bounds_to_nonnegative,
    Solver._change_objective_to_max, normalized_constraints, normalize_bound.
  by destruct (decide _).
Qed.

Lemma before_slacks_variables model :
  Model.variables (before_slacks model) = Model.variables model.
Proof.
  unfold before_slacks, Solver._change_constraints_bounds_to_nonnegative,
    Solver._change_objective_to_max. by destruct (decide _).
Qed.

Lemma before_slacks_objective model :
  Model.objective (before_slacks model)
  = if decide (Objective.type (Model.objective model) = ObjectiveType.MIN)
    then Objective.invert (Model.objective model)
    else Model.objective model.
Proof.
  unfold before_slacks, Solver._change_constraints_bounds_to_nonnegative,
    Solver._change_objective_to_max. by destruct (decide _).
Qed.

Lemma _augment_model_run model w :
  Solver._augment_model model w
  = Ok (augmented model)
       (mkWorld (mkSolver (Some (slack_pass model).2) (Some (surplus_pass model).2)
                          (_artificial (self w)))
                (arrays w)).
Proof.
  unfold Solver._augment_model. fold (before_slacks model).
  rewrite _add_slack_variables_eq. cbv zeta.
  rewrite before_slacks_constraints. fold (slack_pass model). fold (after_slacks model).
  rewrite _add_surplus_variables_eq. cbv zeta.
  change (Model.constraints (after_slacks model)) with (slack_pass model).1.2.
  fold (surplus_pass model). fold (augmented model). done.
Qed.

Lemma filter_length_lt {A} (P : A → bool) (l : list A) :
  length (filter (λ x, P x) l) < length l ↔ Exists (λ x, P x = false) l.
Proof.
  induction l as [|x l IH]; simpl.
  - split; [lia | by intros ?%Exists_nil].
  - rewrite filter_cons, Exists_cons.
    pose proof (length_filter (λ x, P x) l) as Hle.
    destruct (P x) eqn:Hx; simpl.
    + rewrite <-IH. split; [lia | intros [?|?]; [done | lia]].
    + split; [by left | lia].
Qed.

Lemma filter_length_agree {A B} (P : A → bool) (Q : B → bool) l1 l2 :
  Forall2 (λ a b, P a = Q b) l1 l2 →
  length (filter (λ x, P x) l1) = length (filter (λ x, Q x) l2).
Proof.
  induction 1 as [|a b l1 l2 Hab _ IH]; [done|].
  rewrite !filter_cons, Hab. destruct (Q b); simpl; by rewrite IH.
Qed.

Lemma slack_pass_length model :
  length (slack_pass model).1.2 = length (Model.constraints model).
Proof.
  unfold slack_pass. rewrite aux_loop_done_length.
  unfold normalized_constraints, Model.simplify. simpl. by rewrite !length_fmap.
Qed.

Lemma slack_pass_dict_length model :
  length (slack_pass model).2
  = length (filter (λ c, is_LE c) (normalized_constraints model)).
Proof. unfold slack_pass. by rewrite aux_loop_dict, length_imap. Qed.

Lemma augmented_constraints model :
  Model.constraints (augmented model) = (surplus_pass model).1.2.
Proof. done. Qed.

Lemma augmented_length model :
  length (Model.constraints (augmented model)) = length (Model.constraints model).
Proof.
  rewrite augmented_constraints. unfold surplus_pass.
  by rewrite aux_loop_done_length, slack_pass_length.
Qed.

Lemma ends_without_slack_normalized c :
  ends_without_slack c = negb (is_LE (normalize_bound c)).
Proof.
  unfold ends_without_slack, normalize_bound, is_LE.
  destruct (ltb (Constraint.bound c) (Q2Qc 0)); simpl;
    by destruct (Constraint.type c).
Qed.

Lemma needs_presolve_iff model :
  Solver.needs_presolve (slack_pass model).2 (augmented model)
  = existsb ends_without_slack (Model.constraints (Model.simplify model)).
Proof.
  unfold Solver.needs_presolve.
  rewrite slack_pass_dict_length, augmented_length.
  replace (length (Model.constraints model))
    with (length (normalized_constraints model))
    by (unfold normalized_constraints, Model.simplify; simpl; by rewrite !length_fmap).
  apply eq_true_iff_eq.
  rewrite bool_decide_eq_true, filter_length_lt. unfold normalized_constraints.
  rewrite Exists_fmap, existsb_exists, Exists_exists.
  split; intros (c & Hc & H); exists c; (split; [by apply list_elem_of_In|]);
    rewrite ends_without_slack_normalized in *; simpl in *;
    by destruct (is_LE (normalize_bound c)).
Qed.

Lemma solve_branches `{ops : TableauOps} (fuel : nat) (model : Model.t) (w : World) :
  let w0 := mkWorld (mkSolver (Some (slack_pass model).2) (Some (surplus_pass model).2)
                              (_artificial (self w))) (arrays w) in
  Solver.solve fuel model w
  = if existsb ends_without_slack (Model.constraints (Model.simplify model))
    then Solver.presolve_path fuel model (augmented model) w0
    else Solver.slack_only_path fuel model (augmented model) w0.
Proof.
  intros w0. unfold Solver.solve.
  rewrite (bind_run _ _ _ _ _ (_augment_model_run model w)).
  erewrite (bind_run get_self) by reflexivity. cbn [self _slacks].
  erewrite (bind_run (try _ _)) by reflexivity.
  rewrite needs_presolve_iff. by destruct (existsb _ _).
Qed.

(** C2, as amended.  [solve] goes through the presolve exactly when, after
    simplification and the inversion of the constraints with a negative
    bound, some constraint is not a [<=]: that is, when the simplified model
    has an equality, a [>=] whose bound is not negative, or a [<=] whose
    bound is negative.  The test of line 38, the number of slack variables
    against the number of constraints, decides just that; otherwise [solve]
    starts from the slack-only tableau. *)
Theorem solve_phase_selection `{ops : TableauOps} (fuel : nat) (model : Model.t)
    (w : World) :
  ∃ normal_model w0 slacks,
    Solver._augment_model model w = Ok normal_model w0 ∧
    _slacks (self w0) = Some slacks ∧
    Solver.needs_presolve slacks normal_model
    = existsb ends_without_slack (Model.constraints (Model.simplify model)) ∧
    Solver.solve fuel model w
    = if existsb ends_without_slack (Model.constraints (Model.simplify model))
      then Solver.presolve_path fuel model normal_model w0
      else Solver.slack_only_path fuel model normal_model w0.
Proof.
  eexists _, _, _. split; [apply _augment_model_run|].
  split; [reflexivity|]. split; [apply needs_presolve_iff|].
  apply solve_branches.
Qed.

Lemma normalized_constraints_length model :
  length (normalized_constraints model) = length (Model.constraints model).
Proof. unfold normalized_constraints, Model.simplify. simpl. by rewrite !length_fmap. Qed.

Lemma slack_pass_done model k c :
  normalized_constraints model !! k = Some c →
  (slack_pass model).1.2 !! k
  = Some (if is_LE c
          then add_slack c (aux_var "s" (length (Model.variables model))
                              (picked_before is_LE (normalized_constraints model) k) c)
          else c).
Proof.
  intros Hk. unfold slack_pass. rewrite (aux_loop_done _ _ _ _ _ _ _ _ Hk).
  by rewrite before_slacks_variables.
Qed.

Lemma slack_pass_keeps_GE model :
  Forall2 (λ a b, is_GE a = is_GE b)
          (normalized_constraints model) (slack_pass model).1.2.
Proof.
  apply Forall2_same_length_lookup_2.
  - unfold slack_pass. by rewrite aux_loop_done_length.
  - intros k a b Ha Hb. rewrite (slack_pass_done _ _ _ Ha) in Hb.
    injection Hb as <-. by destruct a as [e [] bd i].
Qed.

Lemma after_slacks_variables model :
  Model.variables (after_slacks model)
  = Model.variables model ++ (slack_pass model).2.*1.
Proof.
  unfold after_slacks, slack_pass. simpl.
  by rewrite aux_loop_variables, before_slacks_variables.
Qed.

Lemma augmented_variables model :
  Model.variables (augmented model)
  = Model.variables model ++ (slack_pass model).2.*1 ++ (surplus_pass model).2.*1.
Proof.
  unfold augmented, surplus_pass. simpl.
  by rewrite aux_loop_variables, after_slacks_variables, <-app_assoc.
Qed.

Lemma augmented_objective model :
  Model.objective (augmented model)
  = if decide (Objective.type (Model.objective model) = ObjectiveType.MIN)
    then Objective.invert (Model.objective model)
    else Model.objective model.
Proof.
  unfold augmented, surplus_pass. simpl. rewrite aux_loop_objective.
  assert (∀ o l, foldl keep_objective o l = o) as Hkeep
    by (intros o l; revert o; induction l; simpl; auto).
  rewrite Hkeep. unfold after_slacks, slack_pass. simpl.
  by rewrite aux_loop_objective, Hkeep, before_slacks_objective.
Qed.

Lemma surplus_pass_done model k c :
  normalized_constraints model !! k = Some c →
  (surplus_pass model).1.2 !! k
  = Some match Constraint.type c with
         | ConstraintType.LE =>
             add_slack c (aux_var "s" (length (Model.variables model))
                            (picked_before is_LE (normalized_constraints model) k) c)
         | ConstraintType.GE =>
             add_surplus c
               (aux_var "s" (length (Model.variables model) + length (slack_pass model).2)
                  (picked_before is_GE (normalized_constraints model) k) c)
         | ConstraintType.EQ => c
         end.
Proof.
  intros Hk. unfold surplus_pass.
  rewrite (aux_loop_done _ _ _ _ _ _ _ _ (slack_pass_done _ _ _ Hk)).
  rewrite after_slacks_variables, length_app, length_fmap.
  replace (picked_before is_GE (slack_pass model).1.2 k)
    with (picked_before is_GE (normalized_constraints model) k).
  2:{ unfold picked_before. apply filter_length_agree, Forall2_take,
        slack_pass_keeps_GE. }
  by destruct c as [e [] bd i].
Qed.

Lemma normalize_bound_nonneg c : (0 ≤ Constraint.bound (normalize_bound c))%Qc.
Proof.
  unfold normalize_bound, ltb. case_bool_decide as Hb; simpl.
  - apply Qclt_le_weak in Hb. apply Qcopp_le_compat in Hb. by rewrite Qcopp_involutive in Hb || exact Hb.
  - by apply Qcnot_lt_le.
Qed.

Lemma filter_agree {A} (P : A → bool) l1 l2 :
  Forall2 (λ a b, P a = P b ∧ (P a = true → a = b)) l1 l2 →
  filter (λ x, P x) l1 = filter (λ x, P x) l2.
Proof.
  induction 1 as [|a b l1 l2 [Hab Heq] _ IH]; [done|].
  rewrite !filter_cons, <-Hab. destruct (P a) eqn:Ha; simpl; [|done].
  by rewrite IH, (Heq eq_refl).
Qed.

Lemma slack_pass_GE_untouched model :
  filter (λ c, is_GE c) (slack_pass model).1.2
  = filter (λ c, is_GE c) (normalized_constraints model).
Proof.
  symmetry. apply filter_agree, Forall2_same_length_lookup_2.
  - unfold slack_pass. by rewrite aux_loop_done_length.
  - intros k a b Ha Hb. rewrite (slack_pass_done _ _ _ Ha) in Hb.
    injection Hb as <-. by destruct a as [e [] bd i].
Qed.

(** C3, as amended.  [_augment_model] returns a copy of the model in
    standard form:
    a minimised objective is negated and becomes a maximised one; the
    constraints are those of the simplified model with every negative-bound
    constraint inverted, so that no bound is negative; each of them that is
    then a [<=] has received a new variable of its own with coefficient +1,
    each that is then a [>=] a new variable of its own with coefficient -1,
    and all are equalities.  The new variables follow the original ones, the
    slack variables first. *)
Theorem augment_model_standard_form (original_model : Model.t) (w : World) :
  let n := length (Model.variables original_model) in
  let normalized := normalized_constraints original_model in
  ∃ model slacks surpluses,
    Solver._augment_model original_model w
    = Ok model (mkWorld (mkSolver (Some slacks) (Some surpluses)
                                  (_artificial (self w))) (arrays w)) ∧
    Model.objective model
    = (if decide (Objective.type (Model.objective original_model) = ObjectiveType.MIN)
       then Objective.invert (Model.objective original_model)
       else Model.objective original_model) ∧
    Objective.type (Model.objective model) = ObjectiveType.MAX ∧
    slacks = imap (λ j c, (aux_var "s" n j c, add_slack c (aux_var "s" n j c)))
                  (filter (λ c, is_LE c) normalized) ∧
    surpluses = imap (λ j c, (aux_var "s" (n + length slacks) j c,
                              add_surplus c (aux_var "s" (n + length slacks) j c)))
                     (filter (λ c, is_GE c) normalized) ∧
    Model.variables model
    = Model.variables original_model ++ slacks.*1 ++ surpluses.*1 ∧
    length (Model.constraints model) = length normalized ∧
    Forall (λ c, (0 ≤ Constraint.bound c)%Qc
                 ∧ Constraint.type c = ConstraintType.EQ) (Model.constraints model) ∧
    ∀ k c, normalized !! k = Some c →
      Model.constraints model !! k
      = Some match Constraint.type c with
             | ConstraintType.LE =>
                 add_slack c (aux_var "s" n (picked_before is_LE normalized k) c)
             | ConstraintType.GE =>
                 add_surplus c (aux_var "s" (n + length slacks)
                                        (picked_before is_GE normalized k) c)
             | ConstraintType.EQ => c
             end.
Proof.
  intros n normalized.
  exists (augmented original_model), (slack_pass original_model).2,
    (surplus_pass original_model).2.
  assert (length (Model.constraints (augmented original_model)) = length normalized)
    as Hlen by (by rewrite augmented_length; unfold normalized;
                rewrite normalized_constraints_length).
  assert (∀ k c, normalized !! k = Some c →
      Model.constraints (augmented original_model) !! k
      = Some match Constraint.type c with
             | ConstraintType.LE =>
                 add_slack c (aux_var "s" n (picked_before is_LE normalized k) c)
             | ConstraintType.GE =>
                 add_surplus c (aux_var "s" (n + length (slack_pass original_model).2)
                                        (picked_before is_GE normalized k) c)
             | ConstraintType.EQ => c
             end) as Hlook
    by (intros k c Hk; rewrite augmented_constraints; by apply surplus_pass_done).
  split_and!; try done.
  - apply _augment_model_run.
  - apply augmented_objective.
  - rewrite augmented_objective. case_decide as Ht; [by unfold Objective.invert; rewrite Ht|].
    by destruct (Objective.type (Model.objective original_model)).
  - unfold slack_pass. by rewrite aux_loop_dict, before_slacks_variables.
  - unfold surplus_pass at 1. rewrite aux_loop_dict, after_slacks_variables.
    rewrite length_app, length_fmap. f_equal.
    apply slack_pass_GE_untouched.
  - apply augmented_variables.
  - apply Forall_lookup_2. intros k c' Hk'.
    destruct (normalized !! k) as [c|] eqn:Hk.
    + rewrite (Hlook _ _ Hk) in Hk'. injection Hk' as <-.
      assert (0 ≤ Constraint.bound c)%Qc as Hb.
      { unfold normalized, normalized_constraints in Hk.
        rewrite list_lookup_fmap in Hk.
        destruct (Model.constraints (Model.simplify original_model) !! k); [|done].
        injection Hk as <-. apply normalize_bound_nonneg. }
      by destruct c as [e [] bd i].
    + apply lookup_ge_None in Hk. apply lookup_lt_Some in Hk'. lia.
Qed.

(** ** The presolve model *)

Lemma _add_artificial_variables_run model w slacks :
  _slacks (self w) = Some slacks →
  Solver._add_artificial_variables model w
  = Ok (let r := artificial_pass (constraint_indices slacks) model in
        (Model.with_constraints r.1.1 r.1.2, r.2)) w.
Proof.
  intros Hs. unfold Solver._add_artificial_variables.
  erewrite (bind_run get_self) by reflexivity.
  erewrite (bind_run (try _ _)) by (rewrite Hs; reflexivity).
  rewrite add_artificial_loop_aux. fold (constraint_indices slacks).
  fold (artificial_pass (constraint_indices slacks) model).
  by destruct (artificial_pass _ _) as [[m cs] d].
Qed.

Lemma _create_presolve_model_run augmented_model w slacks :
  _slacks (self w) = Some slacks →
  Solver._create_presolve_model augmented_model w
  = let r := artificial_pass (constraint_indices slacks) augmented_model in
    Ok (Model.with_constraints r.1.1 r.1.2)
       (mkWorld (mkSolver (_slacks (self w)) (_surpluses (self w)) (Some r.2))
                (arrays w)).
Proof.
  intros Hs. unfold Solver._create_presolve_model, Model.deepcopy.
  by rewrite (bind_run _ _ _ _ _ (_add_artificial_variables_run _ _ _ Hs)).
Qed.

(** C4, as amended.  The presolve model is the augmented model in which
    exactly the constraints whose index is not recorded in [self._slacks]
    (equalities, and [>=] constraints, which already carry a surplus
    variable) have received a new variable of their own with coefficient +1,
    each of these variables having also been added to the objective's
    expression. *)
Theorem presolve_model_artificial (augmented_model : Model.t) (w : World)
    (slacks : Dict) :
  _slacks (self w) = Some slacks →
  let n := length (Model.variables augmented_model) in
  let cs := Model.constraints augmented_model in
  let pick := lacks_slack (constraint_indices slacks) in
  ∃ presolve_model artificial,
    Solver._create_presolve_model augmented_model w
    = Ok presolve_model
         (mkWorld (mkSolver (_slacks (self w)) (_surpluses (self w)) (Some artificial))
                  (arrays w)) ∧
    artificial = imap (λ j c, (aux_var "R" n j c, add_artificial c (aux_var "R" n j c)))
                      (filter (λ c, pick c) cs) ∧
    Model.variables presolve_model
    = Model.variables augmented_model ++ artificial.*1 ∧
    length (Model.constraints presolve_model) = length cs ∧
    (∀ k c, cs !! k = Some c →
       Model.constraints presolve_model !! k
       = Some (if pick c
               then add_artificial c (aux_var "R" n (picked_before pick cs k) c)
               else c)) ∧
    Model.objective presolve_model
    = foldl add_to_objective (Model.objective augmented_model) artificial.*1.
Proof.
  intros Hs n cs pick.
  eexists _, _. split; [by apply _create_presolve_model_run|].
  unfold artificial_pass. cbn [Model.variables Model.constraints Model.objective
    Model.with_constraints]. split_and!.
  - by rewrite aux_loop_dict.
  - by rewrite aux_loop_variables.
  - by rewrite aux_loop_done_length.
  - intros k c Hk. by rewrite (aux_loop_done _ _ _ _ _ _ _ _ Hk).
  - by rewrite aux_loop_objective.
Qed.

(** C4, the amended statement at the augmented model of example 04. *)
Lemma presolve_model_artificial_witness :
  let w := mkWorld (mkSolver (Some (slack_pass example_04.create_model).2) None None) [] in
  _slacks (self w) = Some (slack_pass example_04.create_model).2 ∧
  ∃ presolve_model artificial,
    Solver._create_presolve_model (augmented example_04.create_model) w
    = Ok presolve_model
         (mkWorld (mkSolver (_slacks (self w)) (_surpluses (self w)) (Some artificial))
                  (arrays w)) ∧
    Model.objective presolve_model
    = foldl add_to_objective (Model.objective (augmented example_04.create_model))
            artificial.*1.
Proof.
  intros w. split; [reflexivity|].
  destruct (presolve_model_artificial (augmented example_04.create_model) w
              (slack_pass example_04.create_model).2 eq_refl)
    as (pm & art & Hrun & _ & _ & _ & _ & Hobj).
  by exists pm, art.
Defined.

(** C4, the claim as stated fails: in the model of example 05 the first
    constraint has a surplus variable, hence an auxiliary variable, when the
    presolve model is created, and it receives an artificial variable. *)
Lemma surplus_constraint_gets_artificial :
  ∃ normal_model w1 presolve_model w2 artificial r c,
    Solver._augment_model example_05.create_model fresh = Ok normal_model w1 ∧
    Solver._create_presolve_model normal_model w1 = Ok presolve_model w2 ∧
    _artificial (self w2) = Some artificial ∧
    (r, c) ∈ artificial ∧
    c ∈ Model.constraints presolve_model ∧
    has_auxiliary (self w1) c = true.
Proof.
  eexists _, _, _, _, _, _, _.
  split; [vm_compute; reflexivity|].
  split; [vm_compute; reflexivity|].
  split; [reflexivity|].
  split; [apply list_elem_of_here|].
  split; [apply list_elem_of_here|].
  vm_compute. reflexivity.
Qed.

(** ** The Phase-I tableau *)

Lemma coefficient_add e1 e2 i :
  Expression.coefficient (Expression.add e1 e2) i
  = (Expression.coefficient e1 i + Expression.coefficient e2 i)%Qc.
Proof.
  unfold Expression.coefficient, Expression.add. simpl.
  rewrite lookup_union_with.
  destruct (Expression.factors e1 !! i), (Expression.factors e2 !! i); simpl;
    by rewrite ?Qcplus_0_r, ?Qcplus_0_l.
Qed.

Lemma coefficient_var v i :
  Expression.coefficient (Expression.var v) i
  = if decide (Var.index v = i) then 1%Qc else 0%Qc.
Proof.
  unfold Expression.coefficient, Expression.var. simpl.
  case_decide as H.
  - subst. by rewrite lookup_singleton_eq.
  - by rewrite lookup_singleton_ne.
Qed.

Lemma set_artificial_ones_run (obj : list num) rows (artificial : Dict) :
  Forall (λ p, Var.index p.1 < length obj) artificial →
  Solver.set_artificial_ones (obj :: rows) artificial
  = Some (foldl (λ r p, <[Var.index p.1 := 1%Qc]> r) obj artificial :: rows).
Proof.
  revert obj. induction artificial as [|[v c] rest IH]; intros obj Hlt; [done|].
  apply Forall_cons in Hlt as [Hv Hrest]. simpl in *.
  unfold np.set_item. simpl. rewrite decide_True by done. simpl.
  apply IH. by rewrite length_insert.
Qed.

Lemma subtract_artificial_rows_run (obj : list num) rows (artificial : Dict) :
  Forall (λ p, Constraint.index p.2 < length rows) artificial →
  Solver.subtract_artificial_rows (obj :: rows) artificial
  = Some (foldl (λ r p, np.sub_row r (default [] (rows !! Constraint.index p.2)))
                obj artificial :: rows).
Proof.
  revert obj. induction artificial as [|[v c] rest IH]; intros obj Hlt; [done|].
  apply Forall_cons in Hlt as [Hc Hrest]. simpl in *.
  rewrite Nat.add_1_r. simpl.
  destruct (lookup_lt_is_Some_2 _ _ Hc) as [row Hrow]. rewrite Hrow. simpl.
  by apply IH.
Qed.

Lemma ones_lookup (obj : list num) (artificial : Dict) j :
  foldl (λ r p, <[Var.index p.1 := 1%Qc]> r) obj artificial !! j
  = if bool_decide (j ∈ (λ p, Var.index p.1) <$> artificial)
    then (λ _, 1%Qc) <$> obj !! j
    else obj !! j.
Proof.
  revert obj. induction artificial as [|[v c] rest IH]; intros obj; [done|].
  cbn [foldl fmap list_fmap fst]. rewrite IH.
  destruct (decide (j = Var.index v)) as [->|Hne].
  - rewrite (bool_decide_eq_true_2 (_ ∈ _ :: _)) by apply list_elem_of_here.
    destruct (decide (Var.index v < length obj)) as [Hlt|Hge].
    + rewrite list_lookup_insert_eq by done.
      destruct (lookup_lt_is_Some_2 _ _ Hlt) as [x ->]. by destruct (bool_decide _).
    + rewrite list_insert_ge by lia. rewrite lookup_ge_None_2 by lia.
      by destruct (bool_decide _).
  - rewrite list_lookup_insert_ne by done.
    destruct (bool_decide (j ∈ _)) eqn:Hin.
    + apply bool_decide_eq_true_1 in Hin.
      by rewrite bool_decide_eq_true_2 by (by apply list_elem_of_further).
    + apply bool_decide_eq_false_1 in Hin.
      rewrite bool_decide_eq_false_2; [done|]. by intros [?|?]%elem_of_cons.
Qed.

Lemma sum_list_cons x l : sum_list (x :: l) = (x + sum_list l)%Qc.
Proof. done. Qed.

Lemma sub_rows_at (obj : list num) (rows : list (list num)) j :
  Forall (λ r, j < length r) rows → j < length obj →
  at_col (foldl np.sub_row obj rows) j
  = (at_col obj j - sum_list ((λ r, at_col r j) <$> rows))%Qc.
Proof.
  intros Hrows. revert obj. induction rows as [|r rows IH]; intros obj Hobj.
  - simpl. unfold Qcminus. by rewrite Qcplus_0_r.
  - apply Forall_cons in Hrows as [Hr Hrows].
    cbn [foldl]. rewrite fmap_cons, sum_list_cons, IH; [|done|].
    + replace (at_col (np.sub_row obj r) j) with (at_col obj j - at_col r j)%Qc; [ring|].
      unfold at_col, np.sub_row. rewrite lookup_zip_with.
      destruct (lookup_lt_is_Some_2 _ _ Hobj) as [x ->].
      by destruct (lookup_lt_is_Some_2 _ _ Hr) as [y ->].
    + unfold np.sub_row. rewrite length_zip_with. lia.
Qed.

Lemma basic_table_rows model :
  Solver.basic_table model
  = (coefficients (Expression.scale (-1)%Qc
                     (Objective.expression (Model.objective model))) model ++ [0%Qc])
    :: constraint_rows model.
Proof. done. Qed.

Lemma coefficients_length e model :
  length (coefficients e model) = length (Model.variables model).
Proof. unfold coefficients. by rewrite length_fmap, length_seq. Qed.

Lemma constraint_row_length model c :
  length (constraint_row model c) = S (length (Model.variables model)).
Proof.
  unfold constraint_row. rewrite length_app, coefficients_length. simpl. lia.
Qed.

Lemma with_artificial_ones_length row artificial :
  length (with_artificial_ones row artificial) = length row.
Proof.
  unfold with_artificial_ones. revert row.
  induction artificial as [|p rest IH]; intros row; [done|].
  simpl. by rewrite IH, length_insert.
Qed.

Lemma fmap_const_replicate {A B} (x : B) (l : list A) :
  const x <$> l = replicate (length l) x.
Proof. induction l as [|y l IH]; [done|]. simpl. by rewrite <-IH. Qed.

Lemma fill_row_head (obj : list num) rows x :
  np.fill_row (obj :: rows) 0 x = Some ((const x <$> obj) :: rows).
Proof. done. Qed.

Lemma _presolve_initial_tableau_run model w artificial :
  _artificial (self w) = Some artificial →
  Forall (λ p, Var.index p.1 ≤ length (Model.variables model)) artificial →
  Forall (λ p, Constraint.index p.2 < length (Model.constraints model)) artificial →
  Solver._presolve_initial_tableau model w
  = Ok (Tableau.mk model (length (arrays w)))
       (mkWorld (self w)
          (arrays w ++ [phase_one_objective_row model artificial
                        :: constraint_rows model])).
Proof.
  intros Hart Hv Hc. unfold Solver._presolve_initial_tableau.
  erewrite bind_run; [|reflexivity]. cbn [Tableau.table].
  erewrite (bind_run (load _)); last first.
  { unfold load. cbn [arrays]. by rewrite lookup_app_r, Nat.sub_diag by lia. }
  rewrite basic_table_rows.
  erewrite (bind_run (try _ _)) by (rewrite fill_row_head; reflexivity).
  erewrite (bind_run get_self) by reflexivity. cbn [self].
  erewrite (bind_run (try _ _)) by (rewrite Hart; reflexivity).
  erewrite (bind_run (try _ _)); last first.
  { rewrite set_artificial_ones_run; [reflexivity|].
    eapply Forall_impl; [exact Hv|]. intros p Hp. simpl in *.
    rewrite length_fmap, length_app, coefficients_length. simpl. lia. }
  erewrite (bind_run (try _ _)); last first.
  { rewrite subtract_artificial_rows_run; [reflexivity|].
    unfold constraint_rows. by rewrite length_fmap. }
  unfold store, mbind, M_bind, mret, M_ret. cbn [arrays self].
  do 2 f_equal.
  rewrite (insert_app_r_alt _ _ (length (arrays w))) by lia.
  rewrite Nat.sub_diag. simpl. do 3 f_equal.
  unfold phase_one_objective_row, minus_artificial_rows, with_artificial_ones, zeroed_row.
  rewrite foldl_fmap. do 2 f_equal.
  rewrite fmap_const_replicate, length_app, coefficients_length. simpl.
  by rewrite Nat.add_1_r.
Qed.

Lemma filter_lookup_position {A} (P : A → bool) (l : list A) j x :
  filter (λ y, P y) l !! j = Some x →
  ∃ k, l !! k = Some x ∧ P x = true ∧ length (filter (λ y, P y) (take k l)) = j.
Proof.
  revert j. induction l as [|y l IH]; intros j Hj; [done|].
  rewrite filter_cons in Hj. destruct (P y) eqn:Hy; simpl in Hj.
  - destruct j as [|j]; simpl in Hj.
    + injection Hj as ->. by exists 0.
    + destruct (IH _ Hj) as (k & Hk & Hx & Hlen). exists (S k).
      split_and!; [done..|]. simpl. rewrite filter_cons, Hy. simpl. by rewrite Hlen.
  - destruct (IH _ Hj) as (k & Hk & Hx & Hlen). exists (S k).
    split_and!; [done..|]. simpl. by rewrite filter_cons, Hy.
Qed.

Lemma sum_indicator {A} (l : list A) (s ja : nat) :
  sum_list (imap (λ j' _, if decide (j' + s = ja) then 1%Qc else 0%Qc) l)
  = if decide (s ≤ ja < s + length l) then 1%Qc else 0%Qc.
Proof.
  revert s. induction l as [|x l IH]; intros s.
  - simpl. by rewrite decide_False by lia.
  - rewrite imap_cons, sum_list_cons.
    rewrite (imap_ext _ (λ j' _, if decide (j' + S s = ja) then 1%Qc else 0%Qc));
      last first.
    { intros i y _. simpl. destruct (decide (S (i + s) = ja)), (decide (i + S s = ja));
        done || lia. }
    rewrite IH. cbn [length].
    destruct (decide (0 + s = ja)), (decide (S s ≤ ja < S s + length l)),
      (decide (s ≤ ja < s + S (length l))); try lia;
      by rewrite ?Qcplus_0_r, ?Qcplus_0_l.
Qed.

Lemma sub_rows_length (obj : list num) (rows : list (list num)) :
  Forall (λ r, length obj ≤ length r) rows →
  length (foldl np.sub_row obj rows) = length obj.
Proof.
  revert obj. induction rows as [|r rows IH]; intros obj Hrows; [done|].
  apply Forall_cons in Hrows as [Hr Hrows]. simpl.
  assert (length (np.sub_row obj r) = length obj) as Hlen
    by (unfold np.sub_row; rewrite length_zip_with; lia).
  rewrite IH, Hlen; [done|]. by rewrite Hlen.
Qed.

Lemma constraint_row_at_variable model c j :
  j < length (Model.variables model) →
  at_col (constraint_row model c) j
  = Expression.coefficient (Constraint.expression c) j.
Proof.
  intros Hj. unfold at_col, constraint_row, coefficients.
  rewrite lookup_app_l by (by rewrite length_fmap, length_seq).
  rewrite list_lookup_fmap, lookup_seq_lt by done. done.
Qed.

Lemma indexed_by_position_lookup cs k c :
  indexed_by_position cs → cs !! k = Some c → Constraint.index c = k.
Proof.
  intros Hcs Hk. assert ((Constraint.index <$> cs) !! k = Some (Constraint.index c)) as H
    by (by rewrite list_lookup_fmap, Hk).
  rewrite Hcs in H. apply lookup_seq in H. lia.
Qed.

Lemma constraints_in_scope_lookup model c i :
  constraints_in_scope model → c ∈ Model.constraints model →
  length (Model.variables model) ≤ i →
  Expression.factors (Constraint.expression c) !! i = None.
Proof.
  intros Hscope Hc Hi. unfold constraints_in_scope in Hscope.
  rewrite Forall_forall in Hscope. specialize (Hscope c Hc).
  destruct (_ !! i) as [x|] eqn:Hx; [|done].
  apply Hscope in Hx. simpl in Hx. lia.
Qed.

Section presolve_model.
Variable augmented_model : Model.t.
Variable slacks : Dict.
Hypothesis Hindexed : indexed_by_position (Model.constraints augmented_model).
Hypothesis Hscope : constraints_in_scope augmented_model.

Local Abbreviation n := (length (Model.variables augmented_model)).
Local Abbreviation cs := (Model.constraints augmented_model).
Local Abbreviation pick := (lacks_slack (constraint_indices slacks)).
Local Abbreviation presolve_model := (presolve_of slacks augmented_model).
Local Abbreviation artificial := (artificial_of slacks augmented_model).

Lemma artificial_entry j p :
  artificial !! j = Some p →
  ∃ k c0, cs !! k = Some c0 ∧
    p = (aux_var "R" n j c0, add_artificial c0 (aux_var "R" n j c0)) ∧
    Model.constraints presolve_model !! k = Some p.2 ∧
    Constraint.index p.2 = k.
Proof using Hindexed.
  unfold artificial_of, artificial_pass. rewrite aux_loop_dict. intros Hp.
  apply list_lookup_imap_Some in Hp as (c0 & Hj & ->).
  destruct (filter_lookup_position _ _ _ _ Hj) as (k & Hk & Hp & Hlen).
  exists k, c0. split_and!; [done..| |simpl; by eapply indexed_by_position_lookup].
  unfold presolve_of, artificial_pass. simpl.
  rewrite (aux_loop_done _ _ _ _ _ _ _ _ Hk), Hp.
  unfold picked_before. by rewrite Hlen.
Qed.

Lemma presolve_variables_length :
  length (Model.variables presolve_model) = n + length artificial.
Proof.
  unfold presolve_of, artificial_of, artificial_pass. simpl.
  by rewrite aux_loop_variables, length_app, length_fmap.
Qed.

Lemma presolve_constraints_length :
  length (Model.constraints presolve_model) = length cs.
Proof.
  unfold presolve_of, artificial_pass. simpl.
  by rewrite aux_loop_done_length.
Qed.

Lemma artificial_in_range :
  Forall (λ p, Var.index p.1 ≤ length (Model.variables presolve_model)) artificial
  ∧ Forall (λ p, Constraint.index p.2 < length (Model.constraints presolve_model))
           artificial.
Proof using Hindexed.
  split; apply Forall_lookup_2; intros j p Hp;
    destruct (artificial_entry _ _ Hp) as (k & c0 & Hk & -> & Hpm & Hidx).
  - rewrite presolve_variables_length. apply lookup_lt_Some in Hp. simpl. lia.
  - rewrite Hidx. by apply lookup_lt_Some in Hpm.
Qed.

(** Entry of the row of one artificial constraint in the column of an
    artificial variable: 1 in its own column, 0 in the others. *)
Lemma artificial_row_at_artificial j p ja :
  artificial !! j = Some p → ja < length artificial →
  at_col (constraint_row presolve_model p.2) (n + ja)
  = if decide (j + 0 = ja) then 1%Qc else 0%Qc.
Proof using Hindexed Hscope.
  intros Hp Hja.
  destruct (artificial_entry _ _ Hp) as (k & c0 & Hk & -> & Hpm & Hidx).
  rewrite constraint_row_at_variable by (rewrite presolve_variables_length; lia).
  simpl. rewrite coefficient_add, coefficient_var. simpl.
  unfold Expression.coefficient.
  rewrite (constraints_in_scope_lookup _ c0 (n + ja) Hscope);
    [|by eapply list_elem_of_lookup_2|lia].
  simpl. rewrite Qcplus_0_l.
  destruct (decide (n + j = n + ja)), (decide (j + 0 = ja)); done || lia.
Qed.

Lemma artificial_rows :
  (λ p, default [] (constraint_rows presolve_model !! Constraint.index p.2))
    <$> artificial
  = (λ p, constraint_row presolve_model p.2) <$> artificial.
Proof using Hindexed.
  apply list_eq. intros j. rewrite !list_lookup_fmap.
  destruct (artificial !! j) as [p|] eqn:Hp; simpl; [|done]. f_equal.
  destruct (artificial_entry _ _ Hp) as (k & c0 & Hk & _ & Hpm & Hidx).
  unfold constraint_rows. by rewrite list_lookup_fmap, Hidx, Hpm.
Qed.

Lemma phase_one_row_length :
  length (phase_one_objective_row presolve_model artificial)
  = S (length (Model.variables presolve_model)).
Proof using Hindexed.
  unfold phase_one_objective_row, minus_artificial_rows. rewrite artificial_rows.
  unfold zeroed_row. rewrite sub_rows_length.
  - by rewrite with_artificial_ones_length, length_replicate.
  - apply Forall_fmap, Forall_forall. intros p _. unfold compose.
    by rewrite with_artificial_ones_length, length_replicate, constraint_row_length.
Qed.

Lemma phase_one_row_at j :
  j ≤ length (Model.variables presolve_model) →
  phase_one_objective_row presolve_model artificial !! j
  = Some ((if bool_decide (j ∈ (λ p, Var.index p.1) <$> artificial)
           then 1 else 0)
          - sum_list ((λ p, at_col (constraint_row presolve_model p.2) j)
                        <$> artificial))%Qc.
Proof using Hindexed.
  intros Hj.
  assert (j < length (phase_one_objective_row presolve_model artificial)) as Hlt
    by (rewrite phase_one_row_length; lia).
  destruct (lookup_lt_is_Some_2 _ _ Hlt) as [x Hx]. rewrite Hx. f_equal.
  assert (x = at_col (phase_one_objective_row presolve_model artificial) j) as ->
    by (unfold at_col; by rewrite Hx).
  unfold phase_one_objective_row, minus_artificial_rows. rewrite artificial_rows.
  rewrite sub_rows_at.
  - rewrite <-list_fmap_compose. f_equal.
    unfold at_col, with_artificial_ones, zeroed_row. rewrite ones_lookup.
    rewrite lookup_replicate_2 by lia. by destruct (bool_decide _).
  - apply Forall_fmap, Forall_forall. intros p _. unfold compose.
    rewrite constraint_row_length. lia.
  - unfold zeroed_row. rewrite with_artificial_ones_length, length_replicate. lia.
Qed.

Lemma artificial_column_sum ja :
  ja < length artificial →
  sum_list ((λ p, at_col (constraint_row presolve_model p.2) (n + ja))
              <$> artificial) = 1%Qc.
Proof using Hindexed Hscope.
  intros Hja.
  replace ((λ p, at_col (constraint_row presolve_model p.2) (n + ja)) <$> artificial)
    with (imap (λ j' (_ : Var.t * Constraint.t),
                  if decide (j' + 0 = ja) then 1%Qc else 0%Qc) artificial).
  - rewrite sum_indicator. by rewrite decide_True by lia.
  - apply list_eq. intros j. rewrite list_lookup_imap, list_lookup_fmap.
    destruct (artificial !! j) as [p|] eqn:Hp; simpl; [|done].
    by rewrite (artificial_row_at_artificial _ _ _ Hp Hja).
Qed.

Lemma artificial_variable_index j p :
  artificial !! j = Some p → Var.index p.1 = n + j.
Proof using Hindexed.
  intros Hp. by destruct (artificial_entry _ _ Hp) as (k & c0 & _ & -> & _).
Qed.
End presolve_model.

(** C5.  On the presolve model made from a well-formed augmented model,
    [_presolve_initial_tableau] stores the standard constraint rows under an
    objective row obtained by zeroing the row, writing 1 in the column of
    every artificial variable and subtracting the row of every constraint
    recorded in [self._artificial].  Each artificial variable has
    coefficient 1 in the row of its constraint; the resulting objective row
    is 0 in every artificial column and, in every other column (the
    right-hand side included), minus the sum of the entries of the artificial
    constraints' rows. *)
Theorem presolve_initial_tableau_phase_one (augmented_model : Model.t)
    (w : World) (slacks : Dict) :
  _slacks (self w) = Some slacks →
  indexed_by_position (Model.constraints augmented_model) →
  constraints_in_scope augmented_model →
  ∃ presolve_model w1 artificial tableau w2 objective_row,
    Solver._create_presolve_model augmented_model w = Ok presolve_model w1 ∧
    _artificial (self w1) = Some artificial ∧
    Solver._presolve_initial_tableau presolve_model w1 = Ok tableau w2 ∧
    Tableau.model tableau = presolve_model ∧
    arrays w2 !! Tableau.table tableau
    = Some (objective_row :: constraint_rows presolve_model) ∧
    objective_row
    = minus_artificial_rows presolve_model
        (with_artificial_ones (zeroed_row presolve_model) artificial) artificial ∧
    (∀ v c, (v, c) ∈ artificial →
       constraint_rows presolve_model !! Constraint.index c
       = Some (constraint_row presolve_model c) ∧
       at_col (constraint_row presolve_model c) (Var.index v) = 1%Qc ∧
       objective_row !! Var.index v = Some 0%Qc) ∧
    (∀ j, j ≤ length (Model.variables presolve_model) →
       j ∉ (λ p, Var.index p.1) <$> artificial →
       objective_row !! j
       = Some (- sum_list ((λ p, at_col (constraint_row presolve_model p.2) j)
                             <$> artificial))%Qc).
Proof.
  intros Hs Hindexed Hscope.
  pose proof (_create_presolve_model_run augmented_model w slacks Hs) as Hrun.
  cbv zeta in Hrun.
  change (Solver._create_presolve_model augmented_model w
          = Ok (presolve_of slacks augmented_model)
               (mkWorld (mkSolver (_slacks (self w)) (_surpluses (self w))
                                  (Some (artificial_of slacks augmented_model)))
                        (arrays w))) in Hrun.
  set (pm := presolve_of slacks augmented_model) in *.
  set (art := artificial_of slacks augmented_model) in *.
  destruct (artificial_in_range augmented_model slacks Hindexed) as [Hv Hc].
  fold pm art in Hv, Hc.
  eexists pm, _, art, _, _, (phase_one_objective_row pm art).
  split; [exact Hrun|]. split; [done|].
  split; [by apply _presolve_initial_tableau_run|].
  split; [done|].
  split; [cbn [arrays Tableau.table]; by rewrite lookup_app_r, Nat.sub_diag by lia|].
  split; [done|]. split.
  - intros v c [j Hj]%list_elem_of_lookup_1.
    pose proof (lookup_lt_Some _ _ _ Hj) as Hlt.
    pose proof (artificial_variable_index augmented_model slacks Hindexed _ _ Hj) as Hidx.
    pose proof (artificial_row_at_artificial augmented_model slacks Hindexed Hscope
                  _ _ j Hj Hlt) as Hone.
    destruct (artificial_entry augmented_model slacks Hindexed _ _ Hj)
      as (k & c0 & Hk & Hp & Hpm & Hck).
    fold pm art in Hidx, Hone, Hpm, Hck. cbn [fst snd] in Hidx, Hone, Hpm, Hck.
    split_and!.
    + unfold constraint_rows. by rewrite list_lookup_fmap, Hck, Hpm.
    + rewrite Hidx, Hone. by rewrite decide_True by lia.
    + pose proof (phase_one_row_at augmented_model slacks Hindexed (Var.index v)) as Hat.
      fold pm art in Hat. rewrite Hat.
      * rewrite Hidx.
        pose proof (artificial_column_sum augmented_model slacks Hindexed Hscope j Hlt)
          as Hsum.
        fold pm art in Hsum. rewrite Hsum.
        rewrite bool_decide_eq_true_2.
        -- by apply (f_equal Some), Qcplus_opp_r.
        -- apply list_elem_of_fmap. exists (v, c). split; [by rewrite <-Hidx|].
           by eapply list_elem_of_lookup_2.
      * pose proof (presolve_variables_length augmented_model slacks) as Hlen.
        fold pm art in Hlen. rewrite Hlen, Hidx. lia.
  - intros j Hj Hnot.
    pose proof (phase_one_row_at augmented_model slacks Hindexed j) as Hat.
    fold pm art in Hat. rewrite Hat by done.
    rewrite bool_decide_eq_false_2 by done. apply (f_equal Some). ring.
Qed.

(** C5 at the augmented model of example 04, which is well formed. *)
Lemma presolve_initial_tableau_phase_one_witness :
  let model := augmented example_04.create_model in
  let slacks := (slack_pass example_04.create_model).2 in
  let w := mkWorld (mkSolver (Some slacks) None None) [] in
  (_slacks (self w) = Some slacks
   ∧ indexed_by_position (Model.constraints model)
   ∧ constraints_in_scope model)
  ∧ ∃ presolve_model w1 artificial tableau w2 objective_row,
      Solver._create_presolve_model model w = Ok presolve_model w1 ∧
      _artificial (self w1) = Some artificial ∧
      Solver._presolve_initial_tableau presolve_model w1 = Ok tableau w2 ∧
      arrays w2 !! Tableau.table tableau
      = Some (objective_row :: constraint_rows presolve_model) ∧
      (∀ v c, (v, c) ∈ artificial → objective_row !! Var.index v = Some 0%Qc).
Proof.
  intros model slacks w.
  assert (_slacks (self w) = Some slacks) as H1 by reflexivity.
  assert (indexed_by_position (Model.constraints model)) as H2 by (vm_compute; reflexivity).
  assert (constraints_in_scope model) as H3
    by (apply (bool_decide_unpack _); vm_compute; reflexivity).
  split; [done|].
  destruct (presolve_initial_tableau_phase_one model w slacks H1 H2 H3)
    as (pm & w1 & art & t & w2 & row & Hpm & Hart & Ht & _ & Harr & _ & Hzero & _).
  exists pm, w1, art, t, w2, row. split_and!; [done..|].
  intros v c Hin. by destruct (Hzero v c Hin) as (_ & _ & ?).
Defined.

(** ** The augmented model of a well-formed model is well formed *)

Lemma picked_before_lt (sel : Constraint.t → bool) (l : list Constraint.t) k c :
  l !! k = Some c → sel c = true →
  picked_before sel l k < length (filter (λ c, sel c) l).
Proof.
  intros Hk Hc. unfold picked_before.
  rewrite <-(take_drop_middle l k c Hk) at 2.
  rewrite filter_app, filter_cons, Hc, length_app. simpl. lia.
Qed.

Lemma normalized_lookup model k c :
  normalized_constraints model !! k = Some c →
  ∃ c0, Model.constraints model !! k = Some c0
        ∧ c = normalize_bound (Constraint.simplify c0).
Proof.
  unfold normalized_constraints, Model.simplify. simpl.
  rewrite !list_lookup_fmap.
  destruct (Model.constraints model !! k) as [c0|]; [|done].
  intros [= <-]. by exists c0.
Qed.

Lemma augmented_indexed model :
  indexed_by_position (Model.constraints model) →
  indexed_by_position (Model.constraints (augmented model)).
Proof.
  unfold indexed_by_position. intros Hidx. rewrite augmented_length, <-Hidx.
  apply list_eq. intros k. rewrite !list_lookup_fmap.
  destruct (normalized_constraints model !! k) as [c|] eqn:Hk.
  - rewrite augmented_constraints, (surplus_pass_done _ _ _ Hk).
    apply normalized_lookup in Hk as (c0 & -> & ->). simpl.
    unfold normalize_bound. f_equal.
    destruct (ltb _ _); simpl; by destruct (Constraint.type c0).
  - apply lookup_ge_None in Hk. rewrite normalized_constraints_length in Hk.
    rewrite (lookup_ge_None_2 (Model.constraints model)) by done.
    by rewrite lookup_ge_None_2 by (by rewrite augmented_length).
Qed.

Lemma scale_factors_lookup k e i :
  is_Some (Expression.factors (Expression.scale k e) !! i)
  → is_Some (Expression.factors e !! i).
Proof. unfold Expression.scale. simpl. rewrite lookup_fmap. by intros ?%fmap_is_Some. Qed.

Lemma add_factors_lookup e1 e2 i :
  is_Some (Expression.factors (Expression.add e1 e2) !! i)
  → is_Some (Expression.factors e1 !! i) ∨ is_Some (Expression.factors e2 !! i).
Proof.
  unfold Expression.add. simpl. rewrite lookup_union_with.
  destruct (Expression.factors e1 !! i); [by left|].
  destruct (Expression.factors e2 !! i); [by right|]. by intros [? ?].
Qed.

Lemma var_factors_lookup v i :
  is_Some (Expression.factors (Expression.var v) !! i) → i = Var.index v.
Proof.
  unfold Expression.var. simpl. intros [x Hx].
  by apply lookup_singleton_Some in Hx as [-> _].
Qed.

Lemma normalize_bound_factors c0 i :
  is_Some (Expression.factors
             (Constraint.expression (normalize_bound (Constraint.simplify c0))) !! i)
  → is_Some (Expression.factors (Constraint.expression c0) !! i).
Proof.
  unfold normalize_bound. destruct (ltb _ _); simpl; [|done].
  by intros ?%scale_factors_lookup.
Qed.

Lemma augmented_in_scope model :
  constraints_in_scope model → constraints_in_scope (augmented model).
Proof.
  unfold constraints_in_scope. intros Hscope.
  apply Forall_lookup_2. intros k c' Hk'.
  assert (k < length (normalized_constraints model)) as Hlt
    by (apply lookup_lt_Some in Hk';
        by rewrite augmented_length, <-normalized_constraints_length in Hk').
  destruct (lookup_lt_is_Some_2 _ _ Hlt) as [c Hk].
  rewrite augmented_constraints, (surplus_pass_done _ _ _ Hk) in Hk'.
  injection Hk' as <-.
  pose proof (slack_pass_dict_length model) as Hslacks.
  assert (length (surplus_pass model).2
          = length (filter (λ c, is_GE c) (normalized_constraints model))) as Hsurpluses.
  { unfold surplus_pass. by rewrite aux_loop_dict, length_imap, slack_pass_GE_untouched. }
  rewrite augmented_variables, !length_app, !length_fmap.
  destruct (normalized_lookup _ _ _ Hk) as (c0 & Hk0 & Hc).
  assert (∀ i, is_Some (Expression.factors (Constraint.expression c) !! i)
               → i < length (Model.variables model)) as Hold.
  { intros i Hi. rewrite Hc in Hi. apply normalize_bound_factors in Hi as [x Hx].
    rewrite Forall_forall in Hscope.
    exact (Hscope c0 (list_elem_of_lookup_2 _ _ _ Hk0) i x Hx). }
  intros i x Hx. simpl.
  assert (is_Some (Expression.factors (Constraint.expression
    match Constraint.type c with
    | ConstraintType.LE =>
        add_slack c (aux_var "s" (length (Model.variables model))
                       (picked_before is_LE (normalized_constraints model) k) c)
    | ConstraintType.GE =>
        add_surplus c (aux_var "s"
                         (length (Model.variables model) + length (slack_pass model).2)
                         (picked_before is_GE (normalized_constraints model) k) c)
    | ConstraintType.EQ => c
    end) !! i)) as Hi by (by exists x).
  clear Hx. destruct (Constraint.type c) eqn:Hty;
    unfold add_slack, add_surplus, Expression.sub in Hi;
    cbn [Constraint.expression] in Hi.
  - apply add_factors_lookup in Hi as [Hi|Hi]; [apply Hold in Hi; lia|].
    apply var_factors_lookup in Hi as ->. simpl.
    pose proof (picked_before_lt is_LE _ _ _ Hk) as Hp.
    rewrite Hslacks. unfold is_LE at 1 in Hp.
    rewrite bool_decide_eq_true_2 in Hp by done. specialize (Hp eq_refl). lia.
  - apply add_factors_lookup in Hi as [Hi|Hi]; [apply Hold in Hi; lia|].
    apply scale_factors_lookup, var_factors_lookup in Hi as ->. simpl.
    pose proof (picked_before_lt is_GE _ _ _ Hk) as Hp.
    rewrite Hsurpluses. unfold is_GE at 1 in Hp.
    rewrite bool_decide_eq_true_2 in Hp by done. specialize (Hp eq_refl). lia.
  - apply Hold in Hi. lia.
Qed.

(** A constraint of the caller's model that is a [<=] with a negative bound
    is inverted first: it gets a surplus variable, not a slack variable. *)
Lemma inverted_le_gets_surplus model w k c :
  Model.constraints (Model.simplify model) !! k = Some c →
  Constraint.type c = ConstraintType.LE →
  (Constraint.bound c < 0)%Qc →
  ∃ normal_model w0 v,
    Solver._augment_model model w = Ok normal_model w0 ∧
    Model.constraints normal_model !! k = Some (add_surplus (Constraint.invert c) v).
Proof.
  intros Hk Hty Hb.
  assert (normalized_constraints model !! k = Some (Constraint.invert c)) as Hn.
  { unfold normalized_constraints. rewrite list_lookup_fmap, Hk. simpl.
    unfold normalize_bound, ltb. by rewrite bool_decide_eq_true_2. }
  eexists _, _, _. split; [apply _augment_model_run|].
  rewrite augmented_constraints, (surplus_pass_done _ _ _ Hn). simpl.
  by rewrite Hty.
Qed.

(** ** The optimization loop *)

Section loop.
Context `{ops : TableauOps}.

Lemma _presolve_phase_one fuel model w :
  Solver._presolve fuel model w
  = (phase_one fuel model ≫= presolve_finish model) w.
Proof.
  unfold Solver._presolve, phase_one, presolve_finish, mbind, M_bind, mret, M_ret.
  destruct (Solver._create_presolve_model model w) as [pm w1| |]; [|done..].
  destruct (Solver._presolve_initial_tableau pm w1) as [t w2| |]; [|done..].
  by destruct (Solver._optimize fuel t w2) as [b w3| |].
Qed.

Lemma with_array_same w l a :
  arrays w !! l = Some a → with_array w l a = w.
Proof.
  intros Hl. unfold with_array. rewrite list_insert_id by done. by destruct w.
Qed.

Lemma with_array_twice w l a a' :
  with_array (with_array w l a) l a' = with_array w l a'.
Proof. unfold with_array. simpl. by rewrite list_insert_insert_eq. Qed.

Lemma with_array_lookup w l a :
  l < length (arrays w) → arrays (with_array w l a) !! l = Some a.
Proof. intros Hl. unfold with_array. simpl. by rewrite list_lookup_insert_eq. Qed.

(** Enough fuel: the loop follows the pivots and returns [True] at an
    optimal tableau, [False] at one that is unbounded in the entering
    column. *)
Lemma _optimize_run model l k a a' w fuel :
  pivots model k a a' →
  arrays w !! l = Some a →
  k < fuel →
  (is_optimal model a' = true →
   Solver._optimize fuel (Tableau.mk model l) w = Ok true (with_array w l a'))
  ∧ (stuck_unbounded model a' →
     Solver._optimize fuel (Tableau.mk model l) w = Ok false (with_array w l a')).
Proof.
  intros Hp. revert w fuel. induction Hp as [a|k a a' Hopt Hunb Hp IH];
    intros w fuel Hl Hfuel.
  - destruct fuel as [|fuel]; [lia|]. cbn [Solver._optimize Tableau.table Tableau.model].
    erewrite (bind_run (load _)) by (unfold load; by rewrite Hl).
    rewrite with_array_same by done. split.
    + by intros ->.
    + by intros [-> ->].
  - destruct fuel as [|fuel]; [lia|]. cbn [Solver._optimize Tableau.table Tableau.model].
    erewrite (bind_run (load _)) by (unfold load; by rewrite Hl).
    rewrite Hopt, Hunb.
    erewrite (bind_run (store _ _)) by reflexivity.
    fold (with_array w l (pivot model a
      (choose_leaving_variable model a (choose_entering_variable model a))
      (choose_entering_variable model a))).
    destruct (IH (with_array w l (pivot model a
      (choose_leaving_variable model a (choose_entering_variable model a))
      (choose_entering_variable model a))) fuel) as [IH1 IH2].
    + apply with_array_lookup. by eapply lookup_lt_Some.
    + lia.
    + rewrite with_array_twice in IH1, IH2. by split.
Qed.

(** Whatever the loop returns, it got there by pivots on its own array
    and touched nothing else. *)
Lemma _optimize_inv fuel t w b w' :
  Solver._optimize fuel t w = Ok b w' →
  ∃ k a a',
    arrays w !! Tableau.table t = Some a ∧
    pivots (Tableau.model t) k a a' ∧ k < fuel ∧
    w' = with_array w (Tableau.table t) a' ∧
    (if b then is_optimal (Tableau.model t) a' = true
     else stuck_unbounded (Tableau.model t) a').
Proof.
  revert w. induction fuel as [|fuel IH]; intros w H; [done|].
  cbn [Solver._optimize] in H.
  apply bind_Ok in H as (a & w1 & Hload & H).
  unfold load in Hload. destruct (arrays w !! Tableau.table t) as [a0|] eqn:Hl; [|done].
  injection Hload as -> ->.
  destruct (is_optimal (Tableau.model t) a) eqn:Hopt.
  { injection H as <- <-. exists 0, a, a. split_and!; [done|constructor|lia| |done].
    by rewrite with_array_same. }
  destruct (is_unbounded (Tableau.model t) a _) eqn:Hunb.
  { injection H as <- <-. exists 0, a, a. split_and!; [done|constructor|lia| |done].
    by rewrite with_array_same. }
  apply bind_Ok in H as ([] & w2 & Hstore & H). injection Hstore as <-.
  apply IH in H as (k & a1 & a' & Hl1 & Hp & Hk & -> & Hb).
  cbn [arrays] in Hl1. rewrite list_lookup_insert_eq in Hl1 by (by eapply lookup_lt_Some).
  injection Hl1 as <-.
  exists (S k), a, a'. split_and!; [done|by constructor|lia| |done].
  unfold with_array. simpl. by rewrite list_insert_insert_eq.
Qed.
End loop.

(** ** The second phase and the solution *)

Section phases.
Context `{ops : TableauOps}.

Lemma deepcopy_tableau_run t w a :
  arrays w !! Tableau.table t = Some a →
  deepcopy_tableau t w = Ok (copy_of t w) (mkWorld (self w) (arrays w ++ [a])).
Proof.
  intros Hl. unfold deepcopy_tableau.
  erewrite (bind_run (load _)) by (unfold load; by rewrite Hl). done.
Qed.

Lemma solve_from_optimize fuel model t w a :
  arrays w !! Tableau.table t = Some a →
  Solver.solve_from fuel model t w
  = match Solver._optimize fuel t (mkWorld (self w) (arrays w ++ [a])) with
    | Ok true w2 =>
        match arrays w2 !! Tableau.table t with
        | Some a' =>
            Ok (Solution.with_assignment model
                  (extract_assignment (Tableau.model t) a') (copy_of t w) t) w2
        | None => Raise AttributeError
        end
    | Ok false w2 => Ok (Solution.unbounded model (copy_of t w) t) w2
    | Raise e => Raise e
    | Timeout => Timeout
    end.
Proof.
  intros Hl. unfold Solver.solve_from.
  rewrite (bind_run _ _ _ _ _ (deepcopy_tableau_run _ _ _ Hl)).
  unfold mbind, M_bind. destruct (Solver._optimize _ _ _) as [[] w2| |]; try done.
  simpl. unfold load. by destruct (arrays w2 !! Tableau.table t).
Qed.

(** The array of the copy keeps the content the tableau had before the
    loop, whatever the loop does to the tableau's own array. *)
Lemma copy_untouched (w : World) l a a' :
  l < length (arrays w) →
  arrays (with_array (mkWorld (self w) (arrays w ++ [a])) l a') !! length (arrays w)
  = Some a.
Proof.
  intros Hl. unfold with_array. simpl.
  rewrite list_lookup_insert_ne by lia.
  by rewrite lookup_app_r, Nat.sub_diag by lia.
Qed.

Lemma own_array_after (w : World) l a a' :
  l < length (arrays w) →
  arrays (with_array (mkWorld (self w) (arrays w ++ [a])) l a') !! l = Some a'.
Proof.
  intros Hl. unfold with_array. simpl.
  apply list_lookup_insert_eq. rewrite length_app. lia.
Qed.

Lemma solve_reaches_phase_two fuel model w t w1 :
  starts_phase_two fuel model w t w1 →
  Solver.solve fuel model w = Solver.solve_from fuel model t w1.
Proof.
  intros (normal & w0 & slacks & Haug & Hs & Hstart). unfold Solver.solve.
  rewrite (bind_run _ _ _ _ _ Haug).
  erewrite (bind_run get_self) by reflexivity.
  erewrite (bind_run (try _ _)) by (rewrite Hs; reflexivity).
  destruct (Solver.needs_presolve slacks normal).
  - unfold Solver.presolve_path. by rewrite (bind_run _ _ _ _ _ Hstart).
  - unfold Solver.slack_only_path. by rewrite (bind_run _ _ _ _ _ Hstart).
Qed.

(** C8, as amended.  When [solve] has reached the second phase and the
    optimization loop there, after some pivots, selects an entering column
    in which no entry is available for the ratio test, [solve] returns a
    Solution with status unbounded, holding the tableau and a copy of what
    it was before the loop. *)
Theorem unbounded_in_phase_two (fuel : nat) (model : Model.t) (w : World)
    (t : Tableau.t) (w1 : World) (a a' : Matrix) (k : nat) :
  starts_phase_two fuel model w t w1 →
  arrays w1 !! Tableau.table t = Some a →
  pivots (Tableau.model t) k a a' →
  stuck_unbounded (Tableau.model t) a' →
  k < fuel →
  ∃ w',
    Solver.solve fuel model w
    = Ok (Solution.unbounded model (copy_of t w1) t) w' ∧
    Solution.status (Solution.unbounded model (copy_of t w1) t)
    = Status.UNBOUNDED ∧
    arrays w' !! Tableau.table t = Some a' ∧
    arrays w' !! Tableau.table (copy_of t w1) = Some a.
Proof.
  intros Hstart Hl Hp Hstuck Hk.
  pose proof (lookup_lt_Some _ _ _ Hl) as Hlt.
  rewrite (solve_reaches_phase_two _ _ _ _ _ Hstart).
  rewrite (solve_from_optimize _ _ _ _ _ Hl).
  destruct t as [tm l]. simpl in *.
  destruct (_optimize_run tm l k a a' (mkWorld (self w1) (arrays w1 ++ [a])) fuel Hp)
    as [_ Hrun]; [by apply lookup_app_l_Some|done|].
  rewrite (Hrun Hstuck).
  eexists. split_and!; [done..| |].
  - by apply own_array_after.
  - by apply copy_untouched.
Qed.

(** In the first phase the value the loop returns is dropped: what
    [_presolve] does next does not depend on it. *)
Lemma phase_one_result_dropped fuel model w pm w1 t w2 b w3 :
  Solver._create_presolve_model model w = Ok pm w1 →
  Solver._presolve_initial_tableau pm w1 = Ok t w2 →
  Solver._optimize fuel t w2 = Ok b w3 →
  Solver._presolve fuel model w = presolve_finish model t w3.
Proof.
  intros H1 H2 H3. rewrite _presolve_phase_one. unfold phase_one.
  erewrite bind_run; [done|].
  rewrite (bind_run _ _ _ _ _ H1), (bind_run _ _ _ _ _ H2).
  by rewrite (bind_run _ _ _ _ _ H3).
Qed.
End phases.

Section outcomes.
Context `{ops : TableauOps}.

Lemma any_positive_true assignment (artificial : Dict) :
  Solver.any_positive assignment artificial = Some true →
  some_artificial_positive assignment artificial.
Proof.
  induction artificial as [|[v c] rest IH]; [done|]. cbn [Solver.any_positive].
  destruct (assignment !! Var.index v) as [x|] eqn:Hx; [|done]. simpl.
  unfold ltb. case_bool_decide as Hpos.
  - intros _. apply Exists_cons_hd. unfold at_col. cbn [fst]. by rewrite Hx.
  - intros H. by apply Exists_cons_tl, IH.
Qed.

Lemma any_positive_in_range assignment (artificial : Dict) :
  Forall (λ p, Var.index p.1 < length assignment) artificial →
  ∃ b, Solver.any_positive assignment artificial = Some b
       ∧ (b = true ↔ some_artificial_positive assignment artificial).
Proof.
  induction 1 as [|[v c] rest Hv _ (b & IH & Hb)].
  - exists false. split; [done|]. split; [done|by intros ?%Exists_nil].
  - cbn [Solver.any_positive fst] in *.
    destruct (lookup_lt_is_Some_2 _ _ Hv) as [x Hx]. rewrite Hx. simpl.
    unfold ltb. case_bool_decide as Hpos.
    + exists true. split; [done|]. split; [|done].
      intros _. apply Exists_cons_hd. unfold at_col. cbn [fst]. by rewrite Hx.
    + exists b. split; [done|]. rewrite Hb. unfold some_artificial_positive.
      rewrite Exists_cons. unfold at_col at 2. simpl. rewrite Hx. simpl. tauto.
Qed.

Lemma _artifical_variables_are_positive_run t w a artificial :
  arrays w !! Tableau.table t = Some a →
  _artificial (self w) = Some artificial →
  Solver._artifical_variables_are_positive t w
  = match Solver.any_positive (extract_assignment (Tableau.model t) a) artificial with
    | Some b => Ok b w
    | None => Raise IndexError
    end.
Proof.
  intros Hl Hart. unfold Solver._artifical_variables_are_positive.
  erewrite (bind_run (load _)) by (unfold load; by rewrite Hl).
  erewrite (bind_run get_self) by reflexivity.
  erewrite (bind_run (try _ _)) by (rewrite Hart; reflexivity).
  by destruct (Solver.any_positive _ _).
Qed.

Lemma _artifical_variables_are_positive_inv t w b w' :
  Solver._artifical_variables_are_positive t w = Ok b w' →
  w' = w ∧ ∃ a artificial,
    arrays w !! Tableau.table t = Some a ∧
    _artificial (self w) = Some artificial ∧
    Solver.any_positive (extract_assignment (Tableau.model t) a) artificial = Some b.
Proof.
  unfold Solver._artifical_variables_are_positive. intros H.
  apply bind_Ok in H as (a & w1 & Hload & H).
  unfold load in Hload. destruct (arrays w !! Tableau.table t) as [a0|] eqn:Hl; [|done].
  injection Hload as -> ->.
  apply bind_Ok in H as (s & w2 & [= <- <-] & H).
  apply bind_Ok in H as (art & w3 & [Hart ->]%try_Ok & [Hany ->]%try_Ok).
  split; [done|]. by exists a, art.
Qed.

Lemma solve_from_inv fuel model t w sol w' :
  Solver.solve_from fuel model t w = Ok sol w' →
  Solution.status sol ≠ Status.INFEASIBLE ∧
  Solution.tableau sol = t ∧
  Solution.initial_tableau sol = copy_of t w ∧
  ∃ a, arrays w !! Tableau.table t = Some a ∧
       arrays w' !! Tableau.table (copy_of t w) = Some a.
Proof.
  intros H. destruct (arrays w !! Tableau.table t) as [a|] eqn:Hl.
  - rewrite (solve_from_optimize _ _ _ _ _ Hl) in H.
    destruct (Solver._optimize _ _ _) as [b w2| |] eqn:Hopt; [|by destruct t..].
    apply _optimize_inv in Hopt as (k & a1 & a' & _ & _ & _ & -> & _).
    pose proof (lookup_lt_Some _ _ _ Hl) as Hlt.
    assert (Solution.status sol ≠ Status.INFEASIBLE ∧ Solution.tableau sol = t
            ∧ Solution.initial_tableau sol = copy_of t w
            ∧ w' = with_array (mkWorld (self w) (arrays w ++ [a])) (Tableau.table t) a')
      as (? & ? & ? & ->).
    { destruct b.
      - destruct (arrays _ !! _); [|done]. by injection H as <- <-.
      - by injection H as <- <-. }
    split_and!; [done..|]. exists a. split; [done|]. by apply copy_untouched.
  - unfold Solver.solve_from, deepcopy_tableau in H.
    apply bind_Ok in H as (? & ? & H & _).
    apply bind_Ok in H as (? & ? & H & _). unfold load in H. by rewrite Hl in H.
Qed.

Lemma presolve_finish_inv model t w t' b w' :
  presolve_finish model t w = Ok (t', b) w' →
  if b then
    Solver._artifical_variables_are_positive t w = Ok false w ∧
    Solver._restore_initial_tableau t model w = Ok t' w'
  else
    Solver._artifical_variables_are_positive t w = Ok true w ∧ t' = t ∧ w' = w.
Proof.
  unfold presolve_finish. intros H.
  apply bind_Ok in H as (pos & w1 & Hpos & H).
  pose proof (_artifical_variables_are_positive_inv _ _ _ _ Hpos) as [-> _].
  destruct pos.
  - by injection H as <- <- <-.
  - apply bind_Ok in H as (t2 & w2 & Hrest & [= <- <- <-]). done.
Qed.

Lemma phase_one_bind {B} fuel model (f : Tableau.t → M B) w t w3 :
  phase_one fuel model w = Ok t w3 →
  (phase_one fuel model ≫= f) w = f t w3.
Proof. apply bind_run. Qed.

End outcomes.

Section infeasibility.
Context `{ops : TableauOps}.

Lemma solve_takes_presolve_path fuel model w :
  existsb ends_without_slack (Model.constraints (Model.simplify model)) = true →
  ∃ w0, Solver._augment_model model w = Ok (augmented model) w0 ∧
        Solver.solve fuel model w
        = Solver.presolve_path fuel model (augmented model) w0.
Proof.
  intros Hex. eexists. split; [apply _augment_model_run|].
  by rewrite solve_branches, Hex.
Qed.

(** C6, as amended.  Once the loop of the first phase has halted, [solve]
    returns a Solution with status infeasible if and only if some
    artificial variable is strictly greater than 0 in the assignment
    extracted from the tableau; the comparison is with 0, no tolerance
    enters.  The infeasible outcome is the value returned, holding the
    tableau of the first phase, and the state is the one the loop left. *)
Theorem infeasible_iff_artificial_positive (fuel : nat) (model : Model.t)
    (w w0 : World) (normal_model : Model.t) (t : Tableau.t) (w3 : World)
    (artificial : Dict) (a : Matrix) :
  Solver._augment_model model w = Ok normal_model w0 →
  existsb ends_without_slack (Model.constraints (Model.simplify model)) = true →
  phase_one fuel normal_model w0 = Ok t w3 →
  _artificial (self w3) = Some artificial →
  arrays w3 !! Tableau.table t = Some a →
  Forall (λ p, Var.index p.1 < length (extract_assignment (Tableau.model t) a))
         artificial →
  ((∃ sol w', Solver.solve fuel model w = Ok sol w'
              ∧ Solution.status sol = Status.INFEASIBLE)
   ↔ some_artificial_positive (extract_assignment (Tableau.model t) a) artificial)
  ∧ (some_artificial_positive (extract_assignment (Tableau.model t) a) artificial →
     Solver.solve fuel model w = Ok (Solution.infeasible model t t) w3).
Proof.
  intros Haug Hex Hone Hart Hl Hrange.
  destruct (solve_takes_presolve_path fuel model w Hex) as (w0' & Haug' & Hsolve).
  rewrite Haug in Haug'. injection Haug' as -> <-.
  rewrite Hsolve. unfold Solver.presolve_path.
  assert (Solver._presolve fuel (augmented model) w0
          = presolve_finish (augmented model) t w3) as Hpre
    by (rewrite _presolve_phase_one; by apply phase_one_bind).
  destruct (any_positive_in_range _ _ Hrange) as (b & Hany & Hb).
  pose proof (_artifical_variables_are_positive_run _ _ _ _ Hl Hart) as Hpos.
  rewrite Hany in Hpos.
  assert (some_artificial_positive (extract_assignment (Tableau.model t) a) artificial →
          (Solver._presolve fuel (augmented model) ≫=
             (λ '(tableau, success),
                if negb success then mret (Solution.infeasible model tableau tableau)
                else Solver.solve_from fuel model tableau)) w0
          = Ok (Solution.infeasible model t t) w3) as Hinf.
  { intros Hp. apply Hb in Hp as ->.
    erewrite bind_run; last first.
    { rewrite Hpre. unfold presolve_finish. by rewrite (bind_run _ _ _ _ _ Hpos). }
    done. }
  split; [|done]. split.
  - intros (sol & w' & Hrun & Hst).
    apply bind_Ok in Hrun as ([t' success] & w1 & Hp & Hrun).
    rewrite Hpre in Hp. apply presolve_finish_inv in Hp.
    destruct success.
    + simpl in Hrun. by apply solve_from_inv in Hrun as [? _].
    + destruct Hp as (Hp & _). rewrite Hpos in Hp. injection Hp as ->. by apply Hb.
  - intros Hp. eexists _, _. split; [by apply Hinf|done].
Qed.
End infeasibility.

(** ** Restoring the tableau of the second phase *)

Lemma delete_entries_from (k n c : nat) (row : list num) :
  (filter (λ p, p.1 ∉ seq n c) (imap (λ i x, (k + i, x)) row)).*2
  = take (n - k) row ++ drop (n + c - k) row.
Proof.
  revert k. induction row as [|x row IH]; intros k.
  - by rewrite take_nil, drop_nil.
  - rewrite imap_cons, filter_cons. cbn [fst].
    rewrite (imap_ext _ (λ i y, (S k + i, y)))
      by (intros i y _; simpl; f_equal; lia).
    rewrite Nat.add_0_r. case_decide as Hk.
    + rewrite fmap_cons, IH. cbn [snd]. rewrite elem_of_seq in Hk.
      destruct (decide (k < n)).
      * replace (n - k) with (S (n - S k)) by lia.
        replace (n + c - k) with (S (n + c - S k)) by lia. done.
      * replace (n - k) with 0 by lia. replace (n - S k) with 0 by lia.
        replace (n + c - k) with 0 by lia. replace (n + c - S k) with 0 by lia. done.
    + rewrite IH. rewrite elem_of_seq in Hk.
      replace (n - k) with 0 by lia. replace (n - S k) with 0 by lia.
      replace (n + c - k) with (S (n + c - S k)) by lia. done.
Qed.

(** Deleting the columns [n], ..., [n + c - 1] from a row. *)
Lemma delete_entries_seq (n c : nat) (row : list num) :
  np.delete_entries (seq n c) row = take n row ++ drop (n + c) row.
Proof.
  unfold np.delete_entries.
  rewrite (imap_ext pair (λ i x, (0 + i, x))) by done.
  by rewrite delete_entries_from, !Nat.sub_0_r.
Qed.

Lemma delete_entries_seq_length (n c : nat) (row : list num) :
  length row = n + c + 1 → length (np.delete_entries (seq n c) row) = n + 1.
Proof.
  intros Hlen. rewrite delete_entries_seq, length_app, length_take, length_drop. lia.
Qed.

Lemma foldl_maxq_in x (xs : list num) : foldl np.maxq x xs ∈ x :: xs.
Proof.
  revert x. induction xs as [|y xs IH]; intros x; [apply list_elem_of_here|].
  simpl. specialize (IH (np.maxq x y)). apply elem_of_cons in IH as [->|IH].
  - unfold np.maxq. destruct (ltb x y).
    + apply list_elem_of_further, list_elem_of_here.
    + apply list_elem_of_here.
  - by do 2 apply list_elem_of_further.
Qed.

Lemma first_index_lt x (col : list num) :
  x ∈ col → np.first_index x col < length col.
Proof.
  induction col as [|y col IH]; [by intros ?%elem_of_nil|].
  intros Hin. simpl. unfold eqb. case_bool_decide as Hy; [lia|].
  apply elem_of_cons in Hin as [->|Hin]; [done|]. specialize (IH Hin). lia.
Qed.

Lemma argmax_lt (col : list num) : col ≠ [] → np.argmax col < length col.
Proof.
  intros Hcol. apply first_index_lt. destruct col as [|x xs]; [done|].
  apply foldl_maxq_in.
Qed.

(** The loop of step 3 runs through when the table has enough rows and
    columns; it rewrites the objective row only. *)
Lemma restore_loop_run (obj : list num) (rows : list (list num)) i
    (columns : list (list num)) :
  i + length columns ≤ length obj →
  Forall (λ r, length obj ≤ length r) rows →
  Forall (λ col, col ≠ [] ∧ length col ≤ length rows) columns →
  ∃ obj', Solver.restore_loop (obj :: rows) i columns = Some (obj' :: rows)
          ∧ length obj' = length obj.
Proof.
  revert obj i. induction columns as [|col rest IH]; intros obj i Hi Hrows Hcols.
  - by exists obj.
  - apply Forall_cons in Hcols as [[Hne Hlen] Hrest]. simpl in Hi.
    cbn [Solver.restore_loop].
    destruct (eqb (np.amax col) 1%Qc && eqb (np.amin col) 0%Qc).
    + unfold np.item. cbn [lookup list_lookup mbind option_bind].
      destruct (lookup_lt_is_Some_2 obj i) as [k Hk]; [lia|]. rewrite Hk. simpl.
      rewrite Nat.add_1_r. simpl.
      pose proof (argmax_lt col Hne) as Harg.
      destruct (lookup_lt_is_Some_2 rows (np.argmax col)) as [row Hrow]; [lia|].
      rewrite Hrow. simpl.
      assert (length (np.sub_row obj (np.scale_row k row)) = length obj) as Hlen'.
      { unfold np.sub_row, np.scale_row. rewrite length_zip_with, length_fmap.
        rewrite Forall_forall in Hrows.
        specialize (Hrows row (list_elem_of_lookup_2 _ _ _ Hrow)). simpl in Hrows. lia. }
      destruct (IH (np.sub_row obj (np.scale_row k row)) (S i)) as (obj' & Hrun & Hobj').
      * rewrite Hlen'. lia.
      * by rewrite Hlen'.
      * done.
      * exists obj'. split; [done|]. by rewrite Hobj'.
    + apply IH; [lia|done..].
Qed.

Section restore.
Context `{ops : TableauOps}.

Lemma _restore_initial_tableau_run (t : Tableau.t) (model : Model.t) (w : World)
    (artificial : Dict) (a : Matrix) :
  let n := length (Model.variables model) in
  _artificial (self w) = Some artificial →
  arrays w !! Tableau.table t = Some a →
  (λ p, Var.index p.1) <$> artificial = seq n (length artificial) →
  2 ≤ length a →
  Forall (λ r, length r = n + length artificial + 1) a →
  ∃ objective_row,
    Solver._restore_initial_tableau t model w
    = Ok (Tableau.mk (Tableau.model t) (length (arrays w)))
         (mkWorld (self w)
            (arrays w ++ [objective_row
                          :: (np.delete_entries (seq n (length artificial))
                                <$> drop 1 a)])) ∧
    length objective_row = n + 1.
Proof.
  intros n Hart Hl Hcols Hrows Hrect.
  destruct a as [|r0 [|r1 rows]]; simpl in Hrows; [lia..|].
  apply Forall_cons in Hrect as [Hr0 Hrect].
  set (cols := seq n (length artificial)) in *.
  set (new_rows := np.delete_entries cols <$> r1 :: rows).
  set (objective :=
    coefficients (Expression.scale (-1)%Qc
                    (Objective.expression (Model.objective model))) model ++ [0%Qc]).
  assert (length objective = n + 1) as Hobj
    by (unfold objective; rewrite length_app, coefficients_length; done).
  assert (Forall (λ r, length objective ≤ length r) new_rows) as Hnew.
  { unfold new_rows. apply Forall_fmap. eapply Forall_impl; [exact Hrect|].
    intros r Hr. simpl. unfold cols. rewrite delete_entries_seq_length by done. lia. }
  destruct (restore_loop_run objective new_rows 0
              ((λ j, (λ row, default 0%Qc (row !! j)) <$> new_rows)
                 <$> seq 0 (length (np.delete_entries cols r1))))
    as (obj' & Hloop & Hobj').
  { rewrite length_fmap, length_seq. unfold cols.
    apply Forall_cons in Hrect as [Hr1 _].
    rewrite delete_entries_seq_length by done. lia. }
  { done. }
  { apply Forall_fmap, Forall_forall. intros j _. simpl.
    rewrite length_fmap. split; [|unfold new_rows; rewrite length_fmap; simpl; lia].
    done. }
  exists obj'. split; [|lia].
  unfold Solver._restore_initial_tableau.
  erewrite (bind_run get_self) by reflexivity.
  erewrite (bind_run (try _ _)) by (rewrite Hart; reflexivity).
  erewrite (bind_run (load _)) by (unfold load; by rewrite Hl).
  rewrite Hcols. fold cols.
  erewrite (bind_run (try _ _)); last first.
  { unfold np.delete. rewrite decide_True; [reflexivity|].
    unfold np.ncols. simpl. rewrite Hr0. apply Forall_forall.
    intros j Hj. unfold cols in Hj. apply elem_of_seq in Hj. lia. }
  erewrite (bind_run (try _ _)); last first.
  { unfold np.set_row. rewrite fmap_cons. simpl.
    rewrite decide_True; [reflexivity|].
    fold objective. unfold cols. rewrite delete_entries_seq_length by done. lia. }
  erewrite (bind_run (try _ _)) by reflexivity.
  fold objective. fold new_rows.
  erewrite (bind_run (try _ _)) by (apply try_Ok; split; [exact Hloop|reflexivity]).
  done.
Qed.

(** C10.  When the loop of the first phase has halted and every artificial
    variable is at most 0 in the extracted assignment, [_presolve] reports
    success, whatever the basis is: the constraint rows of the tableau it
    returns are those of the first phase with the columns of all artificial
    variables deleted, so that a row whose basic variable was an artificial
    variable at 0 enters the second phase without its basic column. *)
Theorem presolve_succeeds_with_zero_artificials (fuel : nat)
    (normal_model : Model.t) (w0 : World) (t : Tableau.t) (w3 : World)
    (artificial : Dict) (a : Matrix) :
  let n := length (Model.variables normal_model) in
  phase_one fuel normal_model w0 = Ok t w3 →
  _artificial (self w3) = Some artificial →
  arrays w3 !! Tableau.table t = Some a →
  Forall (λ p, ∃ x, extract_assignment (Tableau.model t) a !! Var.index p.1 = Some x
                    ∧ (x ≤ 0)%Qc) artificial →
  (λ p, Var.index p.1) <$> artificial = seq n (length artificial) →
  2 ≤ length a →
  Forall (λ r, length r = n + length artificial + 1) a →
  ∃ t' w4 objective_row,
    Solver._presolve fuel normal_model w0 = Ok (t', true) w4 ∧
    arrays w4 !! Tableau.table t'
    = Some (objective_row
            :: (np.delete_entries ((λ p, Var.index p.1) <$> artificial) <$> drop 1 a)) ∧
    length objective_row = n + 1 ∧
    Forall (λ row, np.delete_entries ((λ p, Var.index p.1) <$> artificial) row
                   = take n row ++ drop (n + length artificial) row) (drop 1 a).
Proof.
  intros n Hone Hart Hl Hzero Hcols Hrows Hrect.
  destruct (_restore_initial_tableau_run t normal_model w3 artificial a
              Hart Hl Hcols Hrows Hrect) as (obj & Hrest & Hobj).
  assert (Solver.any_positive (extract_assignment (Tableau.model t) a) artificial
          = Some false) as Hany.
  { clear -Hzero. induction Hzero as [|[v c] rest (x & Hx & Hle) _ IH]; [done|].
    cbn [Solver.any_positive fst] in *. rewrite Hx. simpl.
    unfold ltb. rewrite bool_decide_eq_false_2; [done|]. by apply Qcle_not_lt. }
  eexists _, _, obj. split_and!.
  - rewrite _presolve_phase_one, (phase_one_bind _ _ _ _ _ _ Hone).
    unfold presolve_finish.
    erewrite bind_run; last first.
    { rewrite (_artifical_variables_are_positive_run _ _ _ _ Hl Hart), Hany.
      reflexivity. }
    cbv iota. by rewrite (bind_run _ _ _ _ _ Hrest).
  - cbn [arrays Tableau.table]. rewrite Hcols.
    by rewrite lookup_app_r, Nat.sub_diag by lia.
  - done.
  - rewrite Hcols. apply Forall_forall. intros row _. apply delete_entries_seq.
Qed.
End restore.


(** C10 on a model with a redundant equality: the first phase ends with an
    artificial variable basic at 0. *)
Lemma presolve_succeeds_with_zero_artificials_witness :
  let normal_model := augmented models.redundant in
  let n := length (Model.variables normal_model) in
  ∃ w0 t w3 artificial a,
    (phase_one (ops := reference_ops) 5 normal_model w0 = Ok t w3
     ∧ _artificial (self w3) = Some artificial
     ∧ arrays w3 !! Tableau.table t = Some a
     ∧ Forall (λ p, ∃ x, extract_assignment (TableauOps := reference_ops)
                           (Tableau.model t) a !! Var.index p.1 = Some x
                         ∧ (x ≤ 0)%Qc) artificial
     ∧ (λ p, Var.index p.1) <$> artificial = seq n (length artificial)
     ∧ 2 ≤ length a
     ∧ Forall (λ r, length r = n + length artificial + 1) a)
    ∧ ∃ t' w4 objective_row,
        Solver._presolve (ops := reference_ops) 5 normal_model w0 = Ok (t', true) w4 ∧
        arrays w4 !! Tableau.table t'
        = Some (objective_row
                :: (np.delete_entries ((λ p, Var.index p.1) <$> artificial)
                      <$> drop 1 a)).
Proof.
  intros normal_model n.
  exists (mkWorld (mkSolver (Some (slack_pass models.redundant).2) None None) []).
  eexists _, _, _, _.
  assert (∀ P Q : Prop, P → (P → Q) → P ∧ Q) as Hand by tauto.
  apply Hand.
  - split; [vm_compute; reflexivity|].
    split; [reflexivity|].
    split; [reflexivity|].
    split.
    { repeat apply Forall_cons_2; [| |apply Forall_nil_2];
        eexists; (split; [vm_compute; reflexivity|vm_compute; discriminate]). }
    split; [vm_compute; reflexivity|].
    split; [simpl; lia|].
    apply (bool_decide_unpack _); vm_compute; reflexivity.
  - intros (H1 & H2 & H3 & H4 & H5 & H6 & H7).
    destruct (presolve_succeeds_with_zero_artificials _ _ _ _ _ _ _ H1 H2 H3 H4 H5 H6 H7)
      as (t' & w4 & obj & Hrun & Harr & _).
    exists t', w4, obj. exact (conj Hrun Harr).
Defined.

(** ** Concrete runs *)

(** C1.  spec scenario 1: the solver run on the model of example 04 with any
    fuel of at least 2 returns an optimal Solution whose assignment of the
    original variables is [10, 0] and whose objective value is 20. *)
Theorem example_04_solved (extra : nat) :
  ∃ solution w,
    Solver.solve (ops := reference_ops) (2 + extra) example_04.create_model fresh
    = Ok solution w
    ∧ Solution.status solution = Status.OPTIMAL
    ∧ Solution.assignment solution example_04.create_model
      = [num_of_Z 10; num_of_Z 0]
    ∧ Solution.objective_value solution = num_of_Z 20.
Proof.
  remember (Solver.solve _ _ _) as r eqn:E.
  vm_compute in E. subst r.
  eexists _, _. split; [reflexivity|].
  split; [reflexivity|].
  split; apply (bool_decide_unpack _); vm_compute; reflexivity.
Qed.

(** C2, the claim as stated fails: the only constraint of the model is a
    [<=], yet the test of line 38 sends [solve] through the presolve, which
    creates an artificial variable. *)
Lemma all_le_model_runs_presolve :
  forallb is_LE (Model.constraints (Model.simplify models.negative_bound)) = true
  ∧ ∃ normal_model w0 slacks sol w',
      Solver._augment_model models.negative_bound fresh = Ok normal_model w0 ∧
      _slacks (self w0) = Some slacks ∧
      Solver.needs_presolve slacks normal_model = true ∧
      Solver.solve (ops := reference_ops) 10 models.negative_bound fresh = Ok sol w' ∧
      _artificial (self w0) = None ∧
      is_Some (_artificial (self w')).
Proof.
  split; [vm_compute; reflexivity|].
  eexists _, _, _, _, _.
  split; [vm_compute; reflexivity|].
  split; [reflexivity|].
  split; [vm_compute; reflexivity|].
  split; [vm_compute; reflexivity|].
  split; [reflexivity|]. eexists. reflexivity.
Qed.

(** The converse direction fails as well: a model with a [>=] constraint
    whose bound is negative takes the slack-only path. *)
Lemma ge_model_skips_presolve :
  existsb is_GE (Model.constraints (Model.simplify models.negative_lower_bound)) = true
  ∧ ∃ normal_model w0 slacks,
      Solver._augment_model models.negative_lower_bound fresh = Ok normal_model w0 ∧
      _slacks (self w0) = Some slacks ∧
      Solver.needs_presolve slacks normal_model = false.
Proof.
  split; [vm_compute; reflexivity|].
  eexists _, _, _.
  split; [vm_compute; reflexivity|].
  split; [reflexivity|]. vm_compute; reflexivity.
Qed.

(** C3, the claim as stated fails: slack or surplus goes by the relation a
    constraint has after the inversion of the negative bounds, not by the
    relation it had in the caller's model.  The constraint x1 <= -1 is a
    [<=] in the caller's model; the augmented model holds it as
    -x1 - s0 = 1, with s0 recorded as a surplus variable and no slack
    variable at all.  The constraint x1 >= -5 is a [>=] in the caller's
    model; the augmented model holds it as -x1 + s0 = 5, with s0 recorded
    as a slack variable and no surplus variable at all. *)
Lemma originally_le_gets_surplus :
  (Constraint.type <$> Model.constraints (Model.simplify models.negative_bound)
   = [ConstraintType.LE]
   ∧ ∃ normal_model w0 s c,
       Solver._augment_model models.negative_bound fresh = Ok normal_model w0 ∧
       _slacks (self w0) = Some [] ∧
       _surpluses (self w0) = Some [(s, c)] ∧
       Model.constraints normal_model = [c] ∧
       Constraint.type c = ConstraintType.EQ ∧
       Expression.coefficient (Constraint.expression c) (Var.index models.x1)
       = num_of_Z (-1) ∧
       Expression.coefficient (Constraint.expression c) (Var.index s)
       = num_of_Z (-1) ∧
       Constraint.bound c = num_of_Z 1)
  ∧ (Constraint.type <$> Model.constraints (Model.simplify models.negative_lower_bound)
     = [ConstraintType.GE]
     ∧ ∃ normal_model w0 s c,
         Solver._augment_model models.negative_lower_bound fresh = Ok normal_model w0 ∧
         _slacks (self w0) = Some [(s, c)] ∧
         _surpluses (self w0) = Some [] ∧
         Model.constraints normal_model = [c] ∧
         Constraint.type c = ConstraintType.EQ ∧
         Expression.coefficient (Constraint.expression c) (Var.index models.x1)
         = num_of_Z (-1) ∧
         Expression.coefficient (Constraint.expression c) (Var.index s)
         = num_of_Z 1 ∧
         Constraint.bound c = num_of_Z 5).
Proof.
  split; (split; [vm_compute; reflexivity|]); eexists _, _, _, _;
    (split; [vm_compute; reflexivity|]);
    (split; [reflexivity|]); (split; [reflexivity|]);
    (split; [reflexivity|]); (split; [reflexivity|]);
    (split; [apply (bool_decide_unpack _); vm_compute; reflexivity|]);
    (split; apply (bool_decide_unpack _); vm_compute; reflexivity).
Qed.

(** C6, the claim as stated fails: here [solve] reports infeasible although
    no artificial variable exceeds the tolerance in the final assignment of
    the first phase (one of them is 5e-10, the tolerance is 1e-9). *)
Lemma infeasible_below_tolerance :
  ∃ sol w' artificial a,
    Solver.solve (ops := reference_ops) 10 models.nearly_feasible fresh = Ok sol w' ∧
    Solution.status sol = Status.INFEASIBLE ∧
    _artificial (self w') = Some artificial ∧
    arrays w' !! Tableau.table (Solution.tableau sol) = Some a ∧
    ¬ some_artificial_exceeds SpecTableau.epsilon
        (extract_assignment (TableauOps := reference_ops)
           (Tableau.model (Solution.tableau sol)) a)
        artificial.
Proof.
  eexists _, _, _, _.
  split; [vm_compute; reflexivity|].
  split; [reflexivity|].
  split; [reflexivity|].
  split; [reflexivity|].
  unfold some_artificial_exceeds. apply (bool_decide_unpack _). vm_compute; reflexivity.
Qed.

(** C8, the claim as stated fails in the first phase: the loop of the first
    phase finds the entering column without an entry for the ratio test at
    once, and [solve] reports infeasible, not unbounded. *)
Lemma unbounded_in_phase_one_not_reported :
  ∃ normal_model w0 presolve_model w1 t w2 a sol w',
    Solver._augment_model models.tiny_coefficients fresh = Ok normal_model w0 ∧
    Solver._create_presolve_model normal_model w0 = Ok presolve_model w1 ∧
    Solver._presolve_initial_tableau presolve_model w1 = Ok t w2 ∧
    arrays w2 !! Tableau.table t = Some a ∧
    stuck_unbounded (ops := reference_ops) (Tableau.model t) a ∧
    Solver.solve (ops := reference_ops) 10 models.tiny_coefficients fresh = Ok sol w' ∧
    Solution.status sol = Status.INFEASIBLE.
Proof.
  eexists _, _, _, _, _, _, _, _, _.
  split; [vm_compute; reflexivity|].
  split; [vm_compute; reflexivity|].
  split; [vm_compute; reflexivity|].
  split; [reflexivity|].
  split; [split; vm_compute; reflexivity|].
  split; [vm_compute; reflexivity|]. reflexivity.
Qed.


(** C8, the amended statement on a model that is unbounded after one pivot
    of the second phase. *)
Lemma unbounded_in_phase_two_witness :
  ∃ t w1 a a',
    (starts_phase_two (ops := reference_ops) 5 models.unbounded fresh t w1
     ∧ arrays w1 !! Tableau.table t = Some a
     ∧ pivots (ops := reference_ops) (Tableau.model t) 1 a a'
     ∧ stuck_unbounded (ops := reference_ops) (Tableau.model t) a'
     ∧ 1 < 5)
    ∧ ∃ w',
        Solver.solve (ops := reference_ops) 5 models.unbounded fresh
        = Ok (Solution.unbounded models.unbounded (copy_of t w1) t) w' ∧
        arrays w' !! Tableau.table t = Some a' ∧
        arrays w' !! Tableau.table (copy_of t w1) = Some a.
Proof.
  eexists _, _, _, _.
  assert (∀ P Q : Prop, P → (P → Q) → P ∧ Q) as Hand by tauto.
  apply Hand.
  - split.
    { eexists _, _, _. split; [vm_compute; reflexivity|].
      split; [reflexivity|]. vm_compute. reflexivity. }
    split; [reflexivity|].
    split; [|split; [|lia]].
    + apply pivots_S; [vm_compute; reflexivity..|]. apply pivots_O.
    + split; vm_compute; reflexivity.
  - intros (H1 & H2 & H3 & H4 & H5).
    destruct (unbounded_in_phase_two _ _ _ _ _ _ _ _ H1 H2 H3 H4 H5)
      as (w' & Hrun & _ & Ha' & Ha).
    exists w'. exact (conj Hrun (conj Ha' Ha)).
Defined.

(** C6, the amended statement on an infeasible model. *)
Lemma infeasible_iff_artificial_positive_witness :
  ∃ normal_model w0 t w3 artificial a,
    (Solver._augment_model models.infeasible fresh = Ok normal_model w0
     ∧ existsb ends_without_slack
         (Model.constraints (Model.simplify models.infeasible)) = true
     ∧ phase_one (ops := reference_ops) 5 normal_model w0 = Ok t w3
     ∧ _artificial (self w3) = Some artificial
     ∧ arrays w3 !! Tableau.table t = Some a
     ∧ Forall (λ p, Var.index p.1
                    < length (extract_assignment (TableauOps := reference_ops)
                                (Tableau.model t) a))
              artificial)
    ∧ ((∃ sol w', Solver.solve (ops := reference_ops) 5 models.infeasible fresh
                  = Ok sol w'
                  ∧ Solution.status sol = Status.INFEASIBLE)
       ↔ some_artificial_positive
           (extract_assignment (TableauOps := reference_ops) (Tableau.model t) a)
           artificial).
Proof.
  eexists _, _, _, _, _, _.
  assert (∀ P Q : Prop, P → (P → Q) → P ∧ Q) as Hand by tauto.
  apply Hand.
  - split; [vm_compute; reflexivity|].
    split; [vm_compute; reflexivity|].
    split; [vm_compute; reflexivity|].
    split; [reflexivity|].
    split; [reflexivity|].
    apply (bool_decide_unpack _). vm_compute. reflexivity.
  - intros (H1 & H2 & H3 & H4 & H5 & H6).
    exact (proj1 (infeasible_iff_artificial_positive _ _ _ _ _ _ _ _ _
                    H1 H2 H3 H4 H5 H6)).
Defined.


(** C7, the code departs from the claim.  On this model the first phase ends
    with x1 basic in the first constraint row.  Step 3 of
    [_restore_initial_tableau] takes the column of x2, whose entries in the
    constraint rows are 1, 1, 0, for a basic unit column because its largest
    entry is 1 and its least is 0, and eliminates over it as well: the
    restored objective row is [2, 0, 0, 0, 0, 6] and has a non-zero entry in
    the column of the basic variable x1, where the elimination over the
    basic unit columns gives [0, -2, 0, 0, 0, 2].  The row has no negative
    entry, so the second phase stops at once, and [solve] returns, as
    optimal, the assignment [0, 0, 0], which violates x1 + x2 = 2. *)
Theorem restore_mistakes_unit_column :
  ∃ normal_model w0 t w3 final artificial t' w4 restored described sol w',
    Solver._augment_model models.mistaken_unit_column fresh = Ok normal_model w0 ∧
    phase_one (ops := reference_ops) 5 normal_model w0 = Ok t w3 ∧
    arrays w3 !! Tableau.table t = Some final ∧
    _artificial (self w3) = Some artificial ∧
    SpecTableau.basic_row SpecTableau.epsilon final 0 = Some 1 ∧
    Solver._restore_initial_tableau t normal_model w3 = Ok t' w4 ∧
    arrays w4 !! Tableau.table t' = Some restored ∧
    restore_as_described final ((λ p, Var.index p.1) <$> artificial)
      (restored_objective normal_model) = Some described ∧
    head restored = Some (num_of_Z <$> [2; 0; 0; 0; 0; 6]%Z) ∧
    head described = Some (num_of_Z <$> [0; -2; 0; 0; 0; 2]%Z) ∧
    drop 1 restored = drop 1 described ∧
    Solver.solve (ops := reference_ops) 5 models.mistaken_unit_column fresh
    = Ok sol w' ∧
    Solution.status sol = Status.OPTIMAL ∧
    Solution.assignment sol models.mistaken_unit_column
    = num_of_Z <$> [0; 0; 0]%Z ∧
    Expression.evaluate
      (Expression.add (Expression.var models.x1) (Expression.var models.x2))
      (Solution.assignment sol models.mistaken_unit_column)
    ≠ num_of_Z 2.
Proof.
  eexists _, _, _, _, _, _, _, _, _, _, _, _.
  split; [vm_compute; reflexivity|].
  split; [vm_compute; reflexivity|].
  split; [reflexivity|].
  split; [reflexivity|].
  split; [vm_compute; reflexivity|].
  split; [vm_compute; reflexivity|].
  split; [reflexivity|].
  split; [vm_compute; reflexivity|].
  split; [apply (bool_decide_unpack _); vm_compute; reflexivity|].
  split; [apply (bool_decide_unpack _); vm_compute; reflexivity|].
  split; [apply (bool_decide_unpack _); vm_compute; reflexivity|].
  split; [vm_compute; reflexivity|].
  split; [reflexivity|].
  split; [apply (bool_decide_unpack _); vm_compute; reflexivity|].
  apply (bool_decide_unpack _); vm_compute; reflexivity.
Qed.

(** * The loop, the phases and the state of the solver *)

(** What a successful run of [solve_from] consists of. *)
Lemma solve_from_run_inv `{ops : TableauOps} (fuel : nat) (model : Model.t)
    (t : Tableau.t) (w : World) (sol : Solution.t) (w' : World) :
  Solver.solve_from fuel model t w = Ok sol w' →
  ∃ a k a',
    arrays w !! Tableau.table t = Some a ∧
    pivots (Tableau.model t) k a a' ∧ k < fuel ∧
    w' = with_array (mkWorld (self w) (arrays w ++ [a])) (Tableau.table t) a' ∧
    arrays w' !! Tableau.table t = Some a' ∧
    ((is_optimal (Tableau.model t) a' = true
      ∧ sol = Solution.with_assignment model
                (extract_assignment (Tableau.model t) a') (copy_of t w) t)
     ∨ (stuck_unbounded (Tableau.model t) a'
        ∧ sol = Solution.unbounded model (copy_of t w) t)).
Proof.
  intros Hrun.
  destruct (arrays w !! Tableau.table t) as [a|] eqn:Ha.
  2:{ unfold Solver.solve_from, deepcopy_tableau, load in Hrun.
      apply bind_Ok in Hrun as (it & w1 & Hcopy & _).
      apply bind_Ok in Hcopy as (a & w2 & Hload & _).
      rewrite Ha in Hload. discriminate Hload. }
  rewrite (solve_from_optimize _ _ _ _ _ Ha) in Hrun.
  pose proof (lookup_lt_Some _ _ _ Ha) as Hlt.
  destruct (Solver._optimize fuel t _) as [b w2| |] eqn:Hopt; try discriminate Hrun.
  apply _optimize_inv in Hopt as (k & a0 & a' & Ha0 & Hpiv & Hk & Hw2 & Hb).
  cbn [arrays] in Ha0. rewrite lookup_app_l in Ha0 by exact Hlt.
  pose proof (eq_trans (eq_sym Ha0) Ha) as Heq. injection Heq as ->.
  assert (arrays w2 !! Tableau.table t = Some a') as Hown.
  { rewrite Hw2. apply own_array_after. exact Hlt. }
  exists a, k, a'. destruct b.
  - rewrite Hown in Hrun. injection Hrun as <- <-.
    repeat split; try assumption. left. split; [exact Hb|reflexivity].
  - injection Hrun as <- <-.
    repeat split; try assumption. right. split; [exact Hb|reflexivity].
Qed.

(** The two ways [solve] can return. *)
Lemma solve_run_inv `{ops : TableauOps} (fuel : nat) (model : Model.t)
    (w : World) (sol : Solution.t) (w' : World) :
  let w0 := mkWorld (mkSolver (Some (slack_pass model).2)
                              (Some (surplus_pass model).2)
                              (_artificial (self w))) (arrays w) in
  let presolve :=
    existsb ends_without_slack (Model.constraints (Model.simplify model)) in
  Solver.solve fuel model w = Ok sol w' →
  (∃ t, presolve = true
        ∧ Solver._presolve fuel (augmented model) w0 = Ok (t, false) w'
        ∧ sol = Solution.infeasible model t t)
  ∨ (∃ t w1,
        (if presolve
         then Solver._presolve fuel (augmented model) w0 = Ok (t, true) w1
         else Solver._basic_initial_tableau (augmented model) w0 = Ok t w1)
        ∧ Solver.solve_from fuel model t w1 = Ok sol w').
Proof.
  intros w0 presolve Hrun. rewrite solve_branches in Hrun.
  fold w0 presolve in Hrun. destruct presolve.
  - unfold Solver.presolve_path in Hrun.
    apply bind_Ok in Hrun as ([t success] & w1 & Hpre & Hrest).
    destruct success; cbn [negb] in Hrest.
    + right. exists t, w1. split; assumption.
    + left. exists t. injection Hrest as <- <-. repeat split. exact Hpre.
  - unfold Solver.slack_only_path in Hrun.
    apply bind_Ok in Hrun as (t & w1 & Hbasic & Hrest).
    right. exists t, w1. split; assumption.
Qed.

(** What a run of [_presolve] that reports no success consists of. *)
Lemma _presolve_failure_inv `{ops : TableauOps} (fuel : nat) (model : Model.t)
    (w : World) (t : Tableau.t) (w' : World) :
  Solver._presolve fuel model w = Ok (t, false) w' →
  ∃ a artificial,
    arrays w' !! Tableau.table t = Some a ∧
    _artificial (self w') = Some artificial ∧
    Solver.any_positive (extract_assignment (Tableau.model t) a) artificial
    = Some true.
Proof.
  intros Hrun. rewrite _presolve_phase_one in Hrun.
  apply bind_Ok in Hrun as (t1 & w1 & _ & Hfin).
  apply presolve_finish_inv in Hfin as (Hpos & -> & ->).
  apply _artifical_variables_are_positive_inv in Hpos as (_ & a & art & Ha & Hart & Hany).
  exists a, art. repeat split; assumption.
Qed.

(** X1.  [_optimize] returns exactly in these two ways: after some number of
    pivots, each made on a tableau that is neither optimal nor unbounded in
    the entering column and each on the entering column and leaving row the
    tableau chooses, the tableau is optimal and the result is [True], or the
    tableau is not optimal and unbounded in the entering column and the
    result is [False].  The run writes the array of its tableau and nothing
    else: the solver's attributes and every other array stay as they were. *)
Theorem optimize_returns_iff `{ops : TableauOps} (fuel : nat) (t : Tableau.t)
    (w : World) (b : bool) (w' : World) :
  Solver._optimize fuel t w = Ok b w'
  ↔ ∃ k a a',
      arrays w !! Tableau.table t = Some a ∧
      pivots (Tableau.model t) k a a' ∧ k < fuel ∧
      (if b then is_optimal (Tableau.model t) a' = true
       else stuck_unbounded (Tableau.model t) a') ∧
      self w' = self w ∧
      arrays w' = <[Tableau.table t := a']> (arrays w).
Proof.
  split.
  - intros Hrun.
    apply _optimize_inv in Hrun as (k & a & a' & Ha & Hpiv & Hk & -> & Hb).
    exists k, a, a'. repeat split; assumption.
  - intros (k & a & a' & Ha & Hpiv & Hk & Hb & Hself & Harr).
    destruct t as [model l]. cbn [Tableau.model Tableau.table] in *.
    assert (w' = with_array w l a') as ->.
    { destruct w', w. unfold with_array. cbn in *. congruence. }
    destruct (_optimize_run model l k a a' w fuel Hpiv Ha Hk) as [Hopt Hunb].
    destruct b; [apply Hopt|apply Hunb]; exact Hb.
Qed.

(** X2.  The status [solve] reports is backed by the tableau it returns.
    The solution carries the model [solve] was given.  With status optimal
    the final tableau passes [is_optimal] and the assignment is the one
    extracted from it; with status unbounded the final tableau is not
    optimal and unbounded in its entering column, and the assignment is
    empty; with status infeasible the model went through the first phase,
    some artificial variable is positive in the assignment extracted from
    the final tableau, which is also returned as the initial one. *)
Theorem solve_status_sound `{ops : TableauOps} (fuel : nat) (model : Model.t)
    (w : World) (sol : Solution.t) (w' : World) :
  Solver.solve fuel model w = Ok sol w' →
  Solution.model sol = model ∧
  ∃ final,
    arrays w' !! Tableau.table (Solution.tableau sol) = Some final ∧
    match Solution.status sol with
    | Status.OPTIMAL =>
        is_optimal (Tableau.model (Solution.tableau sol)) final = true ∧
        Solution.raw_assignment sol
        = extract_assignment (Tableau.model (Solution.tableau sol)) final
    | Status.UNBOUNDED =>
        stuck_unbounded (Tableau.model (Solution.tableau sol)) final ∧
        Solution.raw_assignment sol = []
    | Status.INFEASIBLE =>
        existsb ends_without_slack (Model.constraints (Model.simplify model))
        = true ∧
        Solution.initial_tableau sol = Solution.tableau sol ∧
        Solution.raw_assignment sol = [] ∧
        ∃ artificial,
          _artificial (self w') = Some artificial ∧
          some_artificial_positive
            (extract_assignment (Tableau.model (Solution.tableau sol)) final)
            artificial
    end.
Proof.
  intros Hrun.
  apply solve_run_inv in Hrun as [(t & Hpre & Hrun & ->)|(t & w1 & _ & Hrun)].
  - split; [reflexivity|].
    apply _presolve_failure_inv in Hrun as (a & art & Ha & Hart & Hany).
    exists a. split; [exact Ha|]. cbn.
    repeat split; [exact Hpre|].
    exists art. split; [exact Hart|]. apply any_positive_true. exact Hany.
  - apply solve_from_run_inv in Hrun
      as (a & k & a' & _ & _ & _ & _ & Hown & [[Hopt ->]|[Hunb ->]]).
    + split; [reflexivity|]. exists a'. split; [exact Hown|].
      split; [exact Hopt|reflexivity].
    + split; [reflexivity|]. exists a'. split; [exact Hown|].
      split; [exact Hunb|reflexivity].
Qed.

(** X2 on a model that is infeasible: the status is backed by a positive
    artificial variable. *)
Lemma solve_status_sound_witness :
  ∃ sol w',
    Solver.solve (ops := reference_ops) 5 models.infeasible fresh = Ok sol w'
    ∧ Solution.status sol = Status.INFEASIBLE
    ∧ ∃ final artificial,
        arrays w' !! Tableau.table (Solution.tableau sol) = Some final ∧
        _artificial (self w') = Some artificial ∧
        some_artificial_positive
          (@extract_assignment reference_ops
             (Tableau.model (Solution.tableau sol)) final)
          artificial.
Proof.
  eexists _, _.
  assert (∀ P Q : Prop, P → (P → Q) → P ∧ Q) as Hand by tauto.
  apply Hand.
  - vm_compute. reflexivity.
  - intros H. split; [vm_compute; reflexivity|].
    destruct (solve_status_sound _ _ _ _ _ H) as (_ & final & Hfinal & Hst).
    exists final.
    destruct Hst as (_ & _ & _ & artificial & Hart & Hpos).
    exists artificial. exact (conj Hfinal (conj Hart Hpos)).
Defined.

(** ** What the methods do to the state *)

Lemma _basic_initial_tableau_run (model : Model.t) (w : World) :
  Solver._basic_initial_tableau model w
  = Ok (Tableau.mk model (length (arrays w)))
       (mkWorld (self w) (arrays w ++ [Solver.basic_table model])).
Proof. reflexivity. Qed.

Lemma _presolve_initial_tableau_inv (model : Model.t)
    (w : World) (t : Tableau.t) (w' : World) :
  Solver._presolve_initial_tableau model w = Ok t w' →
  t = Tableau.mk model (length (arrays w)) ∧ self w' = self w
  ∧ ∃ a, arrays w' = arrays w ++ [a].
Proof.
  unfold Solver._presolve_initial_tableau. intros Hrun.
  rewrite (bind_run _ _ _ _ _ (_basic_initial_tableau_run model w)) in Hrun.
  cbn [Tableau.table] in Hrun.
  apply bind_Ok in Hrun as (a0 & w1 & Hload & Hrun).
  unfold load in Hload. cbn [arrays] in Hload.
  rewrite lookup_app_r, Nat.sub_diag in Hload by lia.
  injection Hload as <- <-.
  apply bind_Ok in Hrun as (a1 & w1 & [_ ->]%try_Ok & Hrun).
  apply bind_Ok in Hrun as (s & w1 & Hself & Hrun).
  injection Hself as <- <-.
  apply bind_Ok in Hrun as (art & w1 & [_ ->]%try_Ok & Hrun).
  apply bind_Ok in Hrun as (a2 & w1 & [_ ->]%try_Ok & Hrun).
  apply bind_Ok in Hrun as (a3 & w1 & [_ ->]%try_Ok & Hrun).
  apply bind_Ok in Hrun as ([] & w1 & Hstore & Hrun).
  injection Hstore as <-. injection Hrun as <- <-.
  split; [reflexivity|]. split; [reflexivity|].
  exists a3. cbn [arrays].
  replace (length (arrays w)) with (length (arrays w) + 0) at 1 by lia.
  rewrite insert_app_r. reflexivity.
Qed.

Lemma _restore_initial_tableau_inv (t : Tableau.t)
    (model : Model.t) (w : World) (t' : Tableau.t) (w' : World) :
  Solver._restore_initial_tableau t model w = Ok t' w' →
  t' = Tableau.mk (Tableau.model t) (length (arrays w)) ∧ self w' = self w
  ∧ ∃ a, arrays w' = arrays w ++ [a].
Proof.
  unfold Solver._restore_initial_tableau. intros Hrun.
  apply bind_Ok in Hrun as (s & w1 & Hself & Hrun).
  injection Hself as <- <-.
  apply bind_Ok in Hrun as (art & w1 & [_ ->]%try_Ok & Hrun).
  apply bind_Ok in Hrun as (a & w1 & Hload & Hrun).
  unfold load in Hload. destruct (arrays w !! Tableau.table t); [|discriminate].
  injection Hload as <- <-.
  apply bind_Ok in Hrun as (a1 & w1 & [_ ->]%try_Ok & Hrun).
  apply bind_Ok in Hrun as (a2 & w1 & [_ ->]%try_Ok & Hrun).
  apply bind_Ok in Hrun as (a3 & w1 & [_ ->]%try_Ok & Hrun).
  apply bind_Ok in Hrun as (a4 & w1 & [_ ->]%try_Ok & Hrun).
  apply bind_Ok in Hrun as (fresh_loc & w1 & Hnew & Hrun).
  injection Hnew as <- <-. injection Hrun as <- <-.
  split; [reflexivity|]. split; [reflexivity|]. exists a4. reflexivity.
Qed.

(** The first phase on an augmented model: the tableau it leaves carries the
    presolve model and a new array; the arrays that existed are untouched. *)
Lemma phase_one_inv `{ops : TableauOps} (fuel : nat) (model : Model.t)
    (w : World) (t : Tableau.t) (w' : World) (slacks : Dict) :
  _slacks (self w) = Some slacks →
  phase_one fuel model w = Ok t w' →
  t = Tableau.mk (presolve_of slacks model) (length (arrays w))
  ∧ self w' = mkSolver (_slacks (self w)) (_surpluses (self w))
                       (Some (artificial_of slacks model))
  ∧ ∃ a, arrays w' = arrays w ++ [a].
Proof.
  intros Hslacks Hrun. unfold phase_one in Hrun.
  rewrite (bind_run _ _ _ _ _ (_create_presolve_model_run model w slacks Hslacks))
    in Hrun.
  cbn zeta in Hrun.
  apply bind_Ok in Hrun as (t0 & w1 & Hinit & Hrun).
  apply _presolve_initial_tableau_inv in Hinit as (-> & Hself & a & Harr).
  apply bind_Ok in Hrun as (b & w2 & Hopt & Hrun).
  injection Hrun as <- <-.
  apply _optimize_inv in Hopt as (k & a0 & a' & _ & _ & _ & -> & _).
  cbn [arrays self Tableau.table with_array] in *.
  split; [reflexivity|]. split; [exact Hself|].
  exists a'. rewrite Harr.
  replace (length (arrays w)) with (length (arrays w) + 0) at 1 by lia.
  rewrite insert_app_r. reflexivity.
Qed.

(** A run of [_presolve] that reports success. *)
Lemma _presolve_success_inv `{ops : TableauOps} (fuel : nat) (model : Model.t)
    (w : World) (t : Tableau.t) (w' : World) (slacks : Dict) :
  _slacks (self w) = Some slacks →
  Solver._presolve fuel model w = Ok (t, true) w' →
  t = Tableau.mk (presolve_of slacks model) (S (length (arrays w)))
  ∧ self w' = mkSolver (_slacks (self w)) (_surpluses (self w))
                       (Some (artificial_of slacks model))
  ∧ ∃ a1 a2, arrays w' = arrays w ++ [a1; a2].
Proof.
  intros Hslacks Hrun. rewrite _presolve_phase_one in Hrun.
  apply bind_Ok in Hrun as (t1 & w1 & Hone & Hfin).
  apply (phase_one_inv _ _ _ _ _ _ Hslacks) in Hone as (-> & Hself & a1 & Harr).
  apply presolve_finish_inv in Hfin as (_ & Hres).
  apply _restore_initial_tableau_inv in Hres as (-> & Hself' & a2 & Harr').
  cbn [Tableau.model]. rewrite Harr, length_app, Nat.add_comm. cbn [length Nat.add].
  split; [reflexivity|]. split; [congruence|].
  exists a1, a2. rewrite Harr', Harr, <- app_assoc. reflexivity.
Qed.

(** A run of [_presolve] that reports no success. *)
Lemma _presolve_failure_state `{ops : TableauOps} (fuel : nat) (model : Model.t)
    (w : World) (t : Tableau.t) (w' : World) (slacks : Dict) :
  _slacks (self w) = Some slacks →
  Solver._presolve fuel model w = Ok (t, false) w' →
  t = Tableau.mk (presolve_of slacks model) (length (arrays w))
  ∧ self w' = mkSolver (_slacks (self w)) (_surpluses (self w))
                       (Some (artificial_of slacks model))
  ∧ ∃ a1, arrays w' = arrays w ++ [a1].
Proof.
  intros Hslacks Hrun. rewrite _presolve_phase_one in Hrun.
  apply bind_Ok in Hrun as (t1 & w1 & Hone & Hfin).
  apply (phase_one_inv _ _ _ _ _ _ Hslacks) in Hone as (-> & Hself & a1 & Harr).
  apply presolve_finish_inv in Hfin as (_ & -> & ->).
  split; [reflexivity|]. split; [exact Hself|]. exists a1. exact Harr.
Qed.

Lemma presolve_of_variables (slacks : Dict) (augmented_model : Model.t) :
  Model.variables (presolve_of slacks augmented_model)
  = Model.variables augmented_model ++ (artificial_of slacks augmented_model).*1.
Proof.
  unfold presolve_of, artificial_of, artificial_pass.
  cbn [Model.variables Model.with_constraints]. apply aux_loop_variables.
Qed.

(** X3.  What [solve] leaves behind.  The tableaux of the solution carry the
    presolve model when the model went through the first phase, artificial
    variables included although the second phase runs on a table without
    their columns, and the augmented model otherwise; that model is never
    the model [solve] was given.  The solver's dictionaries of slack and
    surplus variables are those of the augmented model; the dictionary of
    artificial variables is written only when the first phase ran, and is
    otherwise left as a previous call left it.  The arrays that existed
    before the call are untouched: one array is added when the status is
    infeasible, three when the first phase succeeded, two otherwise. *)
Theorem solve_final_state `{ops : TableauOps} (fuel : nat) (model : Model.t)
    (w : World) (sol : Solution.t) (w' : World) :
  let presolve :=
    existsb ends_without_slack (Model.constraints (Model.simplify model)) in
  let slacks := (slack_pass model).2 in
  let tableau_model :=
    if presolve then presolve_of slacks (augmented model) else augmented model in
  Solver.solve fuel model w = Ok sol w' →
  Tableau.model (Solution.tableau sol) = tableau_model ∧
  Tableau.model (Solution.initial_tableau sol) = tableau_model ∧
  Model.variables tableau_model
  = Model.variables (augmented model)
    ++ (if presolve then (artificial_of slacks (augmented model)).*1 else []) ∧
  _slacks (self w') = Some slacks ∧
  _surpluses (self w') = Some (surplus_pass model).2 ∧
  _artificial (self w')
  = (if presolve then Some (artificial_of slacks (augmented model))
     else _artificial (self w)) ∧
  (presolve = false → Solution.status sol ≠ Status.INFEASIBLE) ∧
  ∃ new,
    arrays w' = arrays w ++ new ∧
    length new = match Solution.status sol with
                 | Status.INFEASIBLE => 1
                 | _ => if presolve then 3 else 2
                 end.
Proof.
  intros presolve slacks tableau_model Hrun.
  apply solve_run_inv in Hrun. fold presolve in Hrun. clearbody presolve.
  subst tableau_model.
  destruct Hrun as [(t & -> & Hrun & ->)|(t & w1 & Hstart & Hrun)].
  - eapply _presolve_failure_state with (slacks := slacks) in Hrun;
      [|reflexivity].
    destruct Hrun as (-> & Hself & a1 & Harr).
    cbn [self arrays _slacks _surpluses] in Hself, Harr. rewrite Hself.
    cbn [Solution.infeasible Solution.tableau Solution.initial_tableau
         Solution.status Tableau.model _slacks _surpluses _artificial].
    split_and!; try done; [apply presolve_of_variables|].
    exists [a1]. split; [exact Harr|reflexivity].
  - apply solve_from_run_inv in Hrun
      as (a & k & a' & Ha & _ & _ & -> & _ & Hsol).
    assert (Solution.tableau sol = t ∧ Solution.initial_tableau sol = copy_of t w1
            ∧ Solution.status sol ≠ Status.INFEASIBLE) as (Ht & Hit & Hst).
    { destruct Hsol as [[_ ->]|[_ ->]]; split_and!; done. }
    rewrite Ht, Hit. cbn [copy_of Tableau.model with_array self arrays].
    destruct presolve.
    + eapply _presolve_success_inv with (slacks := slacks) in Hstart;
        [|reflexivity].
      destruct Hstart as (-> & Hself & a1 & a2 & Harr).
      cbn [self arrays _slacks _surpluses] in Hself, Harr.
      rewrite Hself. cbn [Tableau.model Tableau.table _slacks _surpluses _artificial].
      split_and!; try done; [apply presolve_of_variables|].
      exists ([a1; a'] ++ [a]).
      split.
      * cbn [arrays self]. rewrite Harr.
        replace (S (length (arrays w))) with (length (arrays w) + 1) by lia.
        rewrite <- (app_assoc (arrays w)). rewrite insert_app_r. reflexivity.
      * destruct (Solution.status sol); done.
    + rewrite _basic_initial_tableau_run in Hstart. injection Hstart as <- <-.
      cbn [Tableau.model Tableau.table self arrays _slacks _surpluses _artificial].
      split_and!; try done; [by rewrite app_nil_r|].
      exists ([a'] ++ [a]).
      split.
      * cbn [arrays self].
        replace (length (arrays w)) with (length (arrays w) + 0) at 1 by lia.
        rewrite <- (app_assoc (arrays w)). rewrite insert_app_r. reflexivity.
      * destruct (Solution.status sol); done.
Qed.

(** X3 on the run of example 04, which goes through the first phase. *)
Lemma solve_final_state_witness :
  ∃ sol w',
    Solver.solve (ops := reference_ops) 5 example_04.create_model fresh = Ok sol w'
    ∧ Tableau.model (Solution.tableau sol)
      = presolve_of (slack_pass example_04.create_model).2
                    (augmented example_04.create_model)
    ∧ length (arrays w') = 3.
Proof.
  eexists _, _.
  assert (∀ P Q : Prop, P → (P → Q) → P ∧ Q) as Hand by tauto.
  apply Hand.
  - vm_compute. reflexivity.
  - intros H.
    destruct (solve_final_state _ _ _ _ _ H) as (Hmodel & _).
    split; [exact Hmodel|]. vm_compute. reflexivity.
Defined.

(** X4.  The methods that read a dictionary of the solver raise
    [AttributeError] on a solver on which the method that writes it has not
    run: [_add_artificial_variables], [_create_presolve_model] and
    [_presolve] without [_slacks]; [_presolve_initial_tableau],
    [_artifical_variables_are_positive] and [_restore_initial_tableau]
    without [_artificial].  [_presolve_initial_tableau] raises although
    [_slacks] may be there, and only after it has built its array. *)
Theorem unset_dictionary_raises `{ops : TableauOps} (fuel : nat)
    (model : Model.t) (t : Tableau.t) (w : World) :
  (_slacks (self w) = None →
   Solver._add_artificial_variables model w = Raise AttributeError ∧
   Solver._create_presolve_model model w = Raise AttributeError ∧
   Solver._presolve fuel model w = Raise AttributeError)
  ∧ (_artificial (self w) = None →
     Solver._presolve_initial_tableau model w = Raise AttributeError ∧
     Solver._artifical_variables_are_positive t w = Raise AttributeError ∧
     Solver._restore_initial_tableau t model w = Raise AttributeError).
Proof.
  split.
  - intros Hnone.
    assert (Solver._add_artificial_variables model w = Raise AttributeError) as Hadd.
    { unfold Solver._add_artificial_variables, mbind, M_bind, get_self.
      rewrite Hnone. reflexivity. }
    assert (Solver._create_presolve_model model w = Raise AttributeError) as Hcreate.
    { unfold Solver._create_presolve_model, Model.deepcopy, mbind, M_bind.
      rewrite Hadd. reflexivity. }
    repeat split; [exact Hadd|exact Hcreate|].
    unfold Solver._presolve, mbind, M_bind. rewrite Hcreate. reflexivity.
  - intros Hnone. repeat split.
    + unfold Solver._presolve_initial_tableau.
      rewrite (bind_run _ _ _ _ _ (_basic_initial_tableau_run model w)).
      unfold mbind, M_bind, load, get_self. cbn [arrays Tableau.table self].
      rewrite lookup_app_r, Nat.sub_diag by lia. cbn [lookup list_lookup].
      unfold np.fill_row, Solver.basic_table. cbn.
      rewrite Hnone. reflexivity.
    + unfold Solver._artifical_variables_are_positive, mbind, M_bind, load, get_self.
      destruct (arrays w !! Tableau.table t); [|reflexivity].
      rewrite Hnone. reflexivity.
    + unfold Solver._restore_initial_tableau, mbind, M_bind, get_self.
      rewrite Hnone. reflexivity.
Qed.

(** X4 on a solver that has just been constructed. *)
Lemma unset_dictionary_raises_witness :
  Solver._presolve (ops := reference_ops) 5 example_04.create_model fresh
  = Raise AttributeError
  ∧ Solver._restore_initial_tableau (Tableau.mk example_04.create_model 0)
      example_04.create_model fresh
    = Raise AttributeError.
Proof.
  destruct (unset_dictionary_raises (ops := reference_ops) 5
              example_04.create_model (Tableau.mk example_04.create_model 0) fresh)
    as [Hslacks Hartificial].
  split.
  - apply Hslacks. reflexivity.
  - apply Hartificial. reflexivity.
Defined.

(** ** The solver's attributes between calls *)

Lemma same_outcome_keep_self {A} (s1 s2 : Solver) (r : Res A) :
  _slacks s1 = _slacks s2 → _surpluses s1 = _surpluses s2 →
  same_outcome (keep_self s1 r) (keep_self s2 r).
Proof. intros Hs Hp. destruct r; cbn; done. Qed.

Lemma same_outcome_refl {A} (r : Res A) : same_outcome r r.
Proof. destruct r; cbn; done. Qed.

(** The loop neither reads nor writes the solver's attributes. *)
Lemma _optimize_keep_self `{ops : TableauOps} (fuel : nat) (t : Tableau.t)
    (s s0 : Solver) (arr : list Matrix) :
  Solver._optimize fuel t (mkWorld s arr)
  = keep_self s (Solver._optimize fuel t (mkWorld s0 arr)).
Proof.
  revert arr. induction fuel as [|fuel IH]; intros arr; [reflexivity|].
  cbn [Solver._optimize]. unfold mbind, M_bind, load, store, mret, M_ret.
  cbn [arrays self].
  destruct (arr !! Tableau.table t) as [a|]; [|reflexivity].
  destruct (is_optimal (Tableau.model t) a); [reflexivity|].
  destruct (is_unbounded (Tableau.model t) a _); [reflexivity|].
  apply IH.
Qed.

(** Nor do the lines of [solve] that come after the choice of the phase. *)
Lemma solve_from_keep_self `{ops : TableauOps} (fuel : nat) (model : Model.t)
    (t : Tableau.t) (s s0 : Solver) (arr : list Matrix) :
  Solver.solve_from fuel model t (mkWorld s arr)
  = keep_self s (Solver.solve_from fuel model t (mkWorld s0 arr)).
Proof.
  unfold Solver.solve_from, deepcopy_tableau, mbind, M_bind, load, new_array,
    mret, M_ret.
  cbn [arrays self].
  destruct (arr !! Tableau.table t) as [a|]; [|reflexivity].
  cbn [arrays self].
  rewrite (_optimize_keep_self fuel t s s0). cbv beta.
  destruct (Solver._optimize fuel t (mkWorld s0 (arr ++ [a]))) as [b w2| |];
    [|reflexivity..].
  cbn [keep_self arrays self]. destruct b; cbn [negb arrays]; [|reflexivity].
  destruct (arrays w2 !! Tableau.table t); reflexivity.
Qed.

(** X5.  [solve] does not depend on what an earlier call has left in the
    solver: run on two solvers with the same arrays at hand, it ends with
    the same exception or with the same solution, the same arrays and the
    same dictionaries of slack and surplus variables, whatever the three
    dictionaries held before, unset ones included. *)
Theorem solve_ignores_earlier_calls `{ops : TableauOps} (fuel : nat)
    (model : Model.t) (s1 s2 : Solver) (arr : list Matrix) :
  same_outcome (Solver.solve fuel model (mkWorld s1 arr))
               (Solver.solve fuel model (mkWorld s2 arr)).
Proof.
  rewrite !solve_branches. cbn [self arrays].
  destruct (existsb ends_without_slack _).
  - set (w1 := mkWorld (mkSolver _ _ (_artificial s1)) arr).
    set (w2 := mkWorld (mkSolver _ _ (_artificial s2)) arr).
    assert (Solver._presolve fuel (augmented model) w1
            = Solver._presolve fuel (augmented model) w2) as Hpre.
    { unfold Solver._presolve.
      rewrite (bind_run _ _ _ _ _
                 (_create_presolve_model_run (augmented model) w1 _ eq_refl)).
      rewrite (bind_run _ _ _ _ _
                 (_create_presolve_model_run (augmented model) w2 _ eq_refl)).
      reflexivity. }
    unfold Solver.presolve_path, mbind, M_bind. rewrite Hpre.
    apply same_outcome_refl.
  - unfold Solver.slack_only_path.
    rewrite !(bind_run _ _ _ _ _ (_basic_initial_tableau_run _ _)).
    cbn [self arrays].
    rewrite (solve_from_keep_self fuel model _ _ s2).
    rewrite (solve_from_keep_self fuel model _ (mkSolver _ _ (_artificial s2)) s2).
    apply same_outcome_keep_self; reflexivity.
Qed.

(** ** The check of the artificial variables *)

Lemma any_positive_false assignment (artificial : Dict) :
  Solver.any_positive assignment artificial = Some false
  ↔ Forall (nonpositive_at assignment) artificial.
Proof.
  induction artificial as [|[v c] rest IH]; cbn [Solver.any_positive].
  - split; [constructor|reflexivity].
  - unfold nonpositive_at at 1. rewrite Forall_cons. cbn [fst].
    destruct (assignment !! Var.index v) as [x|]; cbn [mbind option_bind].
    + unfold ltb. destruct (bool_decide_reflect (0 < x)%Qc) as [Hx|Hx].
      * split; [discriminate|]. intros [(x' & [= <-] & Hle) _].
        exfalso. exact (Qcle_not_lt _ _ Hle Hx).
      * rewrite IH. split; [|tauto]. intros Hrest. split; [|exact Hrest].
        exists x. split; [reflexivity|]. apply Qcnot_lt_le. exact Hx.
    + split; [discriminate|]. intros [(x' & [=] & _) _].
Qed.

Lemma any_positive_first assignment (artificial : Dict) :
  (Solver.any_positive assignment artificial = Some true
   ↔ ∃ before p after,
       artificial = before ++ p :: after
       ∧ Forall (nonpositive_at assignment) before ∧ positive_at assignment p)
  ∧ (Solver.any_positive assignment artificial = None
     ↔ ∃ before p after,
         artificial = before ++ p :: after
         ∧ Forall (nonpositive_at assignment) before ∧ missing_at assignment p).
Proof.
  induction artificial as [|[v c] rest [IHt IHn]]; cbn [Solver.any_positive].
  - split; (split; [discriminate|]); intros (before & p & after & Heq & _);
      by destruct before.
  - assert (∀ (P : Var.t * Constraint.t → Prop),
              (∃ before p after,
                 (v, c) :: rest = before ++ p :: after
                 ∧ Forall (nonpositive_at assignment) before ∧ P p)
              ↔ P (v, c)
                ∨ (nonpositive_at assignment (v, c)
                   ∧ ∃ before p after,
                       rest = before ++ p :: after
                       ∧ Forall (nonpositive_at assignment) before ∧ P p)) as Hsplit.
    { intros P. split.
      - intros (before & p & after & Heq & Hbefore & Hp).
        destruct before as [|q before]; injection Heq as -> ->.
        + left. exact Hp.
        + apply Forall_cons in Hbefore as [Hq Hbefore].
          right. split; [exact Hq|]. by exists before, p, after.
      - intros [Hp|(Hq & before & p & after & -> & Hbefore & Hp)].
        + by exists [], (v, c), rest.
        + exists ((v, c) :: before), p, after.
          split; [reflexivity|]. split; [by constructor|exact Hp]. }
    rewrite !Hsplit. unfold positive_at at 1, missing_at at 1, nonpositive_at at 1 3.
    cbn [fst].
    destruct (assignment !! Var.index v) as [x|]; cbn [mbind option_bind].
    + unfold ltb. destruct (bool_decide_reflect (0 < x)%Qc) as [Hx|Hx].
      * split; split.
        -- intros _. left. by exists x.
        -- reflexivity.
        -- discriminate.
        -- intros [[=]|[(x' & [= <-] & Hle) _]].
           exfalso. exact (Qcle_not_lt _ _ Hle Hx).
      * rewrite IHt, IHn.
        assert (∃ x0, Some x = Some x0 ∧ (x0 ≤ 0)%Qc) as Hle
          by (exists x; split; [reflexivity|by apply Qcnot_lt_le]).
        split; split.
        -- intros H. right. by split.
        -- intros [(x' & [= <-] & Hlt)|[_ H]]; [contradiction|exact H].
        -- intros H. right. by split.
        -- intros [[=]|[_ H]]. exact H.
    + split; split.
      * discriminate.
      * intros [(x' & [=] & _)|[(x' & [=] & _) _]].
      * intros _. by left.
      * reflexivity.
Qed.

(** X6.  [_artifical_variables_are_positive] is decided by the first
    artificial variable, in the order of the dictionary, that is positive in
    the extracted assignment or lies outside it.  It returns [False] exactly
    when every artificial variable has a value that is at most 0; it returns
    [True] exactly when the first one that has not is positive; it raises
    [IndexError] exactly when the first one that has not lies outside the
    assignment, so that a positive variable hides a later index out of
    range.  It changes nothing. *)
Theorem artificial_check_first_decides `{ops : TableauOps} (t : Tableau.t)
    (w : World) (a : Matrix) (artificial : Dict) :
  arrays w !! Tableau.table t = Some a →
  _artificial (self w) = Some artificial →
  let assignment := extract_assignment (Tableau.model t) a in
  let first_that (P : Var.t * Constraint.t → Prop) :=
    ∃ before p after,
      artificial = before ++ p :: after
      ∧ Forall (nonpositive_at assignment) before ∧ P p in
  (Solver._artifical_variables_are_positive t w = Ok false w
   ↔ Forall (nonpositive_at assignment) artificial)
  ∧ (Solver._artifical_variables_are_positive t w = Ok true w
     ↔ first_that (positive_at assignment))
  ∧ (Solver._artifical_variables_are_positive t w = Raise IndexError
     ↔ first_that (missing_at assignment))
  ∧ (Forall (nonpositive_at assignment) artificial
     ∨ first_that (positive_at assignment)
     ∨ first_that (missing_at assignment)).
Proof.
  intros Ha Hart assignment first_that.
  rewrite (_artifical_variables_are_positive_run t w a artificial Ha Hart).
  fold assignment.
  pose proof (any_positive_false assignment artificial) as Hfalse.
  destruct (any_positive_first assignment artificial) as [Htrue Hnone].
  subst first_that. cbv beta in *.
  destruct (Solver.any_positive assignment artificial) as [[]|];
    (split_and!;
     [split; [intros E; first [discriminate E | by apply Hfalse]
             |intros HP; first [reflexivity | by apply Hfalse in HP]]
     |split; [intros E; first [discriminate E | by apply Htrue]
             |intros HP; first [reflexivity | by apply Htrue in HP]]
     |split; [intros E; first [discriminate E | by apply Hnone]
             |intros HP; first [reflexivity | by apply Hnone in HP]]
     |]).
  - right; left. by apply Htrue.
  - left. by apply Hfalse.
  - right; right. by apply Hnone.
Qed.

(** X6 on an assignment of two values in which the first artificial variable
    is positive and the second has index 7: the result is [True]. *)
Lemma artificial_check_first_decides_witness :
  let c := Constraint.mk (Expression.mk ∅ 0%Qc) ConstraintType.EQ 0%Qc 0 in
  let w := mkWorld (mkSolver None None
                      (Some [(Var.mk "R0" 0, c); (Var.mk "R1" 7, c)]))
                   [[num_of_Z <$> [0; 0; 0]%Z; num_of_Z <$> [1; 0; 5]%Z]] in
  Solver._artifical_variables_are_positive (ops := reference_ops)
    (Tableau.mk (empty_model "m") 0) w
  = Ok true w.
Proof.
  intros c w.
  destruct (artificial_check_first_decides (ops := reference_ops)
              (Tableau.mk (empty_model "m") 0) w _ _ eq_refl eq_refl)
    as (_ & Htrue & _).
  apply Htrue.
  exists [], (Var.mk "R0" 0, c), [(Var.mk "R1" 7, c)].
  split; [reflexivity|]. split; [constructor|].
  exists (num_of_Z 5). split; vm_compute; reflexivity.
Defined.

(** ** The objective row after the first phase *)

Lemma dot_sub_scale (obj row : list num) (k : num) (y : list num) :
  length row = length obj →
  dot (np.sub_row obj (np.scale_row k row)) y = (dot obj y - k * dot row y)%Qc.
Proof.
  revert row y. induction obj as [|o obj IH]; intros [|r row] y Hlen;
    try discriminate Hlen.
  - unfold dot. cbn. ring.
  - destruct y as [|x y].
    + unfold dot. cbn. ring.
    + injection Hlen as Hlen. specialize (IH row y Hlen).
      unfold dot, np.sub_row, np.scale_row in *.
      cbn [fmap list_fmap zip_with]. rewrite !sum_list_cons.
      rewrite IH. ring.
Qed.

(** Step 3 of [_restore_initial_tableau] changes the objective row by
    multiples of constraint rows and changes no other row. *)
Lemma restore_loop_combination (obj : list num) (rows : Matrix) (i : nat)
    (columns : Matrix) (table : Matrix) :
  Forall (λ r, length r = length obj) rows →
  Solver.restore_loop (obj :: rows) i columns = Some table →
  ∃ obj', table = obj' :: rows ∧ length obj' = length obj
          ∧ ∀ y, Forall (λ r, dot r y = 0%Qc) rows → dot obj' y = dot obj y.
Proof.
  revert obj i. induction columns as [|col rest IH]; intros obj i Hrows Hrun.
  - injection Hrun as <-. by exists obj.
  - cbn [Solver.restore_loop] in Hrun.
    destruct (eqb (np.amax col) 1%Qc && eqb (np.amin col) 0%Qc).
    + unfold np.item in Hrun. cbn [lookup list_lookup mbind option_bind] in Hrun.
      destruct (obj !! i) as [k|]; [|discriminate Hrun].
      rewrite Nat.add_1_r in Hrun.
      cbn [lookup list_lookup mbind option_bind] in Hrun.
      destruct (rows !! np.argmax col) as [row|] eqn:Hrow; [|discriminate Hrun].
      cbn [np.isub_row lookup list_lookup mbind option_bind] in Hrun.
      unfold np.isub_row in Hrun.
      cbn [lookup list_lookup mbind option_bind insert list_insert] in Hrun.
      pose proof (proj1 (Forall_forall _ _) Hrows row
                    (list_elem_of_lookup_2 _ _ _ Hrow)) as Hlen.
      cbv beta in Hlen.
      assert (length (np.sub_row obj (np.scale_row k row)) = length obj) as Hlen'.
      { unfold np.sub_row, np.scale_row. rewrite length_zip_with, length_fmap. lia. }
      destruct (IH (np.sub_row obj (np.scale_row k row)) (S i))
        as (obj' & -> & Hobj' & Hdot).
      * by rewrite Hlen'.
      * exact Hrun.
      * exists obj'. split; [reflexivity|]. split; [lia|].
        intros y Hy. rewrite (Hdot y Hy), (dot_sub_scale _ _ _ _ Hlen).
        rewrite (proj1 (Forall_forall _ _) Hy row (list_elem_of_lookup_2 _ _ _ Hrow)).
        ring.
    + exact (IH obj (S i) Hrows Hrun).
Qed.

(** What a run of [_restore_initial_tableau] on a table of the right shape
    consists of: the loop of step 3 runs on the row of step 2 above the
    constraint rows without the artificial columns, once for every column of
    these rows, the column of the bounds included. *)
Lemma _restore_initial_tableau_loop (t : Tableau.t) (model : Model.t) (w : World)
    (artificial : Dict) (a : Matrix) (t' : Tableau.t) (w' : World) :
  let n := length (Model.variables model) in
  let columns := (λ p, Var.index p.1) <$> artificial in
  let rows := np.delete_entries columns <$> drop 1 a in
  _artificial (self w) = Some artificial →
  arrays w !! Tableau.table t = Some a →
  Forall (λ r, length (np.delete_entries columns r) = n + 1) a →
  Solver._restore_initial_tableau t model w = Ok t' w' →
  ∃ table,
    Solver.restore_loop (restored_objective model :: rows) 0
      (column rows <$> seq 0 (n + 1)) = Some table ∧
    arrays w' !! Tableau.table t' = Some table ∧
    rows ≠ [] ∧
    Forall (λ r, length r = length (restored_objective model)) rows ∧
    length (restored_objective model) = n + 1.
Proof.
  intros n columns rows Hart Ha Hshape Hrun.
  unfold Solver._restore_initial_tableau in Hrun.
  apply bind_Ok in Hrun as (s & w1 & Hself & Hrun).
  injection Hself as <- <-.
  apply bind_Ok in Hrun as (art & w1 & [Hart' ->]%try_Ok & Hrun).
  pose proof (eq_trans (eq_sym Hart') Hart) as Heq. injection Heq as ->.
  apply bind_Ok in Hrun as (a0 & w1 & Hload & Hrun).
  unfold load in Hload.
  destruct (arrays w !! Tableau.table t) as [a1|] eqn:Ha1; [|discriminate Hload].
  injection Hload as <- <-. injection Ha as ->.
  apply bind_Ok in Hrun as (deleted & w1 & [Hdel ->]%try_Ok & Hrun).
  unfold np.delete in Hdel. destruct (decide _); [|discriminate Hdel].
  injection Hdel as <-. fold columns in Hrun.
  apply bind_Ok in Hrun as (table & w1 & [Hset ->]%try_Ok & Hrun).
  fold (restored_objective model) in Hset.
  assert (length (restored_objective model) = n + 1) as Hobj.
  { unfold restored_objective. rewrite length_app, coefficients_length. reflexivity. }
  destruct a as [|r0 rest]; [discriminate Hset|].
  apply Forall_cons in Hshape as [Hr0 Hshape].
  unfold np.set_row in Hset. rewrite fmap_cons in Hset.
  cbn [lookup list_lookup mbind option_bind] in Hset.
  rewrite decide_True in Hset by (rewrite Hobj; symmetry; exact Hr0).
  injection Hset as <-.
  cbn [insert list_insert drop] in Hrun.
  apply bind_Ok in Hrun as (cols & w1 & [Hstack ->]%try_Ok & Hrun).
  apply bind_Ok in Hrun as (final & w1 & [Hloop ->]%try_Ok & Hrun).
  apply bind_Ok in Hrun as (fresh_loc & w1 & Hnew & Hrun).
  injection Hnew as <- <-. injection Hrun as <- <-.
  cbn [drop] in rows.
  destruct rest as [|r1 rest]; [discriminate Hstack|].
  apply Forall_cons in Hshape as [Hr1 Hshape].
  unfold np.column_stack in Hstack. rewrite fmap_cons in Hstack.
  injection Hstack as <-. rewrite Hr1 in Hloop.
  exists final. split; [exact Hloop|].
  cbn [Tableau.table arrays].
  rewrite lookup_app_r, Nat.sub_diag by lia.
  split; [reflexivity|]. split; [discriminate|]. split; [|exact Hobj].
  apply Forall_fmap. apply Forall_cons. split; [exact (eq_trans Hr1 (eq_sym Hobj))|].
  eapply Forall_impl; [exact Hshape|].
  intros r Hr. exact (eq_trans Hr (eq_sym Hobj)).
Qed.

(** X7.  [_restore_initial_tableau] returns a tableau whose constraint rows
    are those of the tableau it was given without the columns of the
    artificial variables, and whose objective row differs from the objective
    row written in step 2 by multiples of these constraint rows only: at
    every column vector at which all the constraint rows vanish, the
    objective row has the value of the row of step 2.  This holds for
    whatever columns step 3 takes for basic. *)
Theorem restore_keeps_objective_on_solutions
    (t : Tableau.t) (model : Model.t) (w : World) (artificial : Dict)
    (a : Matrix) (t' : Tableau.t) (w' : World) :
  let n := length (Model.variables model) in
  let columns := (λ p, Var.index p.1) <$> artificial in
  let rows := np.delete_entries columns <$> drop 1 a in
  _artificial (self w) = Some artificial →
  arrays w !! Tableau.table t = Some a →
  Forall (λ r, length (np.delete_entries columns r) = n + 1) a →
  Solver._restore_initial_tableau t model w = Ok t' w' →
  ∃ objective_row,
    arrays w' !! Tableau.table t' = Some (objective_row :: rows) ∧
    length objective_row = n + 1 ∧
    ∀ y, Forall (λ row, dot row y = 0%Qc) rows →
         dot objective_row y = dot (restored_objective model) y.
Proof.
  intros n columns rows Hart Ha Hshape Hrun.
  destruct (_restore_initial_tableau_loop _ _ _ _ _ _ _ Hart Ha Hshape Hrun)
    as (table & Hloop & Harr & _ & Hrows & Hobj).
  apply restore_loop_combination in Hloop as (obj' & -> & Hlen & Hdot);
    [|exact Hrows].
  exists obj'. split; [exact Harr|]. split; [|exact Hdot].
  exact (eq_trans Hlen Hobj).
Qed.

(** X7 on the tableau the first phase leaves for example 04. *)
Lemma restore_keeps_objective_on_solutions_witness :
  let normal_model := augmented example_04.create_model in
  ∃ w0 t w3 artificial a t' w4,
    (phase_one (ops := reference_ops) 5 normal_model w0 = Ok t w3
     ∧ _artificial (self w3) = Some artificial
     ∧ arrays w3 !! Tableau.table t = Some a
     ∧ Forall (λ r, length (np.delete_entries ((λ p, Var.index p.1) <$> artificial) r)
                    = length (Model.variables normal_model) + 1) a
     ∧ Solver._restore_initial_tableau t normal_model w3
       = Ok t' w4)
    ∧ ∃ objective_row,
        arrays w4 !! Tableau.table t'
        = Some (objective_row
                :: (np.delete_entries ((λ p, Var.index p.1) <$> artificial)
                      <$> drop 1 a)) ∧
        ∀ y, Forall (λ row, dot row y = 0%Qc)
                    (np.delete_entries ((λ p, Var.index p.1) <$> artificial)
                       <$> drop 1 a) →
             dot objective_row y = dot (restored_objective normal_model) y.
Proof.
  intros normal_model.
  exists (mkWorld (mkSolver (Some (slack_pass example_04.create_model).2) None None) []).
  eexists _, _, _, _, _, _.
  assert (∀ P Q : Prop, P → (P → Q) → P ∧ Q) as Hand by tauto.
  apply Hand.
  - split; [vm_compute; reflexivity|].
    split; [reflexivity|].
    split; [reflexivity|].
    split; [apply (bool_decide_unpack _); vm_compute; reflexivity|].
    vm_compute. reflexivity.
  - intros (_ & H2 & H3 & H4 & H5).
    destruct (restore_keeps_objective_on_solutions _ _ _ _ _ _ _ H2 H3 H4 H5)
      as (obj & Harr & _ & Hdot).
    exists obj. exact (conj Harr Hdot).
Defined.

(** ** The column of the bounds in step 3 *)

Lemma restore_loop_app (table : Matrix) (i : nat) (front back : Matrix) :
  Solver.restore_loop table i (front ++ back)
  = table' ← Solver.restore_loop table i front;
    Solver.restore_loop table' (i + length front) back.
Proof.
  revert table i. induction front as [|col front IH]; intros table i.
  - cbn. by rewrite Nat.add_0_r.
  - cbn [app Solver.restore_loop length].
    replace (i + S (length front)) with (S i + length front) by lia.
    destruct (eqb _ _ && eqb _ _); [|apply IH].
    destruct (np.item table 0 i) as [k|]; [|reflexivity].
    cbn [mbind option_bind].
    destruct (table !! (np.argmax col + 1)) as [row|]; [|reflexivity].
    cbn [mbind option_bind].
    destruct (np.isub_row table 0 _) as [table1|]; [|reflexivity].
    cbn [mbind option_bind]. apply IH.
Qed.

Lemma first_index_lookup (x : num) (col : list num) :
  x ∈ col → col !! np.first_index x col = Some x.
Proof.
  induction col as [|y col IH]; intros Hx; [by apply elem_of_nil in Hx|].
  cbn [np.first_index]. unfold eqb.
  destruct (bool_decide_reflect (y = x)) as [->|Hne]; [reflexivity|].
  apply elem_of_cons in Hx as [->|Hx]; [done|]. by apply IH.
Qed.

Lemma argmax_lookup (col : list num) :
  col ≠ [] → col !! np.argmax col = Some (np.amax col).
Proof.
  intros Hcol. apply first_index_lookup. destruct col as [|x xs]; [done|].
  apply foldl_maxq_in.
Qed.

Lemma column_lookup (rows : Matrix) (j i : nat) (row : list num) :
  rows !! i = Some row → column rows j !! i = Some (default 0%Qc (row !! j)).
Proof. intros Hrow. unfold column. by rewrite list_lookup_fmap, Hrow. Qed.

(** X8.  The loop of step 3 of [_restore_initial_tableau] runs over every
    column of the constraint rows, the column of the bounds included, which
    it treats like the column of a variable.  When the largest bound is 1
    and the least is 0, it subtracts from the objective row the row of the
    first bound 1, times the last entry of the objective row: the objective
    row of the tableau it returns then ends in 0, whatever the basis and
    the objective are. *)
Theorem restore_treats_bounds_as_column
    (t : Tableau.t) (model : Model.t) (w : World) (artificial : Dict)
    (a : Matrix) (t' : Tableau.t) (w' : World) :
  let n := length (Model.variables model) in
  let columns := (λ p, Var.index p.1) <$> artificial in
  let rows := np.delete_entries columns <$> drop 1 a in
  _artificial (self w) = Some artificial →
  arrays w !! Tableau.table t = Some a →
  Forall (λ r, length (np.delete_entries columns r) = n + 1) a →
  passes_unit_test (column rows n) = true →
  Solver._restore_initial_tableau t model w = Ok t' w' →
  ∃ before row objective_row value,
    Solver.restore_loop (restored_objective model :: rows) 0
      (column rows <$> seq 0 n) = Some (before :: rows) ∧
    before !! n = Some value ∧
    rows !! np.argmax (column rows n) = Some row ∧
    row !! n = Some 1%Qc ∧
    objective_row = np.sub_row before (np.scale_row value row) ∧
    arrays w' !! Tableau.table t' = Some (objective_row :: rows) ∧
    objective_row !! n = Some 0%Qc.
Proof.
  intros n columns rows Hart Ha Hshape Htest Hrun.
  destruct (_restore_initial_tableau_loop _ _ _ _ _ _ _ Hart Ha Hshape Hrun)
    as (table & Hloop & Harr & Hsome & Hrows & Hobj).
  fold n columns rows in Hloop, Harr, Hsome, Hrows.
  rewrite Nat.add_1_r, seq_S, fmap_app, restore_loop_app in Hloop.
  cbn [Nat.add fmap list_fmap] in Hloop.
  rewrite length_fmap, length_seq in Hloop.
  destruct (Solver.restore_loop _ 0 (column rows <$> seq 0 n)) as [table1|] eqn:Hfront;
    [|discriminate Hloop].
  cbn [mbind option_bind] in Hloop.
  apply restore_loop_combination in Hfront as (before & -> & Hlen & _);
    [|exact Hrows].
  cbn [Solver.restore_loop] in Hloop.
  unfold passes_unit_test in Htest. rewrite Htest in Hloop.
  unfold np.item in Hloop. cbn [lookup list_lookup mbind option_bind] in Hloop.
  destruct (before !! n) as [value|] eqn:Hvalue; [|discriminate Hloop].
  rewrite Nat.add_1_r in Hloop.
  cbn [lookup list_lookup mbind option_bind] in Hloop.
  destruct (rows !! np.argmax (column rows n)) as [row|] eqn:Hrow;
    [|discriminate Hloop].
  unfold np.isub_row in Hloop.
  cbn [lookup list_lookup mbind option_bind insert list_insert] in Hloop.
  injection Hloop as <-.
  assert (column rows n ≠ []) as Hcol.
  { unfold column. destruct rows; [done|discriminate]. }
  pose proof (argmax_lookup _ Hcol) as Hmax.
  pose proof (eq_trans (eq_sym (column_lookup rows n _ row Hrow)) Hmax) as Hentry.
  clear Hmax. injection Hentry as Hmax.
  apply andb_prop in Htest as [Hone _]. unfold eqb in Hone.
  apply bool_decide_eq_true_1 in Hone. rewrite Hone in Hmax.
  pose proof (proj1 (Forall_forall _ _) Hrows row
                (list_elem_of_lookup_2 _ _ _ Hrow)) as Hrlen. cbv beta in Hrlen.
  destruct (lookup_lt_is_Some_2 row n) as [x Hx]; [lia|].
  rewrite Hx in Hmax. cbn [default from_option id] in Hmax. subst x.
  exists before, row, (np.sub_row before (np.scale_row value row)), value.
  split_and!; try done.
  unfold np.sub_row, np.scale_row.
  rewrite lookup_zip_with, Hvalue, list_lookup_fmap, Hx.
  cbn [mbind option_bind fmap option_fmap option_map]. f_equal. ring.
Qed.

(** X8 on a model whose first phase ends with the bounds 1 and 0.  Before
    the column of the bounds is visited the objective row is in canonical
    form for the basis of the first phase; the visit spoils it, and [solve]
    returns x1 = 0, x2 = 0 as optimal although the model requires x1 = 1. *)
Lemma restore_treats_bounds_as_column_witness :
  let normal_model := augmented unit_bounds_model in
  ∃ w0 t w3 artificial a t' w4 sol w',
    ((phase_one (ops := reference_ops) 5 normal_model w0 = Ok t w3
      ∧ _artificial (self w3) = Some artificial
      ∧ arrays w3 !! Tableau.table t = Some a
      ∧ Forall (λ r, length (np.delete_entries ((λ p, Var.index p.1) <$> artificial) r)
                     = length (Model.variables normal_model) + 1) a
      ∧ passes_unit_test
          (column (np.delete_entries ((λ p, Var.index p.1) <$> artificial)
                     <$> drop 1 a)
                  (length (Model.variables normal_model))) = true
      ∧ Solver._restore_initial_tableau t normal_model w3 = Ok t' w4)
     ∧ ∃ before objective_row,
         Solver.restore_loop
           (restored_objective normal_model
            :: (np.delete_entries ((λ p, Var.index p.1) <$> artificial) <$> drop 1 a))
           0
           (column (np.delete_entries ((λ p, Var.index p.1) <$> artificial)
                      <$> drop 1 a)
              <$> seq 0 (length (Model.variables normal_model)))
         = Some (before
                 :: (np.delete_entries ((λ p, Var.index p.1) <$> artificial)
                       <$> drop 1 a)) ∧
         arrays w4 !! Tableau.table t'
         = Some (objective_row
                 :: (np.delete_entries ((λ p, Var.index p.1) <$> artificial)
                       <$> drop 1 a)) ∧
         objective_row !! length (Model.variables normal_model) = Some 0%Qc)
    ∧ Solver.solve (ops := reference_ops) 5 unit_bounds_model fresh = Ok sol w'
    ∧ Solution.status sol = Status.OPTIMAL
    ∧ Solution.assignment sol unit_bounds_model = num_of_Z <$> [0; 0]%Z.
Proof.
  intros normal_model.
  exists (mkWorld (mkSolver (Some (slack_pass unit_bounds_model).2) None None) []).
  eexists _, _, _, _, _, _, _, _.
  assert (∀ P Q : Prop, P → (P → Q) → P ∧ Q) as Hand by tauto.
  split; [apply Hand|].
  - split; [vm_compute; reflexivity|].
    split; [reflexivity|].
    split; [reflexivity|].
    split; [apply (bool_decide_unpack _); vm_compute; reflexivity|].
    split; [vm_compute; reflexivity|].
    vm_compute. reflexivity.
  - intros (_ & H2 & H3 & H4 & H5 & H6).
    destruct (restore_treats_bounds_as_column _ _ _ _ _ _ _ H2 H3 H4 H5 H6)
      as (before & row & obj & value & Hbefore & _ & _ & _ & _ & Harr & Hlast).
    exists before, obj. exact (conj Hbefore (conj Harr Hlast)).
  - split; [vm_compute; reflexivity|].
    split; [reflexivity|].
    apply (bool_decide_unpack _). vm_compute. reflexivity.
Defined.

(** ** The invariants of a model through the two transformations *)

Lemma aux_dict_indices {B} (prefix : string) (n : nat)
    (f : Constraint.t → Var.t → B) (l : list Constraint.t) :
  Var.index <$> (imap (λ j c, (aux_var prefix n j c, f c (aux_var prefix n j c))) l).*1
  = seq n (length l).
Proof.
  revert n. induction l as [|c l IH]; intros n; [reflexivity|].
  cbn [imap fmap list_fmap length seq fst aux_var Var.index].
  rewrite Nat.add_0_r. f_equal.
  rewrite <- (IH (S n)). f_equal. f_equal. apply imap_ext.
  intros j c' _. cbn. unfold aux_var. by rewrite Nat.add_succ_r.
Qed.

(** The common loop numbers the variables it creates after those the model
    has. *)
Lemma aux_loop_variables_indexed sel prefix upd_c upd_o model todo :
  variables_indexed (Model.variables model) →
  variables_indexed (Model.variables (aux_loop sel prefix upd_c upd_o model todo).1.1).
Proof.
  unfold variables_indexed. intros Hidx.
  rewrite aux_loop_variables, aux_loop_dict, fmap_app, length_app, Hidx.
  rewrite aux_dict_indices, length_fmap, length_imap.
  by rewrite seq_app.
Qed.

(** It leaves the index of every constraint as it was. *)
Lemma aux_loop_indices sel prefix upd_c upd_o model todo :
  (∀ c v, Constraint.index (upd_c c v) = Constraint.index c) →
  Constraint.index <$> (aux_loop sel prefix upd_c upd_o model todo).1.2
  = Constraint.index <$> todo.
Proof.
  intros Hupd. apply list_eq. intros k. rewrite !list_lookup_fmap.
  destruct (todo !! k) as [c|] eqn:Hk.
  - rewrite (aux_loop_done _ _ _ _ _ _ _ _ Hk). cbn.
    by destruct (sel c); rewrite ?Hupd.
  - rewrite lookup_ge_None_2; [done|].
    rewrite aux_loop_done_length. by apply lookup_ge_None.
Qed.

Lemma augmented_variables_indexed model :
  variables_indexed (Model.variables model) →
  variables_indexed (Model.variables (augmented model)).
Proof.
  intros Hidx. unfold augmented, surplus_pass.
  cbn [Model.variables Model.with_constraints].
  apply aux_loop_variables_indexed. unfold after_slacks, slack_pass.
  cbn [Model.variables Model.with_constraints].
  apply aux_loop_variables_indexed. by rewrite before_slacks_variables.
Qed.

Lemma augmented_objective_in_scope model :
  objective_in_scope model → objective_in_scope (augmented model).
Proof.
  unfold objective_in_scope. intros Hscope i x Hx.
  rewrite augmented_variables, length_app.
  assert (is_Some (Expression.factors
                     (Objective.expression (Model.objective model)) !! i)) as [y Hy].
  { rewrite augmented_objective in Hx. destruct (decide _); [|by exists x].
    apply (scale_factors_lookup (-1)%Qc). by exists x. }
  specialize (Hscope i y Hy). cbv beta in Hscope. lia.
Qed.

Lemma augmented_well_formed model :
  well_formed model → well_formed (augmented model).
Proof.
  intros (Hvars & Hidx & Hscope & Hobj). split_and!.
  - by apply augmented_variables_indexed.
  - by apply augmented_indexed.
  - by apply augmented_in_scope.
  - by apply augmented_objective_in_scope.
Qed.



Lemma foldl_add_to_objective_factors (o : Objective.t) (vs : list Var.t) i :
  is_Some (Expression.factors (Objective.expression (foldl add_to_objective o vs)) !! i)
  → is_Some (Expression.factors (Objective.expression o) !! i)
    ∨ i ∈ Var.index <$> vs.
Proof.
  revert o. induction vs as [|v vs IH]; intros o Hi; [by left|].
  cbn [foldl] in Hi. apply IH in Hi as [Hi|Hi].
  - unfold add_to_objective in Hi. cbn [Objective.expression] in Hi.
    apply add_factors_lookup in Hi as [Hi|Hi]; [by left|].
    apply var_factors_lookup in Hi as ->. right. rewrite fmap_cons. left.
  - right. rewrite fmap_cons. by right.
Qed.

Lemma artificial_of_indices (slacks : Dict) (augmented_model : Model.t) :
  (λ p, Var.index p.1) <$> artificial_of slacks augmented_model
  = seq (length (Model.variables augmented_model))
        (length (artificial_of slacks augmented_model)).
Proof.
  unfold artificial_of, artificial_pass. rewrite aux_loop_dict, length_imap.
  rewrite <- aux_dict_indices with (prefix := "R") (f := add_artificial).
  by rewrite <- list_fmap_compose.
Qed.

Lemma presolve_of_well_formed (slacks : Dict) (augmented_model : Model.t) :
  well_formed augmented_model →
  well_formed (presolve_of slacks augmented_model).
Proof.
  intros (Hvars & Hidx & Hscope & Hobj).
  set (n := length (Model.variables augmented_model)).
  set (pick := lacks_slack (constraint_indices slacks)).
  set (picked := filter (λ c, pick c) (Model.constraints augmented_model)).
  assert (Var.index <$> (artificial_of slacks augmented_model).*1
          = seq n (length picked)) as Hart.
  { unfold artificial_of, artificial_pass. rewrite aux_loop_dict.
    apply aux_dict_indices. }
  assert (length (Model.variables (presolve_of slacks augmented_model))
          = n + length picked) as Hlen.
  { rewrite presolve_of_variables, length_app.
    rewrite <- (length_fmap Var.index (artificial_of slacks augmented_model).*1).
    by rewrite Hart, length_seq. }
  split_and!.
  - unfold presolve_of, artificial_pass. cbn [Model.variables Model.with_constraints].
    by apply aux_loop_variables_indexed.
  - unfold indexed_by_position, presolve_of, artificial_pass.
    cbn [Model.constraints Model.with_constraints].
    rewrite aux_loop_indices by done. by rewrite aux_loop_done_length.
  - unfold constraints_in_scope. rewrite Hlen.
    apply Forall_lookup_2. intros k c' Hk'.
    unfold presolve_of, artificial_pass in Hk'.
    cbn [Model.constraints Model.with_constraints] in Hk'.
    assert (k < length (Model.constraints augmented_model)) as Hlt
      by (apply lookup_lt_Some in Hk'; by rewrite aux_loop_done_length in Hk').
    destruct (lookup_lt_is_Some_2 _ _ Hlt) as [c Hk].
    rewrite (aux_loop_done _ _ _ _ _ _ _ _ Hk) in Hk'. injection Hk' as <-.
    assert (∀ i, is_Some (Expression.factors (Constraint.expression c) !! i) → i < n)
      as Hold.
    { intros i [x Hx]. unfold constraints_in_scope in Hscope.
      rewrite Forall_forall in Hscope.
      exact (Hscope c (list_elem_of_lookup_2 _ _ _ Hk) i x Hx). }
    intros i x Hx. cbv beta.
    fold pick in Hx. destruct (pick c) eqn:Hpick.
    + unfold add_artificial in Hx. cbn [Constraint.expression] in Hx.
      destruct (add_factors_lookup _ _ i (ltac:(by exists x))) as [Hi|Hi].
      * apply Hold in Hi. lia.
      * apply var_factors_lookup in Hi as ->. cbn [aux_var Var.index].
        pose proof (picked_before_lt pick _ _ _ Hk Hpick). fold n picked in H |- *. lia.
    + specialize (Hold i (ltac:(by exists x))). lia.
  - unfold objective_in_scope. rewrite Hlen. intros i x Hx. cbv beta.
    unfold presolve_of, artificial_pass in Hx.
    cbn [Model.objective Model.with_constraints] in Hx.
    rewrite aux_loop_objective in Hx.
    destruct (foldl_add_to_objective_factors _ _ i (ltac:(by exists x))) as [[y Hy]|Hi].
    + specialize (Hobj i y Hy). cbv beta in Hobj. fold n in Hobj. lia.
    + fold (artificial_pass (constraint_indices slacks) augmented_model) in Hi.
      fold (artificial_of slacks augmented_model) in Hi.
      rewrite Hart in Hi. apply elem_of_seq in Hi. lia.
Qed.

(** X10.  [_create_presolve_model] keeps a model well formed as well: the
    artificial variables are numbered after the variables of the augmented
    model, every constraint keeps its index, and the constraints and the
    objective of the presolve model mention only its variables. *)
Theorem presolve_model_well_formed (augmented_model : Model.t) (w : World)
    (slacks : Dict) :
  _slacks (self w) = Some slacks →
  well_formed augmented_model →
  ∃ presolve_model w1 artificial,
    Solver._create_presolve_model augmented_model w = Ok presolve_model w1 ∧
    _artificial (self w1) = Some artificial ∧
    well_formed presolve_model ∧
    Var.index <$> artificial.*1
    = seq (length (Model.variables augmented_model)) (length artificial) ∧
    Model.variables presolve_model
    = Model.variables augmented_model ++ artificial.*1.
Proof.
  intros Hslacks Hwf.
  eexists _, _, _.
  split; [exact (_create_presolve_model_run augmented_model w slacks Hslacks)|].
  cbn zeta. cbn [self _artificial].
  split; [reflexivity|].
  fold (presolve_of slacks augmented_model).
  split; [by apply presolve_of_well_formed|].
  split; [|apply presolve_of_variables].
  unfold artificial_pass. rewrite aux_loop_dict, aux_dict_indices.
  by rewrite length_imap.
Qed.

(** X10 on the augmented model of example 04. *)
Lemma presolve_model_well_formed_witness :
  let w0 := mkWorld (mkSolver (Some (slack_pass example_04.create_model).2)
                              None None) [] in
  ∃ presolve_model w1,
    Solver._create_presolve_model (augmented example_04.create_model) w0
    = Ok presolve_model w1 ∧
    well_formed presolve_model.
Proof.
  intros w0.
  assert (well_formed (augmented example_04.create_model)) as Hwf.
  { split_and!.
    - vm_compute. reflexivity.
    - vm_compute. reflexivity.
    - apply (bool_decide_unpack _). vm_compute. reflexivity.
    - apply (bool_decide_unpack _). vm_compute. reflexivity. }
  destruct (presolve_model_well_formed (augmented example_04.create_model) w0 _
              eq_refl Hwf) as (pm & w1 & art & Hrun & _ & Hpm & _).
  exists pm, w1. exact (conj Hrun Hpm).
Defined.

(** ** The augmented model augmented again *)

Lemma aux_loop_none sel prefix upd_c upd_o model todo :
  Forall (λ c, sel c = false) todo →
  aux_loop sel prefix upd_c upd_o model todo = (model, todo, []).
Proof.
  induction 1 as [|c rest Hc _ IH]; [reflexivity|].
  rewrite aux_loop_cons, Hc, IH. reflexivity.
Qed.

Lemma with_constraints_same model :
  Model.with_constraints model (Model.constraints model) = model.
Proof. by destruct model. Qed.

Lemma fmap_fixed {A} (f : A → A) (l : list A) :
  Forall (λ x, f x = x) l → f <$> l = l.
Proof. induction 1 as [|x l Hx _ IH]; [reflexivity|]. by rewrite fmap_cons, Hx, IH. Qed.

Lemma filter_all {A} (P : A → bool) (l : list A) :
  Forall (λ x, P x = true) l → filter (λ x, P x) l = l.
Proof.
  induction 1 as [|x l Hx _ IH]; [reflexivity|].
  rewrite filter_cons, Hx, IH. reflexivity.
Qed.

Lemma filter_none {A} (P : A → bool) (l : list A) :
  Forall (λ x, P x = false) l → filter (λ x, P x) l = [].
Proof.
  induction 1 as [|x l Hx _ IH]; [reflexivity|].
  rewrite filter_cons, Hx, IH. reflexivity.
Qed.

(** A constraint of the augmented model is an equation in canonical form
    with a bound that is not negative. *)
Lemma augmented_constraint_shape model :
  Forall (λ c, Constraint.type c = ConstraintType.EQ
               ∧ (0 ≤ Constraint.bound c)%Qc
               ∧ Expression.constant (Constraint.expression c) = 0%Qc)
         (Model.constraints (augmented model)).
Proof.
  apply Forall_lookup_2. intros k c' Hk'.
  assert (k < length (normalized_constraints model)) as Hlt
    by (apply lookup_lt_Some in Hk';
        by rewrite augmented_length, <-normalized_constraints_length in Hk').
  destruct (lookup_lt_is_Some_2 _ _ Hlt) as [c Hk].
  rewrite augmented_constraints, (surplus_pass_done _ _ _ Hk) in Hk'.
  injection Hk' as <-.
  destruct (normalized_lookup _ _ _ Hk) as (c0 & _ & Hc).
  assert ((0 ≤ Constraint.bound c)%Qc) as Hbound
    by (rewrite Hc; apply normalize_bound_nonneg).
  assert (Expression.constant (Constraint.expression c) = 0%Qc) as Hconst.
  { rewrite Hc. unfold normalize_bound.
    destruct (ltb _ _); cbn; [ring|reflexivity]. }
  destruct (Constraint.type c) eqn:Hty; cbn; rewrite ?Hconst;
    (split_and!; [done|done|first [ring|done]]).
Qed.

Lemma augmented_objective_type model :
  Objective.type (Model.objective (augmented model)) = ObjectiveType.MAX.
Proof.
  rewrite augmented_objective. destruct (decide _) as [Hmin|Hmax].
  - cbn. by rewrite Hmin.
  - by destruct (Objective.type (Model.objective model)).
Qed.

Lemma before_slacks_augmented model :
  before_slacks (augmented model) = augmented model.
Proof.
  pose proof (augmented_constraint_shape model) as Hshape.
  unfold before_slacks, Model.deepcopy.
  assert (Model.simplify (augmented model) = augmented model) as ->.
  { unfold Model.simplify. rewrite fmap_fixed; [apply with_constraints_same|].
    eapply Forall_impl; [exact Hshape|]. intros [[f k] ty b i] (_ & _ & Hk).
    cbn in *. subst k. unfold Constraint.simplify. cbn. f_equal. ring. }
  assert (Solver._change_objective_to_max (augmented model) = augmented model) as ->.
  { unfold Solver._change_objective_to_max.
    rewrite decide_False; [reflexivity|]. by rewrite augmented_objective_type. }
  unfold Solver._change_constraints_bounds_to_nonnegative.
  rewrite fmap_fixed; [apply with_constraints_same|].
  eapply Forall_impl; [exact Hshape|]. intros c (_ & Hb & _). cbv beta.
  unfold ltb. rewrite bool_decide_eq_false_2; [reflexivity|].
  by apply Qcle_not_lt.
Qed.

Lemma slack_pass_augmented model :
  slack_pass (augmented model)
  = (augmented model, Model.constraints (augmented model), []).
Proof.
  unfold slack_pass. rewrite <- before_slacks_constraints, before_slacks_augmented.
  apply aux_loop_none.
  eapply Forall_impl; [apply augmented_constraint_shape|].
  intros c (Hty & _). unfold is_LE. cbv beta. by rewrite Hty.
Qed.

Lemma surplus_pass_augmented model :
  surplus_pass (augmented model)
  = (augmented model, Model.constraints (augmented model), []).
Proof.
  unfold surplus_pass, after_slacks. rewrite slack_pass_augmented.
  cbn [fst snd]. rewrite with_constraints_same.
  apply aux_loop_none.
  eapply Forall_impl; [apply augmented_constraint_shape|].
  intros c (Hty & _). unfold is_GE. cbv beta. by rewrite Hty.
Qed.

(** X11.  [_augment_model] changes nothing when it is run on a model it has
    returned: the model comes back as it is, and the dictionaries of slack
    and of surplus variables it writes are empty.  [solve] therefore sends
    an augmented model that has a constraint through the first phase, which
    gives every constraint an artificial variable. *)
Theorem augment_model_idempotent (model : Model.t) (w : World) :
  ∃ normal_model w0,
    Solver._augment_model model w = Ok normal_model w0 ∧
    Solver._augment_model normal_model w0
    = Ok normal_model
         (mkWorld (mkSolver (Some []) (Some []) (_artificial (self w))) (arrays w)) ∧
    Solver.needs_presolve [] normal_model
    = bool_decide (0 < length (Model.constraints model)) ∧
    length (artificial_of [] normal_model) = length (Model.constraints model).
Proof.
  eexists _, _. split; [apply _augment_model_run|].
  split; [|split].
  - rewrite _augment_model_run. cbn [self arrays _artificial].
    unfold augmented at 1.
    rewrite slack_pass_augmented, surplus_pass_augmented. cbn [fst snd].
    by rewrite with_constraints_same.
  - unfold Solver.needs_presolve. by rewrite augmented_length.
  - unfold artificial_of, artificial_pass. rewrite aux_loop_dict, length_imap.
    rewrite <- (augmented_length model). f_equal.
    apply filter_all, Forall_forall. intros c _. unfold lacks_slack.
    apply bool_decide_eq_true_2. cbn. apply not_elem_of_nil.
Qed.

(** ** The tableau of a model that needs no first phase *)

Lemma coefficient_outside (e : Expression.t) (i : nat) :
  Expression.factors e !! i = None → Expression.coefficient e i = 0%Qc.
Proof. unfold Expression.coefficient. by intros ->. Qed.

Lemma coefficient_scale_outside (k : num) (e : Expression.t) (i : nat) :
  Expression.factors e !! i = None →
  Expression.coefficient (Expression.scale k e) i = 0%Qc.
Proof.
  intros Hi. apply coefficient_outside.
  destruct (Expression.factors (Expression.scale k e) !! i) eqn:Hs; [|done].
  destruct (scale_factors_lookup k e i (mk_is_Some _ _ Hs)) as [x Hx]. congruence.
Qed.

(** When no constraint ends without a slack variable, the bounds are made
    non-negative without any inversion and every constraint is a [<=] one
    when the slack variables are added. *)
Lemma all_normalized_LE model :
  existsb ends_without_slack (Model.constraints (Model.simplify model)) = false →
  Forall (λ c, is_LE c = true) (normalized_constraints model).
Proof.
  intros Hnone. unfold normalized_constraints. apply Forall_fmap, Forall_forall.
  intros c Hc. cbv beta. unfold compose.
  destruct (is_LE (normalize_bound c)) eqn:Hle; [done|].
  assert (existsb ends_without_slack (Model.constraints (Model.simplify model)) = true)
    as Hsome; [|congruence].
  apply existsb_exists. exists c. split; [by apply list_elem_of_In|].
  by rewrite ends_without_slack_normalized, Hle.
Qed.

(** X12.  The tableau [solve] starts from when it skips the first phase is
    in canonical form for the basis of the slack variables.  For a model
    whose constraints and objective mention only its [n] variables and
    whose [m] constraints all get a slack variable, the table has [m]
    constraint rows of [n + m + 1] entries; in the row of constraint [i] the
    column of the slack variable [n + k] holds 1 when [k = i] and 0
    otherwise, and the last entry, the bound, is not negative; the
    objective row is 0 in every slack column and in the last column. *)
Theorem slack_only_tableau_canonical (model : Model.t) (w : World) :
  constraints_in_scope model →
  objective_in_scope model →
  existsb ends_without_slack (Model.constraints (Model.simplify model)) = false →
  let n := length (Model.variables model) in
  let m := length (Model.constraints model) in
  ∃ normal_model w0 slacks t w1 objective_row rows,
    Solver._augment_model model w = Ok normal_model w0 ∧
    _slacks (self w0) = Some slacks ∧
    Solver.needs_presolve slacks normal_model = false ∧
    Var.index <$> slacks.*1 = seq n m ∧
    Solver._basic_initial_tableau normal_model w0 = Ok t w1 ∧
    arrays w1 !! Tableau.table t = Some (objective_row :: rows) ∧
    length rows = m ∧
    length objective_row = n + m + 1 ∧
    (∀ j, n ≤ j → at_col objective_row j = 0%Qc) ∧
    ∀ i row, rows !! i = Some row →
      length row = n + m + 1 ∧
      (0 ≤ at_col row (n + m))%Qc ∧
      ∀ k, k < m → at_col row (n + k) = if decide (k = i) then 1%Qc else 0%Qc.
Proof.
  intros Hscope Hobj Hnone n m.
  pose proof (all_normalized_LE model Hnone) as HLE.
  assert (length (slack_pass model).2 = m) as Hslacks.
  { rewrite slack_pass_dict_length, (filter_all is_LE _ HLE).
    apply normalized_constraints_length. }
  assert ((surplus_pass model).2 = []) as Hsurpluses.
  { unfold surplus_pass. rewrite aux_loop_dict, slack_pass_GE_untouched.
    rewrite (filter_none is_GE); [reflexivity|].
    eapply Forall_impl; [exact HLE|]. intros c Hc. cbv beta in *.
    unfold is_LE in Hc. apply bool_decide_eq_true_1 in Hc.
    unfold is_GE. apply bool_decide_eq_false_2. by rewrite Hc. }
  assert (length (Model.variables (augmented model)) = n + m) as Hvars.
  { rewrite augmented_variables, Hsurpluses, !length_app, !length_fmap, Hslacks.
    cbn. lia. }
  eexists _, _, _, _, _, _, _.
  split; [apply _augment_model_run|].
  split; [reflexivity|].
  split; [by rewrite needs_presolve_iff|].
  split.
  { unfold slack_pass. rewrite aux_loop_dict, before_slacks_variables.
    rewrite aux_dict_indices, (filter_all is_LE _ HLE), normalized_constraints_length.
    reflexivity. }
  split; [apply _basic_initial_tableau_run|].
  cbn [Tableau.table arrays].
  split.
  { rewrite lookup_app_r, Nat.sub_diag by lia. cbn [lookup list_lookup].
    rewrite basic_table_rows. reflexivity. }
  split; [unfold constraint_rows; by rewrite length_fmap, augmented_length|].
  split; [by rewrite length_app, coefficients_length, Hvars|].
  split.
  - intros j Hj. unfold at_col.
    destruct (decide (j < n + m)) as [Hlt|Hge].
    + rewrite lookup_app_l by (by rewrite coefficients_length, Hvars).
      unfold coefficients. rewrite list_lookup_fmap, lookup_seq_lt by lia.
      cbn [fmap option_fmap option_map default Nat.add].
      apply coefficient_scale_outside.
      destruct (Expression.factors _ !! j) as [x|] eqn:Hx; [|done].
      assert (is_Some (Expression.factors
                         (Objective.expression (Model.objective model)) !! j))
        as [y Hy].
      { rewrite augmented_objective in Hx. destruct (decide _); [|by exists x].
        apply (scale_factors_lookup (-1)%Qc). by exists x. }
      specialize (Hobj j y Hy). cbv beta in Hobj. fold n in Hobj. lia.
    + rewrite lookup_app_r by (rewrite coefficients_length, Hvars; lia).
      rewrite coefficients_length, Hvars.
      destruct (j - (n + m)) as [|d]; [reflexivity|]. reflexivity.
  - intros i row Hrow. unfold constraint_rows in Hrow.
    rewrite list_lookup_fmap in Hrow.
    destruct (Model.constraints (augmented model) !! i) as [c'|] eqn:Hi;
      [|discriminate Hrow].
    injection Hrow as <-.
    assert (i < length (normalized_constraints model)) as Hlt
      by (apply lookup_lt_Some in Hi;
          by rewrite augmented_length, <-normalized_constraints_length in Hi).
    destruct (lookup_lt_is_Some_2 _ _ Hlt) as [c Hc].
    rewrite augmented_constraints, (surplus_pass_done _ _ _ Hc) in Hi.
    pose proof (proj1 (Forall_lookup _ _) HLE i c Hc) as Hty. cbv beta in Hty.
    unfold is_LE in Hty. apply bool_decide_eq_true_1 in Hty.
    rewrite Hty in Hi. injection Hi as <-.
    assert (picked_before is_LE (normalized_constraints model) i = i) as ->.
    { unfold picked_before. rewrite filter_all.
      - rewrite length_take. lia.
      - apply Forall_take, HLE. }
    fold n.
    destruct (normalized_lookup _ _ _ Hc) as (c0 & Hc0 & Heq).
    split; [by rewrite constraint_row_length, Hvars; lia|].
    split.
    + unfold at_col, constraint_row.
      rewrite lookup_app_r by (rewrite coefficients_length, Hvars; lia).
      rewrite coefficients_length, Hvars, Nat.sub_diag. cbn.
      rewrite Heq. apply normalize_bound_nonneg.
    + intros k Hk. rewrite constraint_row_at_variable by (rewrite Hvars; lia).
      unfold add_slack. cbn [Constraint.expression].
      rewrite coefficient_add, coefficient_var. cbn [aux_var Var.index].
      rewrite coefficient_outside.
      * destruct (decide (n + i = n + k)), (decide (k = i)); try lia;
          [apply Qcplus_0_l|apply Qcplus_0_l].
      * destruct (Expression.factors (Constraint.expression c) !! (n + k))
          as [x|] eqn:Hx; [|done].
        assert (is_Some (Expression.factors (Constraint.expression c0) !! (n + k)))
          as [y Hy].
        { apply normalize_bound_factors. rewrite <- Heq. by exists x. }
        unfold constraints_in_scope in Hscope. rewrite Forall_forall in Hscope.
        specialize (Hscope c0 (list_elem_of_lookup_2 _ _ _ Hc0) (n + k) y Hy).
        cbv beta in Hscope. fold n in Hscope. lia.
Qed.

(** X12 on a model with one [<=] constraint. *)
Lemma slack_only_tableau_canonical_witness :
  (constraints_in_scope models.unbounded
   ∧ objective_in_scope models.unbounded
   ∧ existsb ends_without_slack
       (Model.constraints (Model.simplify models.unbounded)) = false)
  ∧ ∃ normal_model w0 t w1 objective_row rows,
      Solver._augment_model models.unbounded fresh = Ok normal_model w0 ∧
      Solver._basic_initial_tableau normal_model w0 = Ok t w1 ∧
      arrays w1 !! Tableau.table t = Some (objective_row :: rows) ∧
      ∀ i row, rows !! i = Some row →
        ∀ k, k < 1 → at_col row (2 + k) = if decide (k = i) then 1%Qc else 0%Qc.
Proof.
  assert (constraints_in_scope models.unbounded) as Hscope
    by (apply (bool_decide_unpack _); vm_compute; reflexivity).
  assert (objective_in_scope models.unbounded) as Hobj
    by (apply (bool_decide_unpack _); vm_compute; reflexivity).
  split; [exact (conj Hscope (conj Hobj eq_refl))|].
  destruct (slack_only_tableau_canonical models.unbounded fresh Hscope Hobj eq_refl)
    as (normal_model & w0 & slacks & t & w1 & objective_row & rows
        & Haug & _ & _ & _ & Hbasic & Harr & _ & _ & _ & Hrows).
  exists normal_model, w0, t, w1, objective_row, rows.
  refine (conj Haug (conj Hbasic (conj Harr _))).
  intros i row Hrow. exact (proj2 (proj2 (Hrows i row Hrow))).
Defined.

(** ** Exceptions *)

Lemma bind_no_exception {A B} (m : M A) (f : A → M B) (w : World) :
  no_exception (m w) →
  (∀ a w1, m w = Ok a w1 → no_exception (f a w1)) →
  no_exception ((m ≫= f) w).
Proof.
  unfold mbind, M_bind. destruct (m w) as [a w1| |]; intros Hm Hf;
    [by apply Hf|done|done].
Qed.

(** The loop raises nothing of its own. *)
Lemma _optimize_no_exception `{ops : TableauOps} (fuel : nat) (t : Tableau.t)
    (w : World) :
  is_Some (arrays w !! Tableau.table t) →
  no_exception (Solver._optimize fuel t w).
Proof.
  revert w. induction fuel as [|fuel IH]; intros w [a Ha]; [exact I|].
  cbn [Solver._optimize]. unfold mbind, M_bind, load, store, mret, M_ret.
  rewrite Ha.
  destruct (is_optimal (Tableau.model t) a); [exact I|].
  destruct (is_unbounded (Tableau.model t) a _); [exact I|].
  apply IH. cbn [arrays]. apply lookup_lt_is_Some.
  rewrite length_insert. by apply lookup_lt_Some in Ha.
Qed.

Lemma solve_from_no_exception `{ops : TableauOps} (fuel : nat) (model : Model.t)
    (t : Tableau.t) (w : World) :
  is_Some (arrays w !! Tableau.table t) →
  no_exception (Solver.solve_from fuel model t w).
Proof.
  intros [a Ha]. rewrite (solve_from_optimize _ _ _ _ _ Ha).
  pose proof (lookup_lt_Some _ _ _ Ha) as Hlt.
  pose proof (_optimize_no_exception fuel t (mkWorld (self w) (arrays w ++ [a])))
    as Hopt.
  destruct (Solver._optimize fuel t _) as [b w2| |] eqn:Hrun.
  - apply _optimize_inv in Hrun as (k & a0 & a' & _ & _ & _ & -> & _).
    destruct b; [|exact I].
    pose proof (own_array_after w _ a a' Hlt) as Hown.
    match goal with
    | |- no_exception (match ?x with _ => _ end) =>
        replace x with (Some a') by (symmetry; exact Hown)
    end.
    exact I.
  - apply Hopt. cbn [arrays]. apply lookup_lt_is_Some. rewrite length_app. lia.
  - exact I.
Qed.

Lemma pivots_rectangular `{ops : TableauOps} (model : Model.t) (k : nat)
    (a a' : Matrix) (rows cols : nat) :
  keeps_shape ops → pivots model k a a' →
  rectangular rows cols a → rectangular rows cols a'.
Proof.
  intros [Hpivot _]. induction 1 as [a|k a a' _ _ _ IH]; [done|].
  intros Ha. apply IH, Hpivot, Ha.
Qed.

(** The table of the first phase of a well-formed augmented model. *)
Lemma phase_one_table_rectangular (slacks : Dict) (augmented_model : Model.t) :
  indexed_by_position (Model.constraints augmented_model) →
  rectangular
    (S (length (Model.constraints augmented_model)))
    (S (length (Model.variables (presolve_of slacks augmented_model))))
    (phase_one_objective_row (presolve_of slacks augmented_model)
       (artificial_of slacks augmented_model)
     :: constraint_rows (presolve_of slacks augmented_model)).
Proof.
  intros Hidx. split.
  - cbn [length]. unfold constraint_rows.
    by rewrite length_fmap, presolve_constraints_length.
  - apply Forall_cons. split; [by apply phase_one_row_length|].
    unfold constraint_rows. apply Forall_fmap, Forall_forall. intros c _.
    apply constraint_row_length.
Qed.

(** The first phase and the restoration on a well-formed augmented model
    that has a constraint. *)
Lemma _presolve_no_exception `{ops : TableauOps} (fuel : nat)
    (augmented_model : Model.t) (w : World) (slacks : Dict) :
  keeps_shape ops →
  _slacks (self w) = Some slacks →
  indexed_by_position (Model.constraints augmented_model) →
  0 < length (Model.constraints augmented_model) →
  no_exception (Solver._presolve fuel augmented_model w).
Proof.
  intros Hshape Hslacks Hidx Hsome.
  set (pm := presolve_of slacks augmented_model).
  set (art := artificial_of slacks augmented_model).
  set (n := length (Model.variables augmented_model)).
  assert (length (Model.variables pm) = n + length art) as Hvars
    by apply presolve_variables_length.
  destruct (artificial_in_range augmented_model slacks Hidx) as [Hcols Hrows].
  fold pm art in Hcols, Hrows.
  pose proof (phase_one_table_rectangular slacks augmented_model Hidx) as Hrect.
  fold pm art in Hrect.
  unfold Solver._presolve.
  rewrite (bind_run _ _ _ _ _
             (_create_presolve_model_run augmented_model w slacks Hslacks)).
  cbn zeta. fold pm art.
  set (w1 := mkWorld _ (arrays w)).
  rewrite (bind_run _ _ _ _ _
             (_presolve_initial_tableau_run pm w1 art eq_refl Hcols Hrows)).
  set (t := Tableau.mk pm (length (arrays w1))).
  set (w2 := mkWorld (self w1) _).
  assert (arrays w2 !! Tableau.table t
          = Some (phase_one_objective_row pm art :: constraint_rows pm)) as Ha.
  { cbn [arrays Tableau.table w2 t].
    by rewrite lookup_app_r, Nat.sub_diag by lia. }
  apply bind_no_exception.
  { apply _optimize_no_exception. by rewrite Ha. }
  intros b w3 Hopt.
  apply _optimize_inv in Hopt as (k & a & a' & Ha0 & Hpiv & _ & -> & _).
  pose proof (eq_trans (eq_sym Ha0) Ha) as Heq. injection Heq as ->.
  apply (pivots_rectangular _ _ _ _ _ _ Hshape Hpiv) in Hrect as Hrect'.
  assert (arrays (with_array w2 (Tableau.table t) a') !! Tableau.table t = Some a')
    as Ha'.
  { apply with_array_lookup. by apply lookup_lt_Some in Ha. }
  assert (Forall (λ p, Var.index p.1
                       < length (extract_assignment (Tableau.model t) a')) art)
    as Hrange.
  { destruct Hshape as [_ Hassign].
    rewrite (Hassign _ _ _ _ Hrect') by lia. rewrite Hvars.
    apply Forall_lookup_2. intros j p Hj.
    pose proof (f_equal (λ l, l !! j) (artificial_of_indices slacks augmented_model))
      as Hp. cbv beta in Hp. fold art n in Hp.
    rewrite list_lookup_fmap, Hj in Hp. cbn in Hp.
    pose proof (lookup_lt_Some _ _ _ Hj) as Hlt.
    rewrite lookup_seq_lt in Hp by done. injection Hp as ->. lia. }
  destruct (any_positive_in_range _ _ Hrange) as (infeasible & Hany & _).
  rewrite (bind_run _ _ _ infeasible (with_array w2 (Tableau.table t) a')).
  2:{ rewrite (_artifical_variables_are_positive_run _ _ a' art Ha' eq_refl).
      by rewrite Hany. }
  destruct infeasible; [exact I|].
  destruct Hrect' as [Hlen Hall].
  destruct (_restore_initial_tableau_run t augmented_model
              (with_array w2 (Tableau.table t) a') art a' eq_refl Ha')
    as (obj & Hrun & _).
  - apply artificial_of_indices.
  - lia.
  - eapply Forall_impl; [exact Hall|]. intros r Hr. cbv beta in *.
    rewrite Hr, Hvars. fold n. lia.
  - rewrite (bind_run _ _ _ _ _ Hrun). exact I.
Qed.

(** X13.  [solve] raises no exception on a well-formed model, whatever
    the solver's dictionaries held before, when the pivots of the tableau
    keep the shape of the table and the extracted assignment has a value
    for every column but the last: it returns a solution or does not
    return at all.  Every index the solver computes, of a row, of a column
    or into the assignment, is then in range. *)
Theorem solve_raises_nothing `{ops : TableauOps} (fuel : nat) (model : Model.t)
    (w : World) :
  keeps_shape ops →
  well_formed model →
  no_exception (Solver.solve fuel model w).
Proof.
  intros Hshape Hwf. apply augmented_well_formed in Hwf as (_ & Hidx & _ & _).
  rewrite solve_branches. cbv zeta.
  set (w0 := mkWorld _ (arrays w)).
  destruct (existsb _ _) eqn:Hpre.
  - assert (0 < length (Model.constraints (augmented model))) as Hsome.
    { rewrite augmented_length.
      destruct (Model.constraints model) eqn:Hcs; [|cbn; lia].
      unfold Model.simplify in Hpre. rewrite Hcs in Hpre. discriminate Hpre. }
    unfold Solver.presolve_path. apply bind_no_exception.
    + by apply (_presolve_no_exception fuel _ w0 (slack_pass model).2 Hshape).
    + intros [t success] w1 Hrun. destruct success; [|exact I]. cbn [negb].
      apply solve_from_no_exception.
      eapply _presolve_success_inv with (slacks := (slack_pass model).2) in Hrun;
        [|reflexivity].
      destruct Hrun as (-> & _ & a1 & a2 & ->). cbn [Tableau.table].
      apply lookup_lt_is_Some. rewrite length_app. cbn. lia.
  - unfold Solver.slack_only_path.
    rewrite (bind_run _ _ _ _ _ (_basic_initial_tableau_run _ _)).
    apply solve_from_no_exception. cbn [Tableau.table arrays].
    apply lookup_lt_is_Some. rewrite length_app. cbn. lia.
Qed.

(** The tableau of the design document keeps the shape of its table. *)
Lemma reference_keeps_shape (eps : num) : keeps_shape (spec_tableau eps).
Proof.
  split.
  - intros model a row col rows cols [Hlen Hall]. cbn. unfold SpecTableau.pivot.
    destruct (a !! row) as [r|] eqn:Hr; [|done].
    pose proof (proj1 (Forall_forall _ _) Hall r (list_elem_of_lookup_2 _ _ _ Hr))
      as Hrlen. cbv beta in Hrlen.
    split; [by rewrite length_imap|].
    apply Forall_lookup_2. intros i x Hx.
    rewrite list_lookup_imap in Hx.
    destruct (a !! i) as [other|] eqn:Hother; [|discriminate Hx].
    injection Hx as <-.
    destruct (decide (i = row)); [by rewrite length_fmap|].
    unfold np.sub_row, np.scale_row.
    rewrite length_zip_with, !length_fmap.
    pose proof (proj1 (Forall_forall _ _) Hall other
                  (list_elem_of_lookup_2 _ _ _ Hother)) as Holen.
    cbv beta in Holen. lia.
  - intros model a rows cols [Hlen Hall] Hrows. cbn.
    unfold SpecTableau.extract_assignment. rewrite length_fmap, length_seq.
    unfold np.ncols. destruct a as [|r a]; [cbn in Hlen; lia|].
    apply Forall_cons in Hall as [Hr _]. exact (f_equal (λ x, x - 1) Hr).
Qed.

(** X13 on the model of example 05 with the tableau of the design
    document. *)
Lemma solve_raises_nothing_witness :
  no_exception (Solver.solve (ops := reference_ops) 5 example_05.create_model fresh).
Proof.
  apply (solve_raises_nothing (ops := reference_ops) 5 example_05.create_model
           fresh (reference_keeps_shape SpecTableau.epsilon)).
  split_and!.
  - reflexivity.
  - reflexivity.
  - apply (bool_decide_unpack _). vm_compute. reflexivity.
  - apply (bool_decide_unpack _). vm_compute. reflexivity.
Defined.

(** ** A model without constraints *)

Lemma coefficient_scale (k : num) (e : Expression.t) (i : nat) :
  Expression.coefficient (Expression.scale k e) i
  = (k * Expression.coefficient e i)%Qc.
Proof.
  unfold Expression.coefficient, Expression.scale. cbn [Expression.factors].
  rewrite lookup_fmap. destruct (Expression.factors e !! i); cbn; [reflexivity|ring].
Qed.

Lemma unconstrained_augmented (model : Model.t) :
  Model.constraints model = [] →
  Model.variables (augmented model) = Model.variables model
  ∧ Model.constraints (augmented model) = [].
Proof.
  intros Hnone.
  assert (normalized_constraints model = []) as Hnorm.
  { unfold normalized_constraints, Model.simplify.
    cbn [Model.constraints Model.with_constraints]. by rewrite Hnone. }
  split.
  - rewrite augmented_variables. unfold surplus_pass, slack_pass.
    rewrite !aux_loop_dict, Hnorm. cbn. by rewrite app_nil_r.
  - apply length_zero_iff_nil. by rewrite augmented_length, Hnone.
Qed.

(** No column of a table that has an objective row only is basic. *)
Lemma basic_row_objective_only (eps : num) (row : list num) (j : nat) :
  SpecTableau.basic_row eps [row] j = None.
Proof.
  unfold SpecTableau.basic_row. cbn [fmap list_fmap imap].
  rewrite filter_cons, filter_nil. cbn [snd].
  destruct (decide _); [|reflexivity].
  rewrite andb_false_r. reflexivity.
Qed.

(** X14.  A model without constraints never enters the first phase and is
    never reported infeasible.  With the tableau of the design document and
    fuel for one pass of the loop, [solve] reports it optimal, with every
    variable at 0, when no coefficient of the objective to be maximised
    exceeds the tolerance, and unbounded otherwise. *)
Theorem unconstrained_model_outcome (eps : num) (fuel : nat) (model : Model.t)
    (w : World) :
  Model.constraints model = [] →
  let n := length (Model.variables model) in
  let objective := Objective.expression (Model.objective (augmented model)) in
  let bounded :=
    forallb (λ j, leb (Expression.coefficient objective j) eps) (seq 0 n) in
  ∃ sol w',
    Solver.solve (ops := spec_tableau eps) (S fuel) model w = Ok sol w' ∧
    Solution.status sol = (if bounded then Status.OPTIMAL else Status.UNBOUNDED) ∧
    Solution.raw_assignment sol = (if bounded then replicate n 0%Qc else []) ∧
    length (arrays w') = length (arrays w) + 2.
Proof.
  intros Hnone n objective bounded.
  destruct (unconstrained_augmented model Hnone) as [Hvars Hcs].
  rewrite solve_branches. cbv zeta.
  unfold Model.simplify at 1. cbn [Model.constraints Model.with_constraints].
  rewrite Hnone. cbn [fmap list_fmap existsb].
  unfold Solver.slack_only_path.
  rewrite (bind_run _ _ _ _ _ (_basic_initial_tableau_run _ _)).
  cbn [self arrays].
  match goal with
  | |- context [Solver.solve_from _ _ ?t0 ?w1] => set (t := t0); set (w0 := w1)
  end.
  assert (Solver.basic_table (augmented model)
          = [coefficients (Expression.scale (-1)%Qc objective) (augmented model)
             ++ [0%Qc]]) as Htable.
  { rewrite basic_table_rows. unfold constraint_rows. by rewrite Hcs. }
  set (row := coefficients (Expression.scale (-1)%Qc objective) (augmented model)
              ++ [0%Qc]) in Htable.
  assert (arrays w0 !! Tableau.table t = Some [row]) as Ha.
  { cbn [arrays Tableau.table w0 t].
    rewrite lookup_app_r, Nat.sub_diag by lia. cbn [lookup list_lookup].
    by rewrite Htable. }
  assert (length row = S n) as Hrow.
  { unfold row. rewrite length_app, coefficients_length, Hvars. cbn. lia. }
  assert (SpecTableau.is_optimal eps [row] = bounded) as Hopt.
  { unfold SpecTableau.is_optimal, SpecTableau.costs.
    change (np.ncols [row]) with (length row).
    change (default [] (head [row])) with row.
    rewrite Hrow. cbn [Nat.sub]. rewrite Nat.sub_0_r.
    unfold row. rewrite take_app_length' by (by rewrite coefficients_length, Hvars).
    unfold coefficients, bounded. rewrite Hvars. fold n.
    generalize (seq 0 n). intros l.
    induction l as [|j l IH]; [reflexivity|].
    cbn [fmap list_fmap forallb]. rewrite IH. f_equal.
    rewrite coefficient_scale. unfold leb.
    apply bool_decide_ext. split; intros Hle.
    - apply Qcopp_le_compat in Hle.
      replace (- (-1 * Expression.coefficient objective j))%Qc
        with (Expression.coefficient objective j) in Hle by ring.
      by rewrite Qcopp_involutive in Hle.
    - apply Qcopp_le_compat in Hle.
      by replace (-1 * Expression.coefficient objective j)%Qc
        with (- Expression.coefficient objective j)%Qc by ring. }
  rewrite (solve_from_optimize _ _ _ _ _ Ha).
  set (w1 := mkWorld (self w0) (arrays w0 ++ [[row]])).
  assert (arrays w1 !! Tableau.table t = Some [row]) as Ha1.
  { cbn [arrays w1]. rewrite lookup_app_l; [exact Ha|].
    by apply lookup_lt_Some in Ha. }
  assert (length (arrays w1) = length (arrays w) + 2) as Hlen.
  { cbn [arrays w1 w0]. rewrite !length_app. cbn. lia. }
  destruct (_optimize_run (ops := spec_tableau eps) (augmented model)
              (length (arrays w)) 0 [row] [row] w1 (S fuel)
              (pivots_O _ _) Ha1 ltac:(lia)) as [Hyes Hno].
  pose proof (with_array_same _ _ _ Ha1) as Hsame.
  change (with_array w1 (Tableau.table t) [row])
    with (with_array w1 (length (arrays w)) [row]) in Hsame.
  rewrite Hsame in Hyes, Hno.
  destruct bounded.
  - replace (Solver._optimize (S fuel) t w1) with (Ok true w1)
      by (symmetry; apply Hyes; exact Hopt).
    replace (arrays w1 !! Tableau.table t) with (Some [row])
      by (symmetry; exact Ha1).
    eexists _, _. split; [reflexivity|].
    cbn [Solution.with_assignment Solution.status Solution.raw_assignment].
    split; [reflexivity|]. split; [|exact Hlen].
    cbn [extract_assignment spec_tableau]. unfold SpecTableau.extract_assignment.
    change (np.ncols [row]) with (length row). rewrite Hrow. cbn [Nat.sub].
    rewrite Nat.sub_0_r.
    transitivity (const 0%Qc <$> seq 0 n);
      [|by rewrite fmap_const_replicate, length_seq].
    apply list_fmap_ext. intros _ j _. by rewrite basic_row_objective_only.
  - replace (Solver._optimize (S fuel) t w1) with (Ok false w1).
    2:{ symmetry. apply Hno. split; [exact Hopt|]. reflexivity. }
    eexists _, _. split; [reflexivity|].
    cbn [Solution.unbounded Solution.status Solution.raw_assignment].
    split; [reflexivity|]. split; [reflexivity|exact Hlen].
Qed.

(** X14 on the maximisation of x2 without constraints. *)
Lemma unconstrained_model_outcome_witness :
  let model :=
    Model.maximize (models.with_variables (empty_model "free") ["x1"; "x2"])
      (Expression.var models.x2) in
  ∃ sol w',
    Solver.solve (ops := reference_ops) 1 model fresh = Ok sol w' ∧
    Solution.status sol = Status.UNBOUNDED.
Proof.
  intros model.
  destruct (unconstrained_model_outcome SpecTableau.epsilon 0 model fresh eq_refl)
    as (sol & w' & Hrun & Hstatus & _).
  exists sol, w'. split; [exact Hrun|]. exact Hstatus.
Defined.

(** ** The model of example 05 *)

(** X15.  The script of example 05 passes.  The model it builds is feasible,
    the name of the file notwithstanding: x1 = 0, x2 = 0, x3 = 10 satisfies
    both constraints.  [solve], with the tableau of the design document and
    fuel for three passes of the loop, takes it through the first phase,
    which succeeds, and reports it unbounded in the second phase, with an
    empty assignment. *)
Theorem example_05_reported_unbounded (extra : nat) :
  Forall (holds_at (num_of_Z <$> [0; 0; 10]%Z))
         (Model.constraints example_05.create_model)
  ∧ ∃ solution w,
      Solver.solve (ops := reference_ops) (3 + extra) example_05.create_model fresh
      = Ok solution w
      ∧ Solution.status solution = Status.UNBOUNDED
      ∧ Solution.raw_assignment solution = []
      ∧ Tableau.model (Solution.tableau solution)
        = presolve_of (slack_pass example_05.create_model).2
                      (augmented example_05.create_model)
      ∧ length (artificial_of (slack_pass example_05.create_model).2
                              (augmented example_05.create_model)) = 2.
Proof.
  split.
  - repeat apply Forall_cons_2; [| |apply Forall_nil_2];
      apply (bool_decide_unpack _); vm_compute; reflexivity.
  - remember (Solver.solve _ _ _) as r eqn:E.
    vm_compute in E. subst r.
    eexists _, _. split; [reflexivity|].
    split; [reflexivity|]. split; [reflexivity|].
    split; vm_compute; reflexivity.
Qed.
